(** * ENS Font merge engine (scripts/merge.py): a shallow embedding

    The font container of the script is a fontTools [TTFont]; only the
    tables the merge touches are kept.  Python dictionaries are finite maps
    ([gmap]); a raised exception is a value of [Exn], and a function that
    mutates a font and may raise returns the font as it stands at that
    point together with the outcome, since Python does not roll back. *)

From Stdlib Require Import ZArith Lia List String Ascii.
From stdpp Require Import base option list gmap sets strings.
From stdpp Require Import list_numbers sorting.

Local Open Scope Z_scope.

(** ** Python integer formatting: [{n:0wX}] *)

Module PyFormat.

(** The upper-case hexadecimal digit of a value in [0, 15]. *)
Definition hex_digit (d : Z) : ascii :=
  match d with
  | 0 => "0" | 1 => "1" | 2 => "2" | 3 => "3"
  | 4 => "4" | 5 => "5" | 6 => "6" | 7 => "7"
  | 8 => "8" | 9 => "9" | 10 => "A" | 11 => "B"
  | 12 => "C" | 13 => "D" | 14 => "E" | _ => "F"
  end%char.

(** Base-16 digits of a non-negative number, most significant first.
    [fuel] bounds the number of digits. *)
Fixpoint digits_fuel (fuel : nat) (n : Z) : list Z :=
  match fuel with
  | O => [n mod 16]
  | S fuel' =>
      if n <? 16 then [n] else digits_fuel fuel' (n / 16) ++ [n mod 16]
  end.

Definition digits (n : Z) : list Z := digits_fuel (Z.to_nat (Z.log2 n)) n.

(** Left padding with zeros up to [width] digits. *)
Definition zero_pad (width : nat) (ds : list Z) : list Z :=
  replicate (width - length ds)%nat 0 ++ ds.

Definition render (ds : list Z) : string :=
  string_of_list_ascii (map hex_digit ds).

(** [format(n, "0{width}X")]: the sign, if any, counts in the width. *)
Definition format_hex (width : nat) (n : Z) : string :=
  if n <? 0
  then String "-"%char (render (zero_pad (width - 1) (digits (- n))))
  else render (zero_pad width (digits n)).

(** The value a list of digits denotes, and the value of a digit
    character: the reading back of a rendered number. *)
Definition value (ds : list Z) : Z := fold_left (fun a d => 16 * a + d) ds 0.

Definition digit_val (c : ascii) : Z :=
  let n := Z.of_nat (nat_of_ascii c) in
  if n <? 58 then n - 48 else n - 55.

Definition parse (s : string) : Z :=
  value (map digit_val (list_ascii_of_string s)).

(** A hexadecimal digit value. *)
Definition is_digit (d : Z) : Prop := 0 <= d < 16.

End PyFormat.

(** ** Data model *)

(** Exceptions the merge can raise. *)
Inductive Exn :=
| ValueError            (* get_best_cmap: no usable Unicode subtable *)
| KeyError (k : string) (* a table has no entry under [k] *)
| RecursionError.       (* the interpreter's call depth is exhausted *)

(** One cmap subtable: [platformID], [platEncID], [format], [language] and
    the codepoint-to-glyph-name dictionary. *)
Record CmapSubtable := mkSubtable {
  platformID : Z;
  platEncID : Z;
  format : Z;
  language : Z;
  cmap : gmap Z string
}.

(** A component reference of a composite glyph: the glyph it names and its
    placement. *)
Record Component := mkComponent {
  glyphName : string;
  comp_x : Z;
  comp_y : Z;
  comp_flags : Z
}.

(** A glyph of the [glyf] table: contours of points, or component
    references.  Only a composite has a [components] attribute. *)
Inductive Glyph :=
| SimpleGlyph (contours : list (list (Z * Z)))
| CompositeGlyph (components : list Component).

(** [numberOfContours]: the contour count, -1 for a composite. *)
Definition numberOfContours (g : Glyph) : Z :=
  match g with
  | SimpleGlyph cs => Z.of_nat (length cs)
  | CompositeGlyph _ => -1
  end.

Record OS2 := mkOS2 {
  sTypoAscender : Z;
  sTypoDescender : Z;
  sTypoLineGap : Z;
  usWinAscent : Z;
  usWinDescent : Z;
  fsSelection : Z;
  fsType : Z;
  sxHeight : Z;
  sCapHeight : Z;
  ulUnicodeRange1 : Z;
  ulUnicodeRange2 : Z;
  ulUnicodeRange3 : Z;
  ulUnicodeRange4 : Z
}.

Record Hhea := mkHhea {
  ascent : Z;
  descent : Z;
  lineGap : Z
}.

Record Vhea := mkVhea {
  vhea_ascent : Z;
  advanceHeightMax : Z;
  numberOfVMetrics : Z
}.

(** The tables of a [TTFont] the merge reads or writes.  Each table is the
    dictionary or list the script reaches through it; what fontTools keeps
    besides (lazy loading, a glyph's cached bounding box) is not modelled.
    The glyph order is one list: the [glyf] table holds the font's own.
    A subtable holds its dictionary by value. *)
Record TTFont := mkFont {
  cmap_tables : list CmapSubtable;     (* font["cmap"].tables *)
  glyf : gmap string Glyph;            (* font["glyf"].glyphs *)
  hmtx : gmap string (Z * Z);          (* font["hmtx"].metrics *)
  vmtx : gmap string (Z * Z);          (* font["vmtx"].metrics *)
  glyphOrder : list string;            (* font.getGlyphOrder() *)
  os2 : OS2;                           (* font["OS/2"] *)
  hhea : Hhea;                         (* font["hhea"] *)
  vhea : Vhea                          (* font["vhea"] *)
}.

Definition set_cmap_tables (f : TTFont) (ts : list CmapSubtable) : TTFont :=
  mkFont ts (glyf f) (hmtx f) (vmtx f) (glyphOrder f) (os2 f) (hhea f) (vhea f).
Definition set_glyf (f : TTFont) (g : gmap string Glyph) : TTFont :=
  mkFont (cmap_tables f) g (hmtx f) (vmtx f) (glyphOrder f) (os2 f) (hhea f) (vhea f).
Definition set_hmtx (f : TTFont) (m : gmap string (Z * Z)) : TTFont :=
  mkFont (cmap_tables f) (glyf f) m (vmtx f) (glyphOrder f) (os2 f) (hhea f) (vhea f).
Definition set_vmtx (f : TTFont) (m : gmap string (Z * Z)) : TTFont :=
  mkFont (cmap_tables f) (glyf f) (hmtx f) m (glyphOrder f) (os2 f) (hhea f) (vhea f).
Definition setGlyphOrder (f : TTFont) (o : list string) : TTFont :=
  mkFont (cmap_tables f) (glyf f) (hmtx f) (vmtx f) o (os2 f) (hhea f) (vhea f).
Definition set_os2 (f : TTFont) (o : OS2) : TTFont :=
  mkFont (cmap_tables f) (glyf f) (hmtx f) (vmtx f) (glyphOrder f) o (hhea f) (vhea f).
Definition set_hhea (f : TTFont) (h : Hhea) : TTFont :=
  mkFont (cmap_tables f) (glyf f) (hmtx f) (vmtx f) (glyphOrder f) (os2 f) h (vhea f).
Definition set_vhea (f : TTFont) (v : Vhea) : TTFont :=
  mkFont (cmap_tables f) (glyf f) (hmtx f) (vmtx f) (glyphOrder f) (os2 f) (hhea f) v.

(** ** get_best_cmap *)

Definition is_win_full (t : CmapSubtable) : bool :=
  (platformID t =? 3) && (platEncID t =? 10).
Definition is_win_bmp (t : CmapSubtable) : bool :=
  (platformID t =? 3) && (platEncID t =? 1).
Definition is_unicode_platform (t : CmapSubtable) : bool :=
  platformID t =? 0.

(** Three passes over the subtables, one per preference; the first hit of
    the first pass that has one is returned as a fresh dictionary. *)
Definition get_best_cmap (font : TTFont) : Exn + gmap Z string :=
  match find is_win_full (cmap_tables font) with
  | Some t => inr (cmap t)
  | None =>
      match find is_win_bmp (cmap_tables font) with
      | Some t => inr (cmap t)
      | None =>
          match find is_unicode_platform (cmap_tables font) with
          | Some t => inr (cmap t)
          | None => inl ValueError
          end
      end
  end.

(** ** glyph_name_for_codepoint *)

Definition glyph_name_for_codepoint (codepoint : Z) (prefix : string) : string :=
  if codepoint <=? 0xFFFF
  then prefix +:+ "uni" +:+ PyFormat.format_hex 4 codepoint
  else prefix +:+ "u" +:+ PyFormat.format_hex 6 codepoint.

(** ** update_cmap *)

Definition write_cmap (t : CmapSubtable) (codepoint : Z) (glyph_name : string)
  : CmapSubtable :=
  mkSubtable (platformID t) (platEncID t) (format t) (language t)
             (<[codepoint := glyph_name]> (cmap t)).

(** The body of the loop of [update_cmap], for one subtable.  The write
    is into the subtable's own dictionary: subtables that fontTools read
    from one file offset hold one dictionary object, and a write through
    one of them then shows through the others, which have its format; what
    is proved of [update_cmap] below holds with or without such sharing. *)
Definition update_subtable (codepoint : Z) (glyph_name : string)
    (subtable : CmapSubtable) : CmapSubtable :=
  let bmp := codepoint <=? 0xFFFF in
  if negb ((platformID subtable =? 0) || (platformID subtable =? 3)) then subtable
  else
    let fmt := format subtable in
    if bmp && ((fmt =? 4) || (fmt =? 6)) then write_cmap subtable codepoint glyph_name
    else if (fmt =? 12) || (fmt =? 13) then write_cmap subtable codepoint glyph_name
    else if (platformID subtable =? 0) && ((fmt =? 3) || (fmt =? 4)) && bmp
         then write_cmap subtable codepoint glyph_name
         else subtable.

Definition update_cmap (font : TTFont) (codepoint : Z) (glyph_name : string)
  : TTFont :=
  set_cmap_tables font (update_subtable codepoint glyph_name <$> cmap_tables font).

(** ** ensure_cmap_subtables *)

(** [get_best_cmap] is called before anything is appended, so a font with
    no usable subtable is left as it was. *)
Definition ensure_cmap_subtables (font : TTFont) : Exn + TTFont :=
  let tables := cmap_tables font in
  let has_format4 := existsb (fun t => format t =? 4) tables in
  let has_format12 := existsb (fun t => format t =? 12) tables in
  match get_best_cmap font with
  | inl e => inl e
  | inr best =>
      let tables1 :=
        if has_format4 then tables
        else tables ++ [mkSubtable 3 1 4 0 (filter (fun kv => kv.1 ≤ 0xFFFF) best)] in
      let tables2 :=
        if has_format12 then tables1
        else tables1 ++ [mkSubtable 3 10 12 0 best] in
      inr (set_cmap_tables font tables2)
  end.

(** ** copy_glyph *)

(** The donor and the base, both reachable from [copy_glyph]: two distinct
    objects, loaded by [merge_fonts] from two files. *)
Record Fonts := mkFonts {
  src_font : TTFont;
  dst_font : TTFont
}.

Definition set_dst (st : Fonts) (f : TTFont) : Fonts := mkFonts (src_font st) f.

(** The name a component is copied under: [f"_ens_{comp_src}"]. *)
Definition ens_name (comp_src : string) : string := "_ens_" +:+ comp_src.

(** [component.glyphName = comp_dst], on the deep copy. *)
Definition rename_component (c : Component) : Component :=
  mkComponent (ens_name (glyphName c)) (comp_x c) (comp_y c) (comp_flags c).

Section CopyComponents.
(** The recursive call of [copy_glyph], one level deeper. *)
Variable copy_rec : Fonts -> string -> string -> Fonts * option Exn.

(** The loop over the components of the deep copy.  An exception leaves
    the loop at once, with the base as written so far; the copy is a
    local and is lost. *)
Fixpoint copy_components (comps : list Component) (st : Fonts)
  : Fonts * (Exn + list Component) :=
  match comps with
  | [] => (st, inr [])
  | component :: rest =>
      let comp_src := glyphName component in
      let comp_dst := ens_name comp_src in
      match copy_rec st comp_src comp_dst with
      | (st1, Some e) => (st1, inl e)
      | (st1, None) =>
          match copy_components rest st1 with
          | (st2, inl e) => (st2, inl e)
          | (st2, inr rest') => (st2, inr (rename_component component :: rest'))
          end
      end
  end.

(** The [if] that guards the loop: only a glyph with a non-empty list of
    components is deep-copied and rewritten; any other goes on as it is. *)
Definition copy_composite (src_glyph : Glyph) (st : Fonts) : Fonts * (Exn + Glyph) :=
  match src_glyph with
  | CompositeGlyph (c :: cs) =>
      match copy_components (c :: cs) st with
      | (st1, inl e) => (st1, inl e)
      | (st1, inr comps') => (st1, inr (CompositeGlyph comps'))
      end
  | _ => (st, inr src_glyph)
  end.
End CopyComponents.

(** [glyf[name] = glyph], the item assignment of the [glyf] table: the
    glyph is stored, and a name the glyph order lacks is appended to it.
    The order the table appends to is the font's own list. *)
Definition glyf_setitem (font : TTFont) (name : string) (g : Glyph) : TTFont :=
  let font1 := set_glyf font (<[name := g]> (glyf font)) in
  if decide (name ∈ glyphOrder font1) then font1
  else setGlyphOrder font1 (glyphOrder font1 ++ [name]).

(** The two writes that end [copy_glyph]: the outline, then the horizontal
    metrics, whose lookup in the donor may raise after the first write. *)
Definition store_glyph (st : Fonts) (src_name dst_name : string) (g : Glyph)
  : Fonts * option Exn :=
  let st1 := set_dst st (glyf_setitem (dst_font st) dst_name g) in
  match hmtx (src_font st1) !! src_name with
  | None => (st1, Some (KeyError src_name))
  | Some m =>
      (set_dst st1 (set_hmtx (dst_font st1) (<[dst_name := m]> (hmtx (dst_font st1)))),
       None)
  end.

(** [depth] is the call depth the interpreter still allows: a call beyond
    it raises [RecursionError], which is an [Exception] like the others.
    The lookup [src_glyf[src_name]] raises [KeyError] for a name the donor
    lacks. *)
Fixpoint copy_glyph (depth : nat) (st : Fonts) (src_name dst_name : string)
  : Fonts * option Exn :=
  match depth with
  | O => (st, Some RecursionError)
  | S depth' =>
      match glyf (dst_font st) !! dst_name with
      | Some _ => (st, None)
      | None =>
          match glyf (src_font st) !! src_name with
          | None => (st, Some (KeyError src_name))
          | Some src_glyph =>
              match copy_composite (copy_glyph depth') src_glyph st with
              | (st1, inl e) => (st1, Some e)
              | (st1, inr src_glyph') =>
                  store_glyph st1 src_name dst_name src_glyph'
              end
          end
      end
  end.

(** ** transplant_glyphs *)

(** A warning of the transplant loop: the codepoint, the donor's glyph name
    and the exception caught. *)
Record Warning := mkWarning {
  warn_cp : Z;
  warn_glyph : string;
  warn_exn : Exn
}.

(** What the loop has produced so far. *)
Record Transplant := mkTransplant {
  fonts : Fonts;
  count : nat;
  warnings : list Warning
}.

Section Transplant.
(** The order in which Python iterates a dictionary's items. *)
Variable dict_items : gmap Z string -> list (Z * string).
(** The call depth left when the loop calls [copy_glyph]. *)
Variable recursion_limit : nat.

Definition transplant_step (prefix : string) (acc : Transplant)
    (item : Z * string) : Transplant :=
  let '(cp, src_glyph_name) := item in
  let dst_glyph_name := glyph_name_for_codepoint cp prefix in
  match copy_glyph recursion_limit (fonts acc) src_glyph_name dst_glyph_name with
  | (st1, None) =>
      mkTransplant (set_dst st1 (update_cmap (dst_font st1) cp dst_glyph_name))
                   (S (count acc)) (warnings acc)
  | (st1, Some e) =>
      mkTransplant st1 (count acc)
                   (warnings acc ++ [mkWarning cp src_glyph_name e])
  end.

Definition transplant_loop (prefix : string) (items : list (Z * string))
    (acc : Transplant) : Transplant :=
  fold_left (transplant_step prefix) items acc.

(** [get_best_cmap] on the donor is outside the [try]: its exception
    leaves both fonts untouched. *)
Definition transplant_glyphs (st : Fonts) (prefix : string) : Exn + Transplant :=
  match get_best_cmap (src_font st) with
  | inl e => inl e
  | inr src_cmap =>
      inr (transplant_loop prefix (dict_items src_cmap) (mkTransplant st 0 []))
  end.
End Transplant.

(** ** fix_glyph_order *)

Section FixGlyphOrder.
(** The order in which Python iterates a set. *)
Variable set_iter : gset string -> list string.

Definition fix_glyph_order (font : TTFont) : TTFont :=
  let existing_order := glyphOrder font in
  let existing_set : gset string := list_to_set existing_order in
  let glyf_names : gset string := dom (glyf font) in
  let new_glyphs := filter (fun g => g ∉ existing_set) (set_iter glyf_names) in
  match new_glyphs with
  | [] => font
  | _ :: _ => setGlyphOrder font (existing_order ++ new_glyphs)
  end.
End FixGlyphOrder.

(** ** set_os2_metrics *)

Definition set_os2_metrics (font meslo_ref : TTFont) : TTFont :=
  let o := os2 font in
  let ref_os2 := os2 meslo_ref in
  let ref_hhea := hhea meslo_ref in
  let o' :=
    mkOS2 (sTypoAscender ref_os2) (sTypoDescender ref_os2) (sTypoLineGap ref_os2)
          (usWinAscent ref_os2) (usWinDescent ref_os2)
          (Z.lor (fsSelection o) 0x80)
          0
          (sxHeight ref_os2) (sCapHeight ref_os2)
          (Z.lor (ulUnicodeRange1 ref_os2) (ulUnicodeRange1 o))
          (Z.lor (ulUnicodeRange2 ref_os2) (ulUnicodeRange2 o))
          (Z.lor (ulUnicodeRange3 ref_os2) (ulUnicodeRange3 o))
          (Z.lor (ulUnicodeRange4 ref_os2) (ulUnicodeRange4 o)) in
  let h' := mkHhea (ascent ref_hhea) (descent ref_hhea) (lineGap ref_hhea) in
  set_hhea (set_os2 font o') h'.

(** ** rebuild_vmtx *)

Section RebuildVmtx.
(** fontTools' [recalcBounds] followed by the read of [yMax]: the glyph's
    largest y, or [None] when the call raises or leaves no [yMax]. *)
Variable recalc_yMax : gmap string Glyph -> Glyph -> option Z.

(** The top side bearing computed inside the [try]. *)
Definition synth_tsb (font : TTFont) (name : string) : Z :=
  match glyf font !! name with
  | None => 0
  | Some g =>
      if numberOfContours g =? 0 then 0
      else match recalc_yMax (glyf font) g with
           | Some yMax => vhea_ascent (vhea font) - yMax
           | None => 0
           end
  end.

(** One turn of the loop over the glyph order: the metrics dictionary and
    the count of entries added. *)
Definition vmtx_step (font : TTFont) (acc : gmap string (Z * Z) * nat)
    (name : string) : gmap string (Z * Z) * nat :=
  let '(existing, rebuilt) := acc in
  match existing !! name with
  | Some _ => (existing, rebuilt)
  | None =>
      (<[name := (advanceHeightMax (vhea font), synth_tsb font name)]> existing,
       S rebuilt)
  end.

Definition rebuild_vmtx (font : TTFont) : TTFont :=
  let glyph_order := glyphOrder font in
  let '(existing, _) := fold_left (vmtx_step font) glyph_order (vmtx font, O) in
  set_vhea (set_vmtx font existing)
           (mkVhea (vhea_ascent (vhea font)) (advanceHeightMax (vhea font))
                   (Z.of_nat (length glyph_order))).
End RebuildVmtx.


(** ** validate_monospace_integrity *)

(** What the validator logs: a warning with the number of distinct widths
    and the widths in increasing order, the one width, or a warning that no
    ASCII glyph was found. *)
Inductive MonospaceReport :=
| IntegrityViolation (n : nat) (widths : list Z)
| IntegrityOK (width : Z)
| NoAsciiGlyphs.

(** One turn of the loop over [range(0x0020, 0x007F)]. *)
Definition widths_step (font : TTFont) (cmap : gmap Z string)
    (widths : gset Z) (cp : Z) : gset Z :=
  match cmap !! cp with
  | None => widths
  | Some gname =>
      match hmtx font !! gname with
      | None => widths
      | Some m => {[ m.1 ]} ∪ widths
      end
  end.

Definition ascii_widths (font : TTFont) (cmap : gmap Z string) : gset Z :=
  fold_left (widths_step font cmap) (seqZ 0x0020 (0x007F - 0x0020)) ∅.

(** The resolver's exception is the only one; the font is only read. *)
Definition validate_monospace_integrity (font : TTFont) : Exn + MonospaceReport :=
  match get_best_cmap font with
  | inl e => inl e
  | inr cmap =>
      let widths := ascii_widths font cmap in
      if (1 <? size widths)%nat
      then inr (IntegrityViolation (size widths) (merge_sort Z.le (elements widths)))
      else if (size widths =? 1)%nat
           then inr (IntegrityOK (hd 0 (elements widths)))
           else inr NoAsciiGlyphs
  end.

(** ** set_font_metadata *)

(** Python's [str] is held as its UTF-8 bytes.  [str.replace(old, new)]
    for a one-character ASCII [old]: every occurrence is replaced, left to
    right (an ASCII byte never occurs inside a longer UTF-8 sequence). *)
Fixpoint str_replace (old : ascii) (new : string) (s : string) : string :=
  match s with
  | EmptyString => EmptyString
  | String c rest =>
      if Ascii.eqb c old
      then new +:+ str_replace old new rest
      else String c (str_replace old new rest)
  end.

Definition newline : string := String "010"%char EmptyString.
Definition dquote : string := String "034"%char EmptyString.

(** A record of the [name] table.  [name_platformID] and [name_platEncID]
    are the record's [platformID] and [platEncID], [name_string] its
    encoded [string]. *)
Record NameRecord := mkNameRecord {
  nameID : Z;
  name_platformID : Z;
  name_platEncID : Z;
  langID : Z;
  name_string : list Byte.byte
}.

Definition copyright_notice : string :=
  "ENS Font (Elegant Nerd Sino) is a derivative work." +:+ newline +:+
  "CJK glyphs: LXGW WenKai Mono (c) 2021 Xiaocheng Liao, SIL OFL 1.1" +:+ newline +:+
  "Latin/ASCII glyphs: MesloLGM (c) 2009-2013 Andre Berg, Apache License 2.0" +:+ newline +:+
  "PUA icons: Nerd Fonts (c) 2014 Ryan L McIntyre, MIT License" +:+ newline +:+
  "Compiled font: (c) 2026 enstw (https://ens.tw/font), SIL OFL 1.1" +:+ newline +:+
  "Reserved Font Names: " +:+ dquote +:+ "ENS Font" +:+ dquote +:+ " and " +:+
  dquote +:+ "Elegant Nerd Sino" +:+ dquote +:+ "." +:+ newline +:+
  "The names " +:+ dquote +:+ "LXGW" +:+ dquote +:+ ", " +:+
  dquote +:+ "霞鶩" +:+ dquote +:+ ", " +:+
  dquote +:+ "Klee" +:+ dquote +:+ ", and " +:+
  dquote +:+ "Meslo" +:+ dquote +:+ " are NOT used by this derivative.".

Definition license_text : string :=
  "This Font Software is licensed under the SIL Open Font License, Version 1.1. " +:+
  "This license is available with a FAQ at: https://openfontlicense.org. " +:+
  "ASCII/Latin glyphs derived from MesloLGM are used under the Apache License 2.0.".

(** The [entries] list: name ID and value. *)
Definition metadata_entries (style version lxgw_ver nerd_ver : string)
    : list (Z * string) :=
  let family_name := "ENS Font" in
  let ps_style := str_replace " " EmptyString style in
  let full_name := "ENS Font " +:+ style in
  let ps_name := "ENSFont-" +:+ ps_style in
  let version_str :=
    "Version " +:+ version +:+ "; lxgw" +:+ lxgw_ver +:+ "; nerd" +:+ nerd_ver in
  let unique_id := version_str +:+ "; " +:+ ps_name in
  [ (0, copyright_notice);
    (1, family_name);
    (2, style);
    (3, unique_id);
    (4, full_name);
    (5, version_str);
    (6, ps_name);
    (8, "enstw");
    (11, "https://ens.tw/font");
    (13, license_text);
    (14, "https://openfontlicense.org");
    (19, "Elegant Nerd Sino Font：終端機字體預覽，English + 繁體中文 + 1234567890。") ]%string.

(** Platform, encoding and language of the records written for each entry:
    zh-TW (Windows), en-US (Windows), Traditional Chinese (Mac). *)
Definition name_locales : list (Z * Z * Z) :=
  [ (3, 1, 0x0404); (3, 1, 0x0409); (1, 0, 19) ].

Section SetFontMetadata.
(** [str.encode("utf-16-be")] and [str.encode("mac_roman", errors="replace")]. *)
Variable utf_16_be : string -> list Byte.byte.
Variable mac_roman : string -> list Byte.byte.

Definition new_record (name_id : Z) (value : string) (locale : Z * Z * Z)
    : NameRecord :=
  let '(platform_id, enc_id, lang_id) := locale in
  mkNameRecord name_id platform_id enc_id lang_id
    (if platform_id =? 3 then utf_16_be value else mac_roman value).

Definition append_entry (names : list NameRecord) (entry : Z * string)
    : list NameRecord :=
  fold_left (fun names locale => names ++ [new_record entry.1 entry.2 locale])
            name_locales names.

(** The [name] table is the only part of the font the function reads or
    writes; it is taken and returned as its list of records. *)
Definition set_font_metadata (names : list NameRecord)
    (style version lxgw_ver nerd_ver : string) : list NameRecord :=
  let entries := metadata_entries style version lxgw_ver nerd_ver in
  let ids_to_clear : gset Z := list_to_set (entries.*1) in
  let names := filter (fun n => nameID n ∉ ids_to_clear) names in
  fold_left append_entry entries names.

End SetFontMetadata.
(** * Vocabulary of the properties *)

(** The three kinds of subtable the contract names, by platform and
    encoding. *)
Definition wide_windows_unicode (t : CmapSubtable) : Prop :=
  platformID t = 3 /\ platEncID t = 10.
Definition narrow_windows_unicode (t : CmapSubtable) : Prop :=
  platformID t = 3 /\ platEncID t = 1.
Definition generic_unicode (t : CmapSubtable) : Prop :=
  platformID t = 0.

(** The priority rule in the words of the contract: [t] is the first
    subtable of [ts] of the kind [P]. *)
Definition first_matching (P : CmapSubtable -> Prop) (ts : list CmapSubtable)
    (t : CmapSubtable) : Prop :=
  exists before after,
    ts = before ++ t :: after /\ P t /\ Forall (fun u => ~ P u) before.

(** First match wins: wide Windows-Unicode, else narrow Windows-Unicode,
    else the generic Unicode platform. *)
Inductive best_subtable (ts : list CmapSubtable) (t : CmapSubtable) : Prop :=
| best_wide :
    first_matching wide_windows_unicode ts t -> best_subtable ts t
| best_narrow :
    Forall (fun u => ~ wide_windows_unicode u) ts ->
    first_matching narrow_windows_unicode ts t -> best_subtable ts t
| best_unicode :
    Forall (fun u => ~ wide_windows_unicode u) ts ->
    Forall (fun u => ~ narrow_windows_unicode u) ts ->
    first_matching generic_unicode ts t -> best_subtable ts t.

(** No subtable matches any of the three rules. *)
Definition no_usable_subtable (ts : list CmapSubtable) : Prop :=
  Forall (fun u => ~ wide_windows_unicode u /\ ~ narrow_windows_unicode u /\
                   ~ generic_unicode u) ts.

(** The consistency relations terminals rely on: header ascent, legacy
    Windows ascent and typographic ascender agree; header descent, negated
    legacy Windows descent and typographic descender agree. *)
Definition metrics_consistent (f : TTFont) : Prop :=
  ascent (hhea f) = usWinAscent (os2 f) /\
  usWinAscent (os2 f) = sTypoAscender (os2 f) /\
  descent (hhea f) = - usWinDescent (os2 f) /\
  descent (hhea f) = sTypoDescender (os2 f).

(** *** Sample fonts *)

Definition sample_os2 (typo_asc typo_desc win_asc win_desc : Z) : OS2 :=
  mkOS2 typo_asc typo_desc 0 win_asc win_desc 0 0 0 0 0 0 0 0.

(** A font with the given cmap subtables, outlines and horizontal metrics,
    and nothing else. *)
Definition sample_font (ts : list CmapSubtable) (g : gmap string Glyph)
    (h : gmap string (Z * Z)) : TTFont :=
  mkFont ts g h ∅ [] (sample_os2 0 0 0 0) (mkHhea 0 0 0) (mkVhea 0 0 0).

(** A donor whose header ascent (1000) differs from its legacy Windows
    ascent (900). *)
Definition uneven_donor : TTFont :=
  mkFont [] ∅ ∅ ∅ [] (sample_os2 1000 (-200) 900 200) (mkHhea 1000 (-200) 0)
         (mkVhea 0 0 0).

(** How many times a name is listed in a glyph order. *)
Definition occurrences (order : list string) (g : string) : nat :=
  count_occ string_dec order g.

(** A font whose glyph order lacks its single outline, "a". *)
Definition one_glyph_font : TTFont :=
  mkFont [] {[ "a"%string := SimpleGlyph [] ]} ∅ ∅ [".notdef"%string]
         (sample_os2 0 0 0 0) (mkHhea 0 0 0) (mkVhea 0 0 0).

(** A glyph "with outlines" for the vertical metrics: it is in the outline
    table, its contour count is not zero, and its bounding box resolves to
    a largest y. *)
Definition has_outline_extent (recalc_yMax : gmap string Glyph -> Glyph -> option Z)
    (font : TTFont) (name : string) (yMax : Z) : Prop :=
  exists g, glyf font !! name = Some g /\ numberOfContours g <> 0 /\
            recalc_yMax (glyf font) g = Some yMax.

(** What [copy_glyph] may not touch: the donor, and every table of the base
    but the outlines and the horizontal metrics; the glyph order is only
    appended to. *)
Definition same_but_outlines (st st' : Fonts) : Prop :=
  src_font st' = src_font st /\
  cmap_tables (dst_font st') = cmap_tables (dst_font st) /\
  vmtx (dst_font st') = vmtx (dst_font st) /\
  glyphOrder (dst_font st) `prefix_of` glyphOrder (dst_font st') /\
  os2 (dst_font st') = os2 (dst_font st) /\
  hhea (dst_font st') = hhea (dst_font st) /\
  vhea (dst_font st') = vhea (dst_font st).

(** The outline table only gains names. *)
Definition outlines_grow (st st' : Fonts) : Prop :=
  dom (glyf (dst_font st)) ⊆ dom (glyf (dst_font st')).

(** Every outline of the first state is an outline of the second. *)
Definition outlines_kept (st st' : Fonts) : Prop :=
  glyf (dst_font st) ⊆ glyf (dst_font st').

(** A narrow subtable is BMP-only: format 4 or format 6. *)
Definition is_narrow (t : CmapSubtable) : Prop := format t = 4 \/ format t = 6.

(** The keys of a subtable's dictionary are all in the BMP. *)
Definition bmp_only (t : CmapSubtable) : Prop :=
  forall cp, is_Some (cmap t !! cp) -> cp <= 0xFFFF.

(** Range safety of a font: no narrow subtable holds a supplementary
    codepoint. *)
Definition narrow_safe (font : TTFont) : Prop :=
  Forall (fun t => is_narrow t -> bmp_only t) (cmap_tables font).

(** Two subtables with the same identity. *)
Definition same_ids (t t' : CmapSubtable) : Prop :=
  platformID t' = platformID t /\ platEncID t' = platEncID t /\
  format t' = format t /\ language t' = language t.

(** The subtables [update_cmap] writes a codepoint into: the three
    conditions of its loop, for a subtable it does not skip. *)
Definition accepts (t : CmapSubtable) (codepoint : Z) : bool :=
  ((platformID t =? 0) || (platformID t =? 3)) &&
  (((codepoint <=? 0xFFFF) && ((format t =? 4) || (format t =? 6))) ||
   ((format t =? 12) || (format t =? 13)) ||
   ((platformID t =? 0) && ((format t =? 3) || (format t =? 4)) &&
    (codepoint <=? 0xFFFF))).

(** The contract of the transplant for one item, on the fonts alone: the
    glyph is copied; when the copy returns the codepoint is mapped to it;
    when the copy raises the fonts stay as the copy left them. *)
Definition transplant_item (limit : nat) (prefix : string) (st : Fonts)
    (item : Z * string) : Fonts :=
  let dst_glyph_name := glyph_name_for_codepoint item.1 prefix in
  match copy_glyph limit st item.2 dst_glyph_name with
  | (st1, None) => set_dst st1 (update_cmap (dst_font st1) item.1 dst_glyph_name)
  | (st1, Some _) => st1
  end.

(** The fonts as the item at position [k] finds them: the items before it
    have been dealt with, in order. *)
Definition state_before (limit : nat) (prefix : string)
    (items : list (Z * string)) (st : Fonts) (k : nat) : Fonts :=
  fold_left (transplant_item limit prefix) (take k items) st.

(** Whether the copy made for the item at position [k] returns. *)
Definition copy_returns (limit : nat) (prefix : string)
    (items : list (Z * string)) (st : Fonts) (k : nat) : bool :=
  match items !! k with
  | Some (cp, name) =>
      match (copy_glyph limit (state_before limit prefix items st k) name
               (glyph_name_for_codepoint cp prefix)).2 with
      | None => true
      | Some _ => false
      end
  | None => false
  end.

(** The codepoints the transplant loop logged a warning for. *)
Definition failed_codepoints (ws : list Warning) : list Z := warn_cp <$> ws.

(** How the loop over [items] relates a subtable of the base before and
    after: same identity, and a codepoint is remapped to its transplanted
    glyph exactly when it is an item that was not logged and the subtable
    accepts it. *)
Definition remapped (prefix : string) (items : list (Z * string))
    (ws : list Warning) (t t' : CmapSubtable) : Prop :=
  same_ids t t' /\
  forall cp,
    cmap t' !! cp =
    if decide (cp ∈ items.*1 /\ cp ∉ failed_codepoints ws)
    then (if accepts t cp then Some (glyph_name_for_codepoint cp prefix)
          else cmap t !! cp)
    else cmap t !! cp.

(** Scenario fonts.  A base that maps U+4E2D and, in [latin_base], U+0041
    as well; a donor that maps U+0041; a donor whose composite "Aacute"
    names a component, "acutecomb", that its outline table lacks; a donor
    with a supplementary-plane icon. *)
Definition plain_base : TTFont :=
  sample_font [mkSubtable 3 10 12 0 {[ 0x4E2D := "cjk_zhong"%string ]}]
    {[ "cjk_zhong"%string := SimpleGlyph [[(0, 0); (900, 800)]] ]}
    {[ "cjk_zhong"%string := (1000, 50) ]}.

Definition latin_base : TTFont :=
  sample_font
    [mkSubtable 3 10 12 0
       (<[ 0x41 := "A_base"%string ]> {[ 0x4E2D := "cjk_zhong"%string ]})]
    (<[ "A_base"%string := SimpleGlyph [[(0, 0); (400, 700)]] ]>
       {[ "cjk_zhong"%string := SimpleGlyph [[(0, 0); (900, 800)]] ]})
    (<[ "A_base"%string := (500, 20) ]> {[ "cjk_zhong"%string := (1000, 50) ]}).

Definition latin_donor : TTFont :=
  sample_font [mkSubtable 3 10 12 0 {[ 0x41 := "A"%string ]}]
    {[ "A"%string := SimpleGlyph [[(0, 0); (500, 700)]] ]}
    {[ "A"%string := (600, 50) ]}.

Definition broken_donor : TTFont :=
  sample_font [mkSubtable 3 10 12 0 {[ 0xC1 := "Aacute"%string ]}]
    (<[ "Aacute"%string :=
          CompositeGlyph [mkComponent "A" 0 0 0; mkComponent "acutecomb" 120 700 0] ]>
       {[ "A"%string := SimpleGlyph [[(0, 0); (500, 700)]] ]})
    (<[ "Aacute"%string := (600, 50) ]> {[ "A"%string := (600, 50) ]}).

Definition icon_donor : TTFont :=
  sample_font [mkSubtable 3 10 12 0 {[ 0xF0001 := "icon"%string ]}]
    {[ "icon"%string := SimpleGlyph [[(0, 0); (1000, 1000)]] ]}
    {[ "icon"%string := (600, 0) ]}.

(** The component references of a glyph; none for a simple glyph. *)
Definition comps_of (g : Glyph) : list Component :=
  match g with
  | CompositeGlyph cs => cs
  | SimpleGlyph _ => []
  end.

(** A donor glyph as [copy_glyph] inserts it: every component reference
    points at the component's new name, the rest is the donor's. *)
Definition renamed (g : Glyph) : Glyph :=
  match g with
  | CompositeGlyph cs => CompositeGlyph (rename_component <$> cs)
  | SimpleGlyph _ => g
  end.

(** The data model's invariant of horizontal metrics, for the donor: every
    glyph of the outline table has a horizontal metrics entry. *)
Definition has_all_metrics (font : TTFont) : Prop :=
  forall n, is_Some (glyf font !! n) -> is_Some (hmtx font !! n).

(** The components of donor glyph [x] are all in the base under their new
    names. *)
Definition components_present (st : Fonts) (x : string) : Prop :=
  exists g, glyf (src_font st) !! x = Some g /\
            forall c, c ∈ comps_of g ->
                      is_Some (glyf (dst_font st) !! ens_name (glyphName c)).

(** A donor whose composite "colon" names the component "period" twice,
    and a donor whose composite "Aacute" names "A" and "acutecomb"; every
    glyph of either has its horizontal metrics. *)
Definition colon_donor : TTFont :=
  sample_font [mkSubtable 3 10 12 0 {[ 0x3A := "colon"%string ]}]
    (<[ "colon"%string :=
          CompositeGlyph [mkComponent "period" 0 0 0; mkComponent "period" 0 400 0] ]>
       {[ "period"%string := SimpleGlyph [[(0, 0); (100, 100)]] ]})
    (<[ "colon"%string := (600, 200) ]> {[ "period"%string := (600, 200) ]}).

Definition accented_donor : TTFont :=
  sample_font [mkSubtable 3 10 12 0 {[ 0xC1 := "Aacute"%string ]}]
    (<[ "Aacute"%string :=
          CompositeGlyph [mkComponent "A" 0 0 0; mkComponent "acutecomb" 120 700 0] ]>
       (<[ "A"%string := SimpleGlyph [[(0, 0); (500, 700)]] ]>
          {[ "acutecomb"%string := SimpleGlyph [[(0, 0); (200, 150)]] ]}))
    (<[ "Aacute"%string := (600, 50) ]>
       (<[ "A"%string := (600, 50) ]> {[ "acutecomb"%string := (0, 20) ]})).

(** *** Vocabulary of the further properties *)

(** The part of a mapping that a narrow subtable can hold. *)
Definition bmp_part (m : gmap Z string) : gmap Z string :=
  filter (fun kv => kv.1 ≤ 0xFFFF) m.

(** A font whose full-Unicode coverage is outside the Windows platform: no
    Windows-Unicode subtable, some format-12 subtable, no format-4 one. *)
Definition wide_outside_windows (font : TTFont) : Prop :=
  Forall (fun t => ~ wide_windows_unicode t /\ ~ narrow_windows_unicode t)
         (cmap_tables font) /\
  (exists t, t ∈ cmap_tables font /\ format t = 12) /\
  ~ (exists t, t ∈ cmap_tables font /\ format t = 4).

(** A font whose only subtable is a full-Unicode one of the Unicode
    platform, mapping a supplementary codepoint. *)
Definition unicode_only_font : TTFont :=
  sample_font [mkSubtable 0 4 12 0 {[ 0x1F600 := "smile"%string ]}]
    {[ "smile"%string := SimpleGlyph [[(0, 0); (10, 10)]] ]}
    {[ "smile"%string := (600, 0) ]}.

(** Horizontal metrics completeness of the base: every outline has an
    entry. *)
Definition base_metrics_complete (st : Fonts) : Prop :=
  forall n, is_Some (glyf (dst_font st) !! n) -> is_Some (hmtx (dst_font st) !! n).

(** The outline table only gains names, and the horizontal metrics of the
    names that had an outline stay. *)
Definition metrics_kept (st st' : Fonts) : Prop :=
  outlines_grow st st' /\
  forall n, is_Some (glyf (dst_font st) !! n) ->
            hmtx (dst_font st') !! n = hmtx (dst_font st) !! n.

(** A donor whose component references all resolve, and descend along
    [rank]: no glyph is, directly or not, a component of itself. *)
Definition well_founded_donor (donor : TTFont) (rank : string -> nat) : Prop :=
  forall n g c,
    glyf donor !! n = Some g -> c ∈ comps_of g ->
    is_Some (glyf donor !! glyphName c) /\ (rank (glyphName c) < rank n)%nat.

(** A donor whose only glyph is a composite of itself. *)
Definition looping_donor : TTFont :=
  sample_font [mkSubtable 3 10 12 0 {[ 0x41 := "loop"%string ]}]
    {[ "loop"%string := CompositeGlyph [mkComponent "loop" 0 0 0] ]}
    {[ "loop"%string := (600, 0) ]}.

(** The rank of the glyphs of [accented_donor]. *)
Definition accented_rank (n : string) : nat :=
  if decide (n = "Aacute"%string) then 1%nat else 0%nat.

(** A glyph-name prefix that does not start with an underscore, so that no
    generated top-level name is a component's new name. *)
Definition plain_prefix (prefix : string) : Prop :=
  forall p, prefix <> String "_"%char p.

(** The glyph order is only appended to: the names added are distinct,
    were not listed, and have an outline; and every name that gained an
    outline is listed. *)
Definition order_extended (st st' : Fonts) : Prop :=
  dom (glyf (dst_font st)) ⊆ dom (glyf (dst_font st')) /\
  (forall n, glyf (dst_font st) !! n = None ->
             is_Some (glyf (dst_font st') !! n) ->
             n ∈ glyphOrder (dst_font st')) /\
  exists added,
    glyphOrder (dst_font st') = glyphOrder (dst_font st) ++ added /\
    NoDup added /\
    forall n, n ∈ added ->
              (n ∉ glyphOrder (dst_font st)) /\ is_Some (glyf (dst_font st') !! n).

(** What the transplant may not touch: the donor, and the tables of the
    base other than the cmap, the outlines and the horizontal metrics; the
    glyph order is only appended to. *)
Definition same_but_cmap_and_outlines (st st' : Fonts) : Prop :=
  src_font st' = src_font st /\
  vmtx (dst_font st') = vmtx (dst_font st) /\
  order_extended st st' /\
  os2 (dst_font st') = os2 (dst_font st) /\
  hhea (dst_font st') = hhea (dst_font st) /\
  vhea (dst_font st') = vhea (dst_font st) /\
  length (cmap_tables (dst_font st')) = length (cmap_tables (dst_font st)).

(** [w] is the advance width of a printable ASCII codepoint (U+0020 to
    U+007E) that the mapping sends to a glyph with horizontal metrics. *)
Definition ascii_width (font : TTFont) (cmap : gmap Z string) (w : Z) : Prop :=
  exists cp gname lsb,
    0x20 <= cp <= 0x7E /\ cmap !! cp = Some gname /\
    hmtx font !! gname = Some (w, lsb).

(** A base whose ASCII glyphs have two advance widths. *)
Definition uneven_ascii_font : TTFont :=
  sample_font [mkSubtable 3 10 12 0 (<[ 0x41 := "A"%string ]> {[ 0x42 := "B"%string ]})]
    (<[ "A"%string := SimpleGlyph [] ]> {[ "B"%string := SimpleGlyph [] ]})
    (<[ "A"%string := (600, 0) ]> {[ "B"%string := (601, 0) ]}).

(** The name IDs that [set_font_metadata] owns. *)
Definition own_name_ids : list Z := [0; 1; 2; 3; 4; 5; 6; 8; 11; 13; 14; 19].

(** The three records written for one entry, in order. *)
Definition records_of (utf_16_be mac_roman : string -> list Byte.byte)
    (entry : Z * string) : list NameRecord :=
  [ mkNameRecord entry.1 3 1 0x0404 (utf_16_be entry.2);
    mkNameRecord entry.1 3 1 0x0409 (utf_16_be entry.2);
    mkNameRecord entry.1 1 0 19 (mac_roman entry.2) ].

Definition is_alnum (c : ascii) : bool :=
  let n := nat_of_ascii c in
  ((48 <=? n) && (n <=? 57) || (65 <=? n) && (n <=? 90) ||
   (97 <=? n) && (n <=? 122))%nat.

(** Characters allowed in a PostScript name here: A-Z, a-z, 0-9 and "-". *)
Definition postscript_char (c : ascii) : bool := is_alnum c || Ascii.eqb c "-".

Definition postscript_safe (s : string) : Prop :=
  Forall (fun c => postscript_char c = true) (list_ascii_of_string s).

(** A style made of letters, digits and spaces, such as "Bold Italic". *)
Definition style_char (c : ascii) : bool := is_alnum c || Ascii.eqb c " ".

Definition plain_style (s : string) : Prop :=
  Forall (fun c => style_char c = true) (list_ascii_of_string s).

(** A name table with one record the function owns and one it does not. *)
Definition sample_names : list NameRecord :=
  [ mkNameRecord 1 3 1 0x0409 []; mkNameRecord 7 3 1 0x0409 [] ].

(** The UTF-8 bytes of a string, standing in for an encoder. *)
Definition utf_8 (s : string) : list Byte.byte :=
  byte_of_ascii <$> list_ascii_of_string s.

(** The base of the first scenario with its two outlines listed, as a
    font read from a file has them. *)
Definition listed_base : TTFont :=
  setGlyphOrder latin_base ["cjk_zhong"%string; "A_base"%string].

(** Every outline of the font is in its glyph order. *)
Definition outlines_listed (font : TTFont) : Prop :=
  forall n, is_Some (glyf font !! n) -> n ∈ glyphOrder font.

(** * Properties *)

(** ** Hexadecimal formatting reads back *)

Module PyFormatFacts.
Import PyFormat.

Ltac each_digit d :=
  let H := fresh in
  assert (H : d = 0 \/ d = 1 \/ d = 2 \/ d = 3 \/ d = 4 \/ d = 5 \/ d = 6 \/ d = 7 \/
              d = 8 \/ d = 9 \/ d = 10 \/ d = 11 \/ d = 12 \/ d = 13 \/ d = 14 \/
              d = 15) by (unfold is_digit in *; lia);
  repeat (destruct H as [H | H]; [subst d | ]); [.. | subst d].

Lemma digit_val_hex_digit d : is_digit d -> digit_val (hex_digit d) = d.
Proof. intros Hd. each_digit d; reflexivity. Qed.

Lemma hex_digit_not_n d : is_digit d -> hex_digit d <> "n"%char.
Proof. intros Hd. each_digit d; discriminate. Qed.

Lemma value_snoc ds d : value (ds ++ [d]) = 16 * value ds + d.
Proof. unfold value. rewrite fold_left_app. reflexivity. Qed.

Lemma value_zeros k ds : value (replicate k 0 ++ ds) = value ds.
Proof.
  unfold value. rewrite fold_left_app. f_equal.
  induction k as [|k IH]; simpl; [reflexivity | exact IH].
Qed.

Lemma digits_fuel_value fuel : forall n,
  0 <= n < 16 * 16 ^ Z.of_nat fuel -> value (digits_fuel fuel n) = n.
Proof.
  induction fuel as [|fuel IH]; intros n Hn.
  - simpl in *. rewrite Z.mod_small by lia. unfold value; simpl; lia.
  - simpl digits_fuel. destruct (Z.ltb_spec n 16) as [Hlt | Hge].
    + unfold value; simpl; lia.
    + rewrite value_snoc, IH.
      * pose proof (Z.div_mod n 16). lia.
      * rewrite Nat2Z.inj_succ, Z.pow_succ_r in Hn by lia.
        split; [apply Z.div_pos; lia | apply Z.div_lt_upper_bound; lia].
Qed.

Lemma digits_fuel_range fuel : forall n,
  0 <= n -> Forall is_digit (digits_fuel fuel n).
Proof.
  induction fuel as [|fuel IH]; intros n Hn; simpl.
  - constructor; [| constructor]. unfold is_digit. apply Z.mod_pos_bound. lia.
  - destruct (Z.ltb_spec n 16) as [Hlt | Hge].
    + constructor; [| constructor]. unfold is_digit. lia.
    + apply Forall_app. split.
      * apply IH. apply Z.div_pos; lia.
      * constructor; [| constructor]. unfold is_digit. apply Z.mod_pos_bound. lia.
Qed.

Lemma digits_fuel_nonempty fuel n : digits_fuel fuel n <> [].
Proof.
  destruct fuel; simpl; [discriminate |].
  destruct (n <? 16); [discriminate |].
  intros H. apply app_eq_nil in H. destruct H; discriminate.
Qed.

Lemma enough_fuel n : 0 <= n -> n < 16 * 16 ^ Z.of_nat (Z.to_nat (Z.log2 n)).
Proof.
  intros Hn. rewrite Z2Nat.id by apply Z.log2_nonneg.
  destruct (Z.eq_dec n 0) as [-> | Hne]; [simpl; lia |].
  pose proof (Z.log2_spec n ltac:(lia)) as [_ Hup].
  pose proof (Z.log2_nonneg n) as Hl.
  rewrite Z.pow_succ_r in Hup by lia.
  assert (2 ^ Z.log2 n <= 16 ^ Z.log2 n) by (apply Z.pow_le_mono_l; lia).
  assert (0 < 2 ^ Z.log2 n) by (apply Z.pow_pos_nonneg; lia).
  lia.
Qed.

Lemma digits_value n : 0 <= n -> value (digits n) = n.
Proof. intros Hn. apply digits_fuel_value. split; [lia | apply enough_fuel; lia]. Qed.

Lemma zero_pad_range w ds : Forall is_digit ds -> Forall is_digit (zero_pad w ds).
Proof.
  intros H. apply Forall_app. split; [| exact H].
  apply Forall_replicate. unfold is_digit. lia.
Qed.

Lemma zero_pad_nonempty w ds : ds <> [] -> zero_pad w ds <> [].
Proof.
  intros H E. unfold zero_pad in E. apply app_eq_nil in E. tauto.
Qed.

Lemma parse_render ds : Forall is_digit ds -> parse (render ds) = value ds.
Proof.
  intros H. unfold parse, render.
  rewrite list_ascii_of_string_of_list_ascii. f_equal.
  induction H as [|d ds Hd _ IH]; simpl; [reflexivity |].
  rewrite digit_val_hex_digit by exact Hd. f_equal. exact IH.
Qed.

(** A non-negative number is read back from its rendering, at any width. *)
Lemma parse_format_hex w n : 0 <= n -> parse (format_hex w n) = n.
Proof.
  intros Hn. unfold format_hex.
  destruct (Z.ltb_spec n 0) as [? | _]; [lia |].
  rewrite parse_render.
  - unfold zero_pad. rewrite value_zeros. apply digits_value. exact Hn.
  - apply zero_pad_range, digits_fuel_range. exact Hn.
Qed.

(** The rendering of a non-negative number starts with a digit. *)
Lemma format_hex_head w n :
  0 <= n -> exists d s, is_digit d /\ format_hex w n = String (hex_digit d) s.
Proof.
  intros Hn. unfold format_hex.
  destruct (Z.ltb_spec n 0) as [? | _]; [lia |].
  pose proof (zero_pad_range w _ (digits_fuel_range (Z.to_nat (Z.log2 n)) n Hn)) as Hr.
  pose proof (zero_pad_nonempty w _ (digits_fuel_nonempty (Z.to_nat (Z.log2 n)) n)) as Hne.
  fold (digits n) in Hr, Hne.
  destruct (zero_pad w (digits n)) as [|d ds]; [congruence |].
  exists d, (render ds). split; [| reflexivity].
  inversion Hr; assumption.
Qed.
End PyFormatFacts.

Lemma append_cancel_l (p a b : string) : p +:+ a = p +:+ b -> a = b.
Proof.
  induction p as [|c p IH]; simpl; intros H; [exact H |].
  injection H as H. apply IH, H.
Qed.

(** C10: for a fixed prefix, two codepoints that are not negative (so any two
    in [0, 0x10FFFF]) and get the same glyph name are the same codepoint: a
    name [prefix+"uni"+hex4] never equals a name [prefix+"u"+hex6], and
    within either form the hexadecimal digits determine the codepoint. *)
Theorem glyph_name_for_codepoint_inj (prefix : string) (cp1 cp2 : Z) :
  0 <= cp1 <= 0x10FFFF -> 0 <= cp2 <= 0x10FFFF ->
  glyph_name_for_codepoint cp1 prefix = glyph_name_for_codepoint cp2 prefix ->
  cp1 = cp2.
Proof.
  intros H1 H2. unfold glyph_name_for_codepoint.
  destruct (cp1 <=? 0xFFFF), (cp2 <=? 0xFFFF); intros E;
    apply append_cancel_l in E.
  - change (String "u" (String "n" (String "i" (PyFormat.format_hex 4 cp1))) =
            String "u" (String "n" (String "i" (PyFormat.format_hex 4 cp2)))) in E.
    injection E as E.
    rewrite <- (PyFormatFacts.parse_format_hex 4 cp1), E by lia.
    apply PyFormatFacts.parse_format_hex. lia.
  - exfalso.
    change (String "u" (String "n" (String "i" (PyFormat.format_hex 4 cp1))) =
            String "u" (PyFormat.format_hex 6 cp2)) in E.
    injection E as E.
    destruct (PyFormatFacts.format_hex_head 6 cp2 ltac:(lia)) as (d & s & Hd & Hs).
    rewrite Hs in E. injection E as E _.
    apply (PyFormatFacts.hex_digit_not_n d Hd). congruence.
  - exfalso.
    change (String "u" (PyFormat.format_hex 6 cp1) =
            String "u" (String "n" (String "i" (PyFormat.format_hex 4 cp2)))) in E.
    injection E as E.
    destruct (PyFormatFacts.format_hex_head 6 cp1 ltac:(lia)) as (d & s & Hd & Hs).
    rewrite Hs in E. injection E as E _.
    apply (PyFormatFacts.hex_digit_not_n d Hd). congruence.
  - change (String "u" (PyFormat.format_hex 6 cp1) =
            String "u" (PyFormat.format_hex 6 cp2)) in E.
    injection E as E.
    rewrite <- (PyFormatFacts.parse_format_hex 6 cp1), E by lia.
    apply PyFormatFacts.parse_format_hex. lia.
Qed.

Example name_bmp : glyph_name_for_codepoint 0x41 "mes_" = "mes_uni0041"%string.
Proof. reflexivity. Qed.

Example name_pua : glyph_name_for_codepoint 0xE0A0 "mes_" = "mes_uniE0A0"%string.
Proof. reflexivity. Qed.

Example name_supplementary :
  glyph_name_for_codepoint 0xF0001 "mes_" = "mes_u0F0001"%string.
Proof. reflexivity. Qed.

Lemma glyph_name_for_codepoint_inj_witness :
  0 <= 0xE0A0 <= 0x10FFFF /\ 0xE0A0 = 0xE0A0.
Proof.
  split; [lia |].
  apply (glyph_name_for_codepoint_inj "mes_" 0xE0A0 0xE0A0); [lia | lia | reflexivity].
Defined.

(** ** The Cmap Resolver *)

Lemma find_first_matching (P : CmapSubtable -> Prop) p ts t :
  (forall u, p u = true <-> P u) ->
  find p ts = Some t <-> first_matching P ts t.
Proof.
  intros Hp.
  assert (Hn : forall u, p u = false -> ~ P u).
  { intros u Hu HP. apply Hp in HP. congruence. }
  induction ts as [|u ts IH]; simpl.
  - split; [discriminate |].
    intros (before & after & E & _). destruct before; discriminate.
  - destruct (p u) eqn:Hu.
    + split.
      * intros [= ->]. exists [], ts.
        split; [reflexivity |]. split; [apply Hp, Hu | constructor].
      * intros (before & after & E & Ht & Hb). destruct before as [|b before].
        -- injection E as -> _. reflexivity.
        -- injection E as <- _. inversion Hb; subst. exfalso. apply Hp in Hu. auto.
    + rewrite IH. split.
      * intros (before & after & -> & Ht & Hb).
        exists (u :: before), after.
        split; [reflexivity |]. split; [exact Ht |]. constructor; [apply Hn, Hu | exact Hb].
      * intros (before & after & E & Ht & Hb). destruct before as [|b before].
        -- injection E as -> _. exfalso. exact (Hn _ Hu Ht).
        -- injection E as -> ->. exists before, after.
           split; [reflexivity |]. split; [exact Ht | inversion Hb; assumption].
Qed.

Lemma find_none_spec (P : CmapSubtable -> Prop) p (ts : list CmapSubtable) :
  (forall u, p u = true <-> P u) ->
  find p ts = None <-> Forall (fun u => ~ P u) ts.
Proof.
  intros Hp. induction ts as [|u ts IH]; simpl.
  - split; [constructor | reflexivity].
  - destruct (p u) eqn:Hu.
    + split; [discriminate |]. intros H. inversion H; subst.
      exfalso. apply Hp in Hu. auto.
    + rewrite IH. split.
      * intros H. constructor; [| exact H]. intros HP. apply Hp in HP. congruence.
      * intros H. inversion H; assumption.
Qed.

(** The tests of the code against the kinds of the contract. *)
Lemma is_win_full_spec t : is_win_full t = true <-> wide_windows_unicode t.
Proof.
  unfold is_win_full, wide_windows_unicode.
  rewrite andb_true_iff, !Z.eqb_eq. reflexivity.
Qed.

Lemma is_win_bmp_spec t : is_win_bmp t = true <-> narrow_windows_unicode t.
Proof.
  unfold is_win_bmp, narrow_windows_unicode.
  rewrite andb_true_iff, !Z.eqb_eq. reflexivity.
Qed.

Lemma is_unicode_platform_spec t :
  is_unicode_platform t = true <-> generic_unicode t.
Proof. unfold is_unicode_platform, generic_unicode. apply Z.eqb_eq. Qed.

Lemma find_wide ts t :
  find is_win_full ts = Some t <-> first_matching wide_windows_unicode ts t.
Proof. apply find_first_matching, is_win_full_spec. Qed.

Lemma find_narrow ts t :
  find is_win_bmp ts = Some t <-> first_matching narrow_windows_unicode ts t.
Proof. apply find_first_matching, is_win_bmp_spec. Qed.

Lemma find_generic ts t :
  find is_unicode_platform ts = Some t <-> first_matching generic_unicode ts t.
Proof. apply find_first_matching, is_unicode_platform_spec. Qed.

Lemma find_wide_none ts :
  find is_win_full ts = None <-> Forall (fun u => ~ wide_windows_unicode u) ts.
Proof. apply find_none_spec, is_win_full_spec. Qed.

Lemma find_narrow_none ts :
  find is_win_bmp ts = None <-> Forall (fun u => ~ narrow_windows_unicode u) ts.
Proof. apply find_none_spec, is_win_bmp_spec. Qed.

Lemma find_generic_none ts :
  find is_unicode_platform ts = None <-> Forall (fun u => ~ generic_unicode u) ts.
Proof. apply find_none_spec, is_unicode_platform_spec. Qed.

Lemma find_none_forall p (ts : list CmapSubtable) :
  find p ts = None <-> Forall (fun u => p u = false) ts.
Proof.
  induction ts as [|u ts IH]; simpl.
  - split; [constructor | reflexivity].
  - destruct (p u) eqn:Hu.
    + split; [discriminate |]. intros H. inversion H; congruence.
    + rewrite IH. split; [constructor; assumption | intros H; inversion H; assumption].
Qed.

(** C6: [get_best_cmap] returns the mapping of the subtable the priority
    rule selects (first wide Windows-Unicode subtable, else first narrow
    Windows-Unicode subtable, else first subtable of the Unicode platform),
    it returns a mapping whenever the rule selects a subtable, and it raises
    [ValueError], its only error, exactly when no subtable matches a rule. *)
Theorem get_best_cmap_priority (font : TTFont) :
  (forall t, best_subtable (cmap_tables font) t ->
             get_best_cmap font = inr (cmap t)) /\
  (forall m, get_best_cmap font = inr m ->
             exists t, best_subtable (cmap_tables font) t /\ m = cmap t) /\
  (forall e, get_best_cmap font = inl e -> e = ValueError) /\
  (get_best_cmap font = inl ValueError <-> no_usable_subtable (cmap_tables font)).
Proof.
  unfold get_best_cmap.
  destruct (find is_win_full (cmap_tables font)) as [t1|] eqn:F1.
  { apply find_wide in F1 as M1. split; [| split; [| split; [| split]]].
    - intros t [M | N _ | N _ _].
      + apply find_wide in M. congruence.
      + apply find_wide_none in N. congruence.
      + apply find_wide_none in N. congruence.
    - intros m [= <-]. exists t1. split; [apply best_wide; exact M1 | reflexivity].
    - discriminate.
    - discriminate.
    - intros H. exfalso. destruct M1 as (b & a & E & Ht & _).
      unfold no_usable_subtable in H. rewrite E in H.
      apply Forall_app in H as [_ H]. inversion H; subst. tauto. }
  apply find_wide_none in F1 as N1.
  destruct (find is_win_bmp (cmap_tables font)) as [t2|] eqn:F2.
  { apply find_narrow in F2 as M2. split; [| split; [| split; [| split]]].
    - intros t [M | _ M | _ N _].
      + apply find_wide in M. congruence.
      + apply find_narrow in M. congruence.
      + apply find_narrow_none in N. congruence.
    - intros m [= <-]. exists t2. split; [apply best_narrow; assumption | reflexivity].
    - discriminate.
    - discriminate.
    - intros H. exfalso. destruct M2 as (b & a & E & Ht & _).
      unfold no_usable_subtable in H. rewrite E in H.
      apply Forall_app in H as [_ H]. inversion H; subst. tauto. }
  apply find_narrow_none in F2 as N2.
  destruct (find is_unicode_platform (cmap_tables font)) as [t3|] eqn:F3.
  { apply find_generic in F3 as M3. split; [| split; [| split; [| split]]].
    - intros t [M | _ M | _ _ M].
      + apply find_wide in M. congruence.
      + apply find_narrow in M. congruence.
      + apply find_generic in M. congruence.
    - intros m [= <-]. exists t3. split; [apply best_unicode; assumption | reflexivity].
    - discriminate.
    - discriminate.
    - intros H. exfalso. destruct M3 as (b & a & E & Ht & _).
      unfold no_usable_subtable in H. rewrite E in H.
      apply Forall_app in H as [_ H]. inversion H; subst. tauto. }
  apply find_generic_none in F3 as N3. split; [| split; [| split; [| split]]].
  - intros t [M | _ M | _ _ M].
    + apply find_wide in M. congruence.
    + apply find_narrow in M. congruence.
    + apply find_generic in M. congruence.
  - discriminate.
  - intros e [= <-]. reflexivity.
  - intros _. unfold no_usable_subtable.
    rewrite Forall_forall in *. intros u Hu. split; [| split]; auto.
  - intros _. reflexivity.
Qed.

Example get_best_cmap_narrow_only :
  get_best_cmap (sample_font [mkSubtable 1 0 6 0 {[ 0x41 := "mac"%string ]};
                              mkSubtable 3 1 4 0 {[ 0x41 := "win"%string ]}] ∅ ∅) =
  inr {[ 0x41 := "win"%string ]}.
Proof. reflexivity. Qed.

Example get_best_cmap_wide_first :
  get_best_cmap (sample_font [mkSubtable 0 3 4 0 {[ 0x41 := "uni"%string ]};
                              mkSubtable 3 1 4 0 {[ 0x41 := "bmp"%string ]};
                              mkSubtable 3 10 12 0 {[ 0x41 := "full"%string ]}] ∅ ∅) =
  inr {[ 0x41 := "full"%string ]}.
Proof. reflexivity. Qed.

Example get_best_cmap_mac_only :
  get_best_cmap (sample_font [mkSubtable 1 0 6 0 {[ 0x41 := "mac"%string ]}] ∅ ∅) =
  inl ValueError.
Proof. reflexivity. Qed.

(** ** The Metrics Synchronizer *)

(** C2, as the claim states it, fails: with a donor whose own metrics
    disagree, the base's metrics disagree after [set_os2_metrics]. *)
Lemma set_os2_metrics_not_always_consistent :
  ~ (forall font meslo_ref, metrics_consistent (set_os2_metrics font meslo_ref)).
Proof.
  intros H. specialize (H (sample_font [] ∅ ∅) uneven_donor).
  destruct H as [H _]. vm_compute in H. discriminate.
Qed.

(** C2, amended: after [set_os2_metrics] each of the six metrics of the
    base equals the donor's field of the same name, so the base satisfies
    the consistency relations exactly when the donor does. *)
Theorem set_os2_metrics_copies_reference (font meslo_ref : TTFont) :
  let font' := set_os2_metrics font meslo_ref in
  (ascent (hhea font') = ascent (hhea meslo_ref) /\
   descent (hhea font') = descent (hhea meslo_ref) /\
   usWinAscent (os2 font') = usWinAscent (os2 meslo_ref) /\
   usWinDescent (os2 font') = usWinDescent (os2 meslo_ref) /\
   sTypoAscender (os2 font') = sTypoAscender (os2 meslo_ref) /\
   sTypoDescender (os2 font') = sTypoDescender (os2 meslo_ref)) /\
  (metrics_consistent font' <-> metrics_consistent meslo_ref).
Proof.
  simpl. split.
  - repeat split.
  - unfold metrics_consistent, set_os2_metrics. simpl. tauto.
Qed.

(** ** The Glyph Order Reconciler *)

Section FixGlyphOrderFacts.
Variable set_iter : gset string -> list string.
Hypothesis set_iter_perm : forall s, set_iter s ≡ₚ elements s.

Lemma set_iter_elem (s : gset string) g : g ∈ set_iter s <-> g ∈ s.
Proof. rewrite set_iter_perm. apply elem_of_elements. Qed.

Lemma set_iter_NoDup (s : gset string) : NoDup (set_iter s).
Proof. rewrite set_iter_perm. apply NoDup_elements. Qed.

(** The names [fix_glyph_order] appends. *)
Lemma fix_glyph_order_split font :
  glyphOrder (fix_glyph_order set_iter font) =
  glyphOrder font ++
  filter (fun g => g ∉ (list_to_set (glyphOrder font) : gset string))
         (set_iter (dom (glyf font))).
Proof.
  unfold fix_glyph_order.
  destruct (filter _ (set_iter (dom (glyf font)))) as [|g gs]; simpl.
  - rewrite app_nil_r. reflexivity.
  - reflexivity.
Qed.

Lemma occurrences_NoDup (l : list string) g :
  NoDup l -> occurrences l g = if decide (g ∈ l) then 1%nat else 0%nat.
Proof.
  intros Hnd. unfold occurrences. destruct (decide (g ∈ l)) as [Hin | Hout].
  - apply NoDup_count_occ'; [apply NoDup_ListNoDup; exact Hnd | apply list_elem_of_In; exact Hin].
  - apply count_occ_not_In. rewrite <- list_elem_of_In. exact Hout.
Qed.

(** C8: the new glyph order is the previous one followed by the names of
    the outline table that the previous one lacks, each once; so a name is
    listed as often as before, plus once if it is such a new name, every
    outline name is listed, and when the previous order listed no name
    twice (glyph names identify glyphs in a container) every outline name
    is listed exactly once.  Nothing but the glyph order changes. *)
Theorem fix_glyph_order_append_only (font : TTFont) :
  let font' := fix_glyph_order set_iter font in
  exists new_glyphs,
    glyphOrder font' = glyphOrder font ++ new_glyphs /\
    NoDup new_glyphs /\
    (forall g, g ∈ new_glyphs <-> g ∈ dom (glyf font) /\ g ∉ glyphOrder font) /\
    (forall g, occurrences (glyphOrder font') g =
               (occurrences (glyphOrder font) g +
                if decide (g ∈ dom (glyf font) /\ g ∉ glyphOrder font) then 1 else 0)%nat) /\
    (forall g, g ∈ dom (glyf font) -> g ∈ glyphOrder font') /\
    (NoDup (glyphOrder font) ->
     NoDup (glyphOrder font') /\
     forall g, g ∈ dom (glyf font) -> occurrences (glyphOrder font') g = 1%nat) /\
    font' = setGlyphOrder font (glyphOrder font').
Proof.
  intros font'. subst font'.
  set (new_glyphs := filter (fun g => g ∉ (list_to_set (glyphOrder font) : gset string))
                            (set_iter (dom (glyf font)))).
  assert (Hmem : forall g, g ∈ new_glyphs <-> g ∈ dom (glyf font) /\ g ∉ glyphOrder font).
  { intros g. unfold new_glyphs. rewrite list_elem_of_filter, set_iter_elem.
    rewrite elem_of_list_to_set. tauto. }
  assert (Hnd : NoDup new_glyphs) by (apply NoDup_filter, set_iter_NoDup).
  assert (Hocc : forall g, occurrences (glyphOrder (fix_glyph_order set_iter font)) g =
               (occurrences (glyphOrder font) g +
                if decide (g ∈ dom (glyf font) /\ g ∉ glyphOrder font) then 1 else 0)%nat).
  { intros g. rewrite fix_glyph_order_split. fold new_glyphs.
    unfold occurrences at 1. rewrite count_occ_app. fold (occurrences (glyphOrder font) g).
    fold (occurrences new_glyphs g). rewrite (occurrences_NoDup _ _ Hnd).
    destruct (decide (g ∈ new_glyphs)) as [Hin | Hout];
      destruct (decide (g ∈ dom (glyf font) /\ g ∉ glyphOrder font)) as [Hd | Hd];
      try reflexivity; exfalso; rewrite Hmem in *; tauto. }
  assert (Hall : forall g, g ∈ dom (glyf font) ->
                           g ∈ glyphOrder (fix_glyph_order set_iter font)).
  { intros g Hg. rewrite fix_glyph_order_split. fold new_glyphs.
    apply elem_of_app. destruct (decide (g ∈ glyphOrder font)); [left; assumption |].
    right. apply Hmem. split; assumption. }
  exists new_glyphs. split; [apply fix_glyph_order_split |].
  split; [exact Hnd |]. split; [exact Hmem |]. split; [exact Hocc |].
  split; [exact Hall |]. split.
  - intros Hold.
    assert (Hnew : NoDup (glyphOrder (fix_glyph_order set_iter font))).
    { rewrite fix_glyph_order_split. fold new_glyphs. apply NoDup_app.
      split; [exact Hold |]. split; [| exact Hnd].
      intros g Hg Hg'. apply Hmem in Hg'. tauto. }
    split; [exact Hnew |]. intros g Hg.
    rewrite (occurrences_NoDup _ _ Hnew).
    destruct (decide (g ∈ glyphOrder (fix_glyph_order set_iter font))); [reflexivity |].
    exfalso. auto.
  - unfold fix_glyph_order. fold new_glyphs.
    destruct new_glyphs; [destruct font |]; reflexivity.
Qed.
End FixGlyphOrderFacts.

Lemma fix_glyph_order_append_only_witness :
  NoDup (glyphOrder one_glyph_font) /\
  occurrences (glyphOrder (fix_glyph_order elements one_glyph_font)) "a" = 1%nat.
Proof.
  assert (Hnd : NoDup (glyphOrder one_glyph_font)) by apply NoDup_singleton.
  split; [exact Hnd |].
  destruct (fix_glyph_order_append_only elements (fun s => reflexivity (elements s))
              one_glyph_font) as (new_glyphs & _ & _ & _ & _ & _ & Hone & _).
  apply (Hone Hnd). unfold one_glyph_font. cbn [glyf].
  rewrite dom_singleton_L. apply elem_of_singleton. reflexivity.
Defined.

(** ** The Vertical Metrics Rebuilder *)

Section RebuildVmtxFacts.
Variable recalc_yMax : gmap string Glyph -> Glyph -> option Z.

Ltac mem_cons :=
  repeat match goal with
         | H : _ ∈ _ :: _ |- _ => apply elem_of_cons in H
         | H : _ ∉ _ :: _ |- _ => apply not_elem_of_cons in H
         end;
  tauto.

(** The dictionary the loop leaves: old entries stay, and each listed name
    without one gets the synthesized entry. *)
Lemma vmtx_loop_lookup font (order : list string) :
  forall (existing : gmap string (Z * Z)) (rebuilt : nat) (name : string),
    (fold_left (vmtx_step recalc_yMax font) order (existing, rebuilt)).1 !! name =
    match existing !! name with
    | Some m => Some m
    | None =>
        if decide (name ∈ order)
        then Some (advanceHeightMax (vhea font), synth_tsb recalc_yMax font name)
        else None
    end.
Proof.
  induction order as [|n order IH]; intros existing rebuilt name; simpl.
  - destruct (existing !! name); [reflexivity |].
    destruct (decide (name ∈ [])) as [H | _]; [inversion H | reflexivity].
  - destruct (existing !! n) as [m|] eqn:En.
    + rewrite IH. destruct (existing !! name) as [m'|] eqn:E; [reflexivity |].
      assert (name <> n) by congruence.
      destruct (decide (name ∈ order)), (decide (name ∈ n :: order));
        try reflexivity; exfalso; mem_cons.
    + rewrite IH. destruct (decide (name = n)) as [-> | Hne].
      * rewrite lookup_insert_eq, En.
        destruct (decide (n ∈ n :: order)); [reflexivity | exfalso; mem_cons].
      * rewrite lookup_insert_ne by congruence.
        destruct (existing !! name); [reflexivity |].
        destruct (decide (name ∈ order)), (decide (name ∈ n :: order));
          try reflexivity; exfalso; mem_cons.
Qed.

Lemma rebuild_vmtx_lookup font name :
  vmtx (rebuild_vmtx recalc_yMax font) !! name =
  match vmtx font !! name with
  | Some m => Some m
  | None =>
      if decide (name ∈ glyphOrder font)
      then Some (advanceHeightMax (vhea font), synth_tsb recalc_yMax font name)
      else None
  end.
Proof.
  rewrite <- (vmtx_loop_lookup font (glyphOrder font) (vmtx font) O name).
  unfold rebuild_vmtx.
  destruct (fold_left _ (glyphOrder font) (vmtx font, O)) as [existing n].
  reflexivity.
Qed.

Lemma synth_tsb_outline font name yMax :
  has_outline_extent recalc_yMax font name yMax ->
  synth_tsb recalc_yMax font name = vhea_ascent (vhea font) - yMax.
Proof.
  intros (g & Hg & Hn & Hy). unfold synth_tsb. rewrite Hg, Hy.
  destruct (Z.eqb_spec (numberOfContours g) 0); [contradiction | reflexivity].
Qed.

Lemma synth_tsb_no_outline font name :
  (forall yMax, ~ has_outline_extent recalc_yMax font name yMax) ->
  synth_tsb recalc_yMax font name = 0.
Proof.
  intros H. unfold synth_tsb.
  destruct (glyf font !! name) as [g|] eqn:Hg; [| reflexivity].
  destruct (Z.eqb_spec (numberOfContours g) 0) as [| Hn]; [reflexivity |].
  destruct (recalc_yMax (glyf font) g) as [y|] eqn:Hy; [| reflexivity].
  exfalso. apply (H y). exists g. auto.
Qed.

(** C9: after [rebuild_vmtx] every name of the glyph order has a vertical
    metrics entry (one, the table being a dictionary); an entry that
    existed is unchanged; the entry synthesized for a listed name without
    one has the container's maximum vertical advance as advance height and,
    as top side bearing, the vertical ascent minus the largest y of a glyph
    with outlines and 0 for any other glyph; a name that is not listed gets
    no entry; and [numberOfVMetrics] is the length of the glyph order. *)
Theorem rebuild_vmtx_complete (font : TTFont) :
  let font' := rebuild_vmtx recalc_yMax font in
  (forall name, name ∈ glyphOrder font' -> is_Some (vmtx font' !! name)) /\
  (forall name m, vmtx font !! name = Some m -> vmtx font' !! name = Some m) /\
  (forall name, name ∈ glyphOrder font -> vmtx font !! name = None ->
     (forall yMax, has_outline_extent recalc_yMax font name yMax ->
        vmtx font' !! name =
        Some (advanceHeightMax (vhea font), vhea_ascent (vhea font) - yMax)) /\
     ((forall yMax, ~ has_outline_extent recalc_yMax font name yMax) ->
        vmtx font' !! name = Some (advanceHeightMax (vhea font), 0))) /\
  (forall name, name ∉ glyphOrder font -> vmtx font' !! name = vmtx font !! name) /\
  numberOfVMetrics (vhea font') = Z.of_nat (length (glyphOrder font')) /\
  glyphOrder font' = glyphOrder font /\
  glyf font' = glyf font /\
  vhea_ascent (vhea font') = vhea_ascent (vhea font) /\
  advanceHeightMax (vhea font') = advanceHeightMax (vhea font).
Proof.
  intros font'.
  assert (Ho : glyphOrder font' = glyphOrder font).
  { unfold font', rebuild_vmtx.
    destruct (fold_left _ (glyphOrder font) (vmtx font, O)). reflexivity. }
  assert (Hv : vhea font' = mkVhea (vhea_ascent (vhea font)) (advanceHeightMax (vhea font))
                                  (Z.of_nat (length (glyphOrder font)))).
  { unfold font', rebuild_vmtx.
    destruct (fold_left _ (glyphOrder font) (vmtx font, O)). reflexivity. }
  assert (Hg : glyf font' = glyf font).
  { unfold font', rebuild_vmtx.
    destruct (fold_left _ (glyphOrder font) (vmtx font, O)). reflexivity. }
  split.
  { intros name Hin. rewrite Ho in Hin. unfold font'. rewrite rebuild_vmtx_lookup.
    destruct (vmtx font !! name); [eauto |].
    destruct (decide (name ∈ glyphOrder font)); [eauto | contradiction]. }
  split.
  { intros name m Hm. unfold font'. rewrite rebuild_vmtx_lookup, Hm. reflexivity. }
  split.
  { intros name Hin Hnone. split.
    - intros yMax Hy. unfold font'. rewrite rebuild_vmtx_lookup, Hnone.
      destruct (decide (name ∈ glyphOrder font)); [| contradiction].
      rewrite (synth_tsb_outline _ _ _ Hy). reflexivity.
    - intros Hy. unfold font'. rewrite rebuild_vmtx_lookup, Hnone.
      destruct (decide (name ∈ glyphOrder font)); [| contradiction].
      rewrite (synth_tsb_no_outline _ _ Hy). reflexivity. }
  split.
  { intros name Hout. unfold font'. rewrite rebuild_vmtx_lookup.
    destruct (vmtx font !! name); [reflexivity |].
    destruct (decide (name ∈ glyphOrder font)); [contradiction | reflexivity]. }
  rewrite Hv, Ho. repeat split; assumption.
Qed.
End RebuildVmtxFacts.

(** ** The recursive glyph copy: frame and growth *)

#[local] Instance same_but_outlines_preorder : PreOrder same_but_outlines.
Proof.
  split.
  - intros st. unfold same_but_outlines.
    split; [reflexivity |]. split; [reflexivity |]. split; [reflexivity |].
    split; [reflexivity |]. tauto.
  - intros a b c Hab Hbc. unfold same_but_outlines in *.
    destruct Hab as (? & ? & ? & Ho1 & ? & ? & ?), Hbc as (? & ? & ? & Ho2 & ? & ? & ?).
    split; [congruence |]. split; [congruence |]. split; [congruence |].
    split; [exact (transitivity Ho1 Ho2) |].
    split; [congruence |]. split; congruence.
Qed.

#[local] Instance outlines_grow_preorder : PreOrder outlines_grow.
Proof.
  split.
  - intros st. unfold outlines_grow. set_solver.
  - intros a b c. unfold outlines_grow. set_solver.
Qed.

#[local] Instance outlines_kept_preorder : PreOrder outlines_kept.
Proof.
  split.
  - intros st. unfold outlines_kept. reflexivity.
  - intros a b c. unfold outlines_kept. apply transitivity.
Qed.

(** A relation that every recursive call respects is respected by the loop
    over the components. *)
Lemma copy_components_preorder (P : relation Fonts) `{!PreOrder P}
    (copy_rec : Fonts -> string -> string -> Fonts * option Exn) :
  (forall st s d, P st (copy_rec st s d).1) ->
  forall comps st, P st (copy_components copy_rec comps st).1.
Proof.
  intros Hrec. induction comps as [|c comps IH]; intros st; simpl.
  - reflexivity.
  - pose proof (Hrec st (glyphName c) (ens_name (glyphName c))) as H1.
    destruct (copy_rec st (glyphName c) (ens_name (glyphName c))) as [st1 [e|]];
      simpl in *; [exact H1 |].
    pose proof (IH st1) as H2.
    destruct (copy_components copy_rec comps st1) as [st2 [e|comps']]; simpl in *;
      etransitivity; eassumption.
Qed.

Lemma glyf_setitem_fields font name g :
  cmap_tables (glyf_setitem font name g) = cmap_tables font /\
  glyf (glyf_setitem font name g) = <[name := g]> (glyf font) /\
  hmtx (glyf_setitem font name g) = hmtx font /\
  vmtx (glyf_setitem font name g) = vmtx font /\
  os2 (glyf_setitem font name g) = os2 font /\
  hhea (glyf_setitem font name g) = hhea font /\
  vhea (glyf_setitem font name g) = vhea font /\
  glyphOrder (glyf_setitem font name g) =
    if decide (name ∈ glyphOrder font) then glyphOrder font
    else glyphOrder font ++ [name].
Proof.
  unfold glyf_setitem. cbn [glyphOrder set_glyf].
  destruct (decide (name ∈ glyphOrder font)); cbn; tauto.
Qed.

Lemma glyf_setitem_order font name g :
  glyphOrder font `prefix_of` glyphOrder (glyf_setitem font name g).
Proof.
  destruct (glyf_setitem_fields font name g) as (_ & _ & _ & _ & _ & _ & _ & ->).
  destruct (decide (name ∈ glyphOrder font)); [reflexivity |].
  apply prefix_app_r. reflexivity.
Qed.

Lemma store_glyph_dst st s d g :
  src_font (store_glyph st s d g).1 = src_font st /\
  cmap_tables (dst_font (store_glyph st s d g).1) = cmap_tables (dst_font st) /\
  glyf (dst_font (store_glyph st s d g).1) = <[d := g]> (glyf (dst_font st)) /\
  vmtx (dst_font (store_glyph st s d g).1) = vmtx (dst_font st) /\
  os2 (dst_font (store_glyph st s d g).1) = os2 (dst_font st) /\
  hhea (dst_font (store_glyph st s d g).1) = hhea (dst_font st) /\
  vhea (dst_font (store_glyph st s d g).1) = vhea (dst_font st) /\
  glyphOrder (dst_font (store_glyph st s d g).1) =
    glyphOrder (glyf_setitem (dst_font st) d g).
Proof.
  destruct (glyf_setitem_fields (dst_font st) d g) as (Hc & Hg & Hh & Hv & Ho & Hhh & Hvh & _).
  unfold store_glyph. cbn [src_font dst_font set_dst].
  destruct (hmtx (src_font st) !! s);
    cbn [fst src_font dst_font set_dst set_hmtx cmap_tables glyf vmtx os2 hhea vhea glyphOrder];
    tauto.
Qed.

Lemma store_glyph_frame st s d g : same_but_outlines st (store_glyph st s d g).1.
Proof.
  destruct (store_glyph_dst st s d g) as (Hs & Hc & _ & Hv & Ho & Hh & Hvh & Hgo).
  unfold same_but_outlines. rewrite Hgo.
  split; [exact Hs |]. split; [exact Hc |]. split; [exact Hv |].
  split; [apply glyf_setitem_order |]. tauto.
Qed.

Lemma store_glyph_glyf st s d g :
  glyf (dst_font (store_glyph st s d g).1) = <[d := g]> (glyf (dst_font st)).
Proof. apply store_glyph_dst. Qed.

Lemma store_glyph_grow st s d g : outlines_grow st (store_glyph st s d g).1.
Proof.
  unfold outlines_grow. rewrite store_glyph_glyf, dom_insert. set_solver.
Qed.

Lemma copy_composite_eq copy_rec comps st :
  copy_composite copy_rec (CompositeGlyph comps) st =
  match copy_components copy_rec comps st with
  | (st1, inl e) => (st1, inl e)
  | (st1, inr comps') => (st1, inr (CompositeGlyph comps'))
  end.
Proof. destruct comps; reflexivity. Qed.

Lemma copy_composite_preorder (P : relation Fonts) `{!PreOrder P}
    (copy_rec : Fonts -> string -> string -> Fonts * option Exn) :
  (forall st s d, P st (copy_rec st s d).1) ->
  forall g st, P st (copy_composite copy_rec g st).1.
Proof.
  intros Hrec [cs | comps] st; [reflexivity |].
  rewrite copy_composite_eq.
  pose proof (copy_components_preorder P copy_rec Hrec comps st) as H.
  destruct (copy_components copy_rec comps st) as [st1 [e|comps']]; exact H.
Qed.

Lemma copy_glyph_S depth st s d :
  copy_glyph (S depth) st s d =
  match glyf (dst_font st) !! d with
  | Some _ => (st, None)
  | None =>
      match glyf (src_font st) !! s with
      | None => (st, Some (KeyError s))
      | Some src_glyph =>
          match copy_composite (copy_glyph depth) src_glyph st with
          | (st1, inl e) => (st1, Some e)
          | (st1, inr src_glyph') => store_glyph st1 s d src_glyph'
          end
      end
  end.
Proof. reflexivity. Qed.

(** A relation that the final writes respect, whatever is written where, is
    respected by [copy_glyph]. *)
Lemma copy_glyph_preorder (P : relation Fonts) `{!PreOrder P} :
  (forall st s d g, P st (store_glyph st s d g).1) ->
  forall depth st s d, P st (copy_glyph depth st s d).1.
Proof.
  intros Hstore. induction depth as [|depth IH]; intros st s d.
  - reflexivity.
  - rewrite copy_glyph_S.
    destruct (glyf (dst_font st) !! d); [reflexivity |].
    destruct (glyf (src_font st) !! s) as [g|]; [| reflexivity].
    pose proof (copy_composite_preorder P (copy_glyph depth) IH g st) as H1.
    destruct (copy_composite (copy_glyph depth) g st) as [st1 [e|g']];
      simpl in *; [exact H1 |].
    etransitivity; [exact H1 | apply Hstore].
Qed.

Lemma copy_glyph_frame depth st s d :
  same_but_outlines st (copy_glyph depth st s d).1.
Proof. apply copy_glyph_preorder; [apply _ | apply store_glyph_frame]. Qed.

Lemma copy_glyph_grow depth st s d :
  outlines_grow st (copy_glyph depth st s d).1.
Proof. apply copy_glyph_preorder; [apply _ | apply store_glyph_grow]. Qed.

(** No outline present when [copy_glyph] is called is lost or replaced. *)
Lemma copy_glyph_kept depth : forall st s d,
  outlines_kept st (copy_glyph depth st s d).1.
Proof.
  induction depth as [|depth IH]; intros st s d.
  - reflexivity.
  - rewrite copy_glyph_S.
    destruct (glyf (dst_font st) !! d) eqn:Hd; [reflexivity |].
    destruct (glyf (src_font st) !! s) as [g|]; [| reflexivity].
    pose proof (copy_composite_preorder outlines_kept (copy_glyph depth) IH g st) as H1.
    destruct (copy_composite (copy_glyph depth) g st) as [st1 [e|g']];
      simpl in *; [exact H1 |].
    unfold outlines_kept in *. rewrite store_glyph_glyf.
    apply map_subseteq_spec. intros n gn Hn.
    rewrite lookup_insert_ne by congruence.
    eapply lookup_weaken; eassumption.
Qed.

Lemma copy_glyph_ok_present depth st s d st' :
  copy_glyph depth st s d = (st', None) -> is_Some (glyf (dst_font st') !! d).
Proof.
  destruct depth as [|depth]; [discriminate |].
  rewrite copy_glyph_S.
  destruct (glyf (dst_font st) !! d) eqn:Hd.
  - intros [= <-]. rewrite Hd. eauto.
  - destruct (glyf (src_font st) !! s) as [g|]; [| discriminate].
    destruct (copy_composite (copy_glyph depth) g st) as [st1 [e|g']]; [discriminate |].
    intros H. pose proof (store_glyph_glyf st1 s d g') as E. rewrite H in E.
    simpl in E. rewrite E, lookup_insert_eq. eauto.
Qed.

(** ** update_cmap, subtable by subtable *)

Lemma update_subtable_accepts cp name t :
  update_subtable cp name t = if accepts t cp then write_cmap t cp name else t.
Proof.
  unfold update_subtable, accepts.
  destruct (platformID t =? 0), (platformID t =? 3), (cp <=? 0xFFFF),
    (format t =? 4), (format t =? 6), (format t =? 12), (format t =? 13),
    (format t =? 3); reflexivity.
Qed.

Lemma update_subtable_ids cp name t : same_ids t (update_subtable cp name t).
Proof.
  rewrite update_subtable_accepts. unfold same_ids.
  destruct (accepts t cp); simpl; tauto.
Qed.

Lemma accepts_ids t t' cp : same_ids t t' -> accepts t' cp = accepts t cp.
Proof. intros (H1 & H2 & H3 & H4). unfold accepts. rewrite H1, H3. reflexivity. Qed.

Lemma update_subtable_lookup cp name t cp' :
  cmap (update_subtable cp name t) !! cp' =
  if decide (cp' = cp) then (if accepts t cp then Some name else cmap t !! cp)
  else cmap t !! cp'.
Proof.
  rewrite update_subtable_accepts.
  destruct (accepts t cp); simpl; destruct (decide (cp' = cp)) as [-> | Hne];
    try reflexivity.
  - apply lookup_insert_eq.
  - apply lookup_insert_ne. congruence.
Qed.

(** A supplementary codepoint is accepted by no narrow subtable. *)
Lemma accepts_supplementary t cp :
  0xFFFF < cp -> is_narrow t -> accepts t cp = false.
Proof.
  intros Hcp Hn. unfold accepts.
  destruct (Z.leb_spec cp 0xFFFF) as [? | _]; [lia |].
  assert ((format t =? 12) = false) as -> by (destruct Hn; apply Z.eqb_neq; lia).
  assert ((format t =? 13) = false) as -> by (destruct Hn; apply Z.eqb_neq; lia).
  destruct (platformID t =? 0), (platformID t =? 3), (format t =? 4),
    (format t =? 6), (format t =? 3); reflexivity.
Qed.

Lemma find_related (p : CmapSubtable -> bool)
    (Q : CmapSubtable -> CmapSubtable -> Prop) ts ts' :
  (forall t t', Q t t' -> p t' = p t) -> Forall2 Q ts ts' ->
  match find p ts with
  | Some t => exists t', find p ts' = Some t' /\ Q t t'
  | None => find p ts' = None
  end.
Proof.
  intros Hp H. induction H as [|t t' ts ts' Ht _ IH]; simpl; [reflexivity |].
  rewrite (Hp _ _ Ht). destruct (p t); [eauto | exact IH].
Qed.

(** Subtables related one by one, with their identities kept, resolve to
    related best subtables, or to the same failure. *)
Lemma get_best_cmap_related (Q : CmapSubtable -> CmapSubtable -> Prop) f f' :
  (forall t t', Q t t' -> same_ids t t') ->
  Forall2 Q (cmap_tables f) (cmap_tables f') ->
  match get_best_cmap f with
  | inr m => exists t t', Q t t' /\ m = cmap t /\ get_best_cmap f' = inr (cmap t')
  | inl e => get_best_cmap f' = inl e
  end.
Proof.
  intros Hids H. unfold get_best_cmap.
  pose proof (find_related is_win_full Q _ _
    ltac:(intros t t' (E1 & E2 & _)%Hids; unfold is_win_full;
          rewrite E1, E2; reflexivity) H) as H1.
  pose proof (find_related is_win_bmp Q _ _
    ltac:(intros t t' (E1 & E2 & _)%Hids; unfold is_win_bmp;
          rewrite E1, E2; reflexivity) H) as H2.
  pose proof (find_related is_unicode_platform Q _ _
    ltac:(intros t t' (E1 & _)%Hids; unfold is_unicode_platform;
          rewrite E1; reflexivity) H) as H3.
  destruct (find is_win_full (cmap_tables f)) as [t|].
  { destruct H1 as (t' & -> & Ht). eauto. }
  rewrite H1. destruct (find is_win_bmp (cmap_tables f)) as [t|].
  { destruct H2 as (t' & -> & Ht). eauto. }
  rewrite H2. destruct (find is_unicode_platform (cmap_tables f)) as [t|].
  { destruct H3 as (t' & -> & Ht). eauto. }
  rewrite H3. reflexivity.
Qed.

(** The subtables [ensure_cmap_subtables] appends. *)
Lemma ensure_cmap_subtables_adds font font' :
  ensure_cmap_subtables font = inr font' ->
  exists added,
    cmap_tables font' = cmap_tables font ++ added /\
    Forall (fun t => is_narrow t -> bmp_only t) added /\
    font' = set_cmap_tables font (cmap_tables font').
Proof.
  unfold ensure_cmap_subtables.
  destruct (get_best_cmap font) as [e|best]; [discriminate |].
  assert (H4 : is_narrow (mkSubtable 3 1 4 0 (filter (fun kv => kv.1 ≤ 0xFFFF) best)) ->
               bmp_only (mkSubtable 3 1 4 0 (filter (fun kv => kv.1 ≤ 0xFFFF) best))).
  { intros _ cp [v Hv]. simpl in Hv. apply map_lookup_filter_Some in Hv as [_ Hv].
    exact Hv. }
  assert (H12 : is_narrow (mkSubtable 3 10 12 0 best) ->
                bmp_only (mkSubtable 3 10 12 0 best)).
  { intros [H | H]; discriminate H. }
  destruct (existsb (fun t => format t =? 4) (cmap_tables font)),
    (existsb (fun t => format t =? 12) (cmap_tables font));
    intros [= <-]; cbn [cmap_tables set_cmap_tables].
  - exists []. rewrite app_nil_r.
    split; [reflexivity |]. split; [constructor | reflexivity].
  - exists [mkSubtable 3 10 12 0 best].
    split; [reflexivity |]. split; [| reflexivity].
    constructor; [exact H12 | constructor].
  - exists [mkSubtable 3 1 4 0 (filter (fun kv => kv.1 ≤ 0xFFFF) best)].
    split; [reflexivity |]. split; [| reflexivity].
    constructor; [exact H4 | constructor].
  - exists [mkSubtable 3 1 4 0 (filter (fun kv => kv.1 ≤ 0xFFFF) best);
            mkSubtable 3 10 12 0 best].
    rewrite <- app_assoc.
    split; [reflexivity |]. split; [| reflexivity].
    constructor; [exact H4 |]. constructor; [exact H12 | constructor].
Qed.


(** ** The transplant loop *)

Lemma filter_ext_elem {A} (P1 P2 : A -> Prop)
    `{!forall x, Decision (P1 x), !forall x, Decision (P2 x)} (l : list A) :
  (forall x, x ∈ l -> (P1 x <-> P2 x)) -> filter P1 l = filter P2 l.
Proof.
  induction l as [|x l IH]; intros Hext; [reflexivity |].
  assert (Hx : P1 x <-> P2 x) by (apply Hext; left).
  assert (Hl : filter P1 l = filter P2 l)
    by (apply IH; intros y Hy; apply Hext; right; exact Hy).
  destruct (decide (P1 x)) as [H1 | H1].
  - rewrite !filter_cons_True by tauto. f_equal. exact Hl.
  - rewrite !filter_cons_False by tauto. exact Hl.
Qed.

Lemma remapped_nil prefix t : remapped prefix [] [] t t.
Proof.
  split; [unfold same_ids; tauto |]. intros cp.
  destruct (decide _) as [[H _] | _]; [inversion H | reflexivity].
Qed.

(** A logged item leaves every subtable as the rest of the loop makes it. *)
Lemma remapped_skip prefix cp name e items ws t t' :
  cp ∉ items.*1 ->
  remapped prefix items ws t t' ->
  remapped prefix ((cp, name) :: items) (mkWarning cp name e :: ws) t t'.
Proof.
  intros Hcp [Hids Hlk]. split; [exact Hids |]. intros cp'. rewrite Hlk.
  unfold failed_codepoints. rewrite !fmap_cons. cbn [fst warn_cp].
  fold (failed_codepoints ws).
  destruct (decide (cp' ∈ items.*1 /\ cp' ∉ failed_codepoints ws)) as [[H1 H2] | Hn];
    destruct (decide (cp' ∈ cp :: items.*1 /\ cp' ∉ cp :: failed_codepoints ws))
      as [[H3 H4] | Hn']; try reflexivity; exfalso.
  - apply Hn'. split; [right; exact H1 |].
    apply not_elem_of_cons. split; [congruence | exact H2].
  - apply not_elem_of_cons in H4 as [Hne H4].
    apply elem_of_cons in H3 as [? | H3]; [contradiction | tauto].
Qed.

(** A counted item is written first, then the rest of the loop goes on. *)
Lemma remapped_write prefix cp name items ws t t' :
  cp ∉ items.*1 -> cp ∉ failed_codepoints ws ->
  remapped prefix items ws
           (update_subtable cp (glyph_name_for_codepoint cp prefix) t) t' ->
  remapped prefix ((cp, name) :: items) ws t t'.
Proof.
  intros Hcp Hcpw [Hids Hlk]. split.
  - pose proof (update_subtable_ids cp (glyph_name_for_codepoint cp prefix) t)
      as (? & ? & ? & ?).
    destruct Hids as (? & ? & ? & ?). unfold same_ids. repeat split; congruence.
  - intros cp'. rewrite Hlk.
    rewrite (accepts_ids t _ cp' (update_subtable_ids _ _ t)).
    rewrite update_subtable_lookup, fmap_cons. cbn [fst].
    destruct (decide (cp' = cp)) as [-> | Hne].
    + destruct (decide (cp ∈ items.*1 /\ _)) as [[H _] | _]; [contradiction |].
      destruct (decide (cp ∈ cp :: items.*1 /\ _)) as [_ | Hn]; [reflexivity |].
      exfalso. apply Hn. split; [left | exact Hcpw].
    + destruct (decide (cp' ∈ items.*1 /\ _)) as [[H1 H2] | Hn];
        destruct (decide (cp' ∈ cp :: items.*1 /\ _)) as [[H3 H4] | Hn'];
        try reflexivity; exfalso.
      * apply Hn'. split; [right; exact H1 | exact H2].
      * apply Hn. split; [| exact H4].
        apply elem_of_cons in H3 as [? | H3]; [contradiction | exact H3].
Qed.

Section TransplantFacts.
Variable dict_items : gmap Z string -> list (Z * string).
Hypothesis dict_items_perm : forall m, dict_items m ≡ₚ map_to_list m.
Variable recursion_limit : nat.

Lemma dict_items_elem (m : gmap Z string) cp name :
  (cp, name) ∈ dict_items m <-> m !! cp = Some name.
Proof. rewrite dict_items_perm. apply elem_of_map_to_list. Qed.

Lemma dict_items_NoDup (m : gmap Z string) : NoDup (dict_items m).*1.
Proof. rewrite dict_items_perm. apply NoDup_fst_map_to_list. Qed.

Lemma dict_items_length (m : gmap Z string) : length (dict_items m) = size m.
Proof. rewrite dict_items_perm. apply length_map_to_list. Qed.

Lemma dict_items_keys (m : gmap Z string) cp :
  cp ∈ (dict_items m).*1 <-> is_Some (m !! cp).
Proof.
  rewrite list_elem_of_fmap. split.
  - intros ([k v] & -> & H). apply dict_items_elem in H. simpl. eauto.
  - intros [v H]. exists (cp, v). split; [reflexivity | apply dict_items_elem, H].
Qed.

(** What one run of the loop does, whatever the items are. *)
Lemma transplant_loop_spec prefix (items : list (Z * string)) :
  NoDup items.*1 ->
  forall acc,
    let R := transplant_loop recursion_limit prefix items acc in
    exists ws,
      warnings R = warnings acc ++ ws /\
      (count R + length ws = count acc + length items)%nat /\
      (forall w, w ∈ ws -> (warn_cp w, warn_glyph w) ∈ items) /\
      NoDup (failed_codepoints ws) /\
      src_font (fonts R) = src_font (fonts acc) /\
      outlines_kept (fonts acc) (fonts R) /\
      (forall cp, cp ∈ items.*1 -> cp ∉ failed_codepoints ws ->
                  is_Some (glyf (dst_font (fonts R)) !! glyph_name_for_codepoint cp prefix)) /\
      Forall2 (remapped prefix items ws)
              (cmap_tables (dst_font (fonts acc))) (cmap_tables (dst_font (fonts R))).
Proof.
  induction items as [|[cp name] items IH]; intros Hnd acc.
  - exists []. cbn. rewrite app_nil_r.
    split; [reflexivity |]. split; [lia |].
    split; [intros w Hw; inversion Hw |]. split; [constructor |].
    split; [reflexivity |]. split; [reflexivity |].
    split; [intros cp Hcp; inversion Hcp |].
    apply Forall_Forall2_diag, Forall_forall. intros t _. apply remapped_nil.
  - rewrite fmap_cons in Hnd. cbn [fst] in Hnd.
    apply NoDup_cons in Hnd as [Hcp Hnd].
    change (transplant_loop recursion_limit prefix ((cp, name) :: items) acc)
      with (transplant_loop recursion_limit prefix items
              (transplant_step recursion_limit prefix acc (cp, name))).
    pose proof (copy_glyph_frame recursion_limit (fonts acc) name
                  (glyph_name_for_codepoint cp prefix)) as Hfr.
    pose proof (copy_glyph_kept recursion_limit (fonts acc) name
                  (glyph_name_for_codepoint cp prefix)) as Hkept.
    pose proof (copy_glyph_ok_present recursion_limit (fonts acc) name
                  (glyph_name_for_codepoint cp prefix)) as Hok.
    specialize (IH Hnd (transplant_step recursion_limit prefix acc (cp, name))).
    cbv zeta in IH. cbv zeta.
    set (R := transplant_loop recursion_limit prefix items
                (transplant_step recursion_limit prefix acc (cp, name))) in *.
    clearbody R. unfold transplant_step in IH.
    destruct (copy_glyph recursion_limit (fonts acc) name
                (glyph_name_for_codepoint cp prefix)) as [st1 [e|]];
      cbn [fst] in Hfr, Hkept;
      destruct IH as (ws & Hw & Hc & Hin & Hndw & Hsrc & Hk & Hpres & Hmap);
      cbn [fonts count warnings dst_font src_font set_dst] in Hw, Hc, Hsrc, Hk, Hmap;
      assert (Hcpw : cp ∉ failed_codepoints ws)
        by (intros H; apply list_elem_of_fmap in H as (w & -> & H);
            apply Hcp; apply list_elem_of_fmap; exists (warn_cp w, warn_glyph w);
            split; [reflexivity | auto]).
    + (* the copy raised: logged, the cmap is not touched *)
      exists (mkWarning cp name e :: ws).
      split; [rewrite Hw, <- app_assoc; reflexivity |].
      split; [cbn [length]; lia |].
      split.
      { intros w Hwin. apply elem_of_cons in Hwin as [-> | Hwin];
          [left | right; auto]. }
      split.
      { unfold failed_codepoints. rewrite fmap_cons. apply NoDup_cons.
        split; assumption. }
      split; [destruct Hfr as [Hfr _]; congruence |].
      split; [etransitivity; eassumption |].
      split.
      { intros cp' Hcp' Hnf. unfold failed_codepoints in Hnf.
        rewrite fmap_cons in Hnf. apply not_elem_of_cons in Hnf as [Hne Hnf].
        rewrite fmap_cons in Hcp'. cbn [fst warn_cp] in Hcp', Hne.
        apply Hpres; [| exact Hnf].
        apply elem_of_cons in Hcp' as [? | ?]; [contradiction | assumption]. }
      destruct Hfr as (_ & Htab & _). rewrite Htab in Hmap.
      eapply Forall2_impl; [exact Hmap |].
      intros t t' Hr. apply remapped_skip; assumption.
    + (* the copy returned: the cmap is updated and the glyph counted *)
      exists ws.
      split; [exact Hw |]. split; [cbn [length]; lia |].
      split; [intros w Hwin; right; auto |].
      split; [exact Hndw |].
      split; [destruct Hfr as [Hfr _]; congruence |].
      split.
      { etransitivity; [exact Hkept |]. exact Hk. }
      split.
      { intros cp' Hcp' Hnf. rewrite fmap_cons in Hcp'. cbn [fst] in Hcp'.
        apply elem_of_cons in Hcp' as [-> | Hcp']; [| auto].
        destruct (Hok st1 eq_refl) as [g Hg].
        exists g. eapply lookup_weaken; [| exact Hk]. exact Hg. }
      destruct Hfr as (_ & Htab & _).
      unfold update_cmap in Hmap. cbn [cmap_tables set_cmap_tables] in Hmap.
      rewrite Htab in Hmap.
      apply (proj1 (Forall2_fmap_l
               (update_subtable cp (glyph_name_for_codepoint cp prefix))
               (remapped prefix items ws) _ _)) in Hmap.
      eapply Forall2_impl; [exact Hmap |].
      intros t t' Hr. apply remapped_write; assumption.
Qed.

(** The fonts the loop leaves are those of the contract, item by item. *)
Lemma transplant_loop_fonts prefix (items : list (Z * string)) : forall acc,
  fonts (transplant_loop recursion_limit prefix items acc) =
  fold_left (transplant_item recursion_limit prefix) items (fonts acc).
Proof.
  induction items as [|[cp name] items IH]; intros acc; [reflexivity |].
  change (transplant_loop recursion_limit prefix ((cp, name) :: items) acc)
    with (transplant_loop recursion_limit prefix items
            (transplant_step recursion_limit prefix acc (cp, name))).
  rewrite IH. cbn [fold_left]. f_equal.
  unfold transplant_step, transplant_item. cbn [fst snd].
  destruct (copy_glyph recursion_limit (fonts acc) name
              (glyph_name_for_codepoint cp prefix)) as [st1 [e|]]; reflexivity.
Qed.

Lemma transplant_loop_app prefix (l1 l2 : list (Z * string)) acc :
  transplant_loop recursion_limit prefix (l1 ++ l2) acc =
  transplant_loop recursion_limit prefix l2
    (transplant_loop recursion_limit prefix l1 acc).
Proof. apply fold_left_app. Qed.

Lemma state_before_run prefix items st k :
  state_before recursion_limit prefix items st k =
  fonts (transplant_loop recursion_limit prefix (take k items) (mkTransplant st 0 [])).
Proof. unfold state_before. rewrite transplant_loop_fonts. reflexivity. Qed.

Lemma state_before_S prefix items st k item :
  items !! k = Some item ->
  state_before recursion_limit prefix items st (S k) =
  transplant_item recursion_limit prefix
    (state_before recursion_limit prefix items st k) item.
Proof.
  intros Hk. unfold state_before.
  rewrite (take_S_r _ _ _ Hk), fold_left_app. reflexivity.
Qed.

Lemma items_split (items : list (Z * string)) k cp name :
  NoDup items.*1 -> items !! k = Some (cp, name) ->
  items = take k items ++ (cp, name) :: drop (S k) items /\
  NoDup (take k items).*1 /\ NoDup (drop (S k) items).*1 /\
  (cp ∉ (take k items).*1) /\ (cp ∉ (drop (S k) items).*1).
Proof.
  intros Hnd Hk. pose proof (take_drop_middle items k _ Hk) as E.
  split; [symmetry; exact E |].
  rewrite <- E, fmap_app, fmap_cons in Hnd. cbn [fst] in Hnd.
  apply NoDup_app in Hnd as (H1 & H2 & H3). apply NoDup_cons in H3 as [H4 H5].
  split; [exact H1 |]. split; [exact H5 |]. split; [| exact H4].
  intros H. apply (H2 cp H). left.
Qed.

Lemma warning_of_items (items : list (Z * string)) (ws : list Warning) cp :
  (forall w, w ∈ ws -> (warn_cp w, warn_glyph w) ∈ items) ->
  cp ∈ failed_codepoints ws -> cp ∈ items.*1.
Proof.
  intros Hin H. apply list_elem_of_fmap in H as (w & -> & Hw).
  apply list_elem_of_fmap. exists (warn_cp w, warn_glyph w).
  split; [reflexivity | apply Hin, Hw].
Qed.

(** The loop's ledger: the item at position [k] is logged, with the error
    caught, when its copy, made on the fonts as the item finds them,
    raises; it is not logged when that copy returns. *)
Lemma transplant_loop_ledger prefix (items : list (Z * string)) st k cp name :
  NoDup items.*1 -> items !! k = Some (cp, name) ->
  match copy_glyph recursion_limit (state_before recursion_limit prefix items st k)
          name (glyph_name_for_codepoint cp prefix) with
  | (_, Some e) =>
      mkWarning cp name e ∈
        warnings (transplant_loop recursion_limit prefix items (mkTransplant st 0 []))
  | (_, None) =>
      cp ∉ failed_codepoints
             (warnings (transplant_loop recursion_limit prefix items
                          (mkTransplant st 0 [])))
  end.
Proof.
  intros Hnd Hk.
  destruct (items_split items k cp name Hnd Hk) as (E & Hnd1 & Hnd2 & Hc1 & Hc2).
  rewrite state_before_run.
  set (pre := take k items) in *. set (post := drop (S k) items) in *.
  clearbody pre post. subst items.
  rewrite transplant_loop_app.
  destruct (transplant_loop_spec prefix pre Hnd1 (mkTransplant st 0 []))
    as (ws1 & Hw1 & _ & Hin1 & _).
  cbn [warnings app] in Hw1.
  set (A := transplant_loop recursion_limit prefix pre (mkTransplant st 0 [])) in *.
  clearbody A.
  change (transplant_loop recursion_limit prefix ((cp, name) :: post) A)
    with (transplant_loop recursion_limit prefix post
            (transplant_step recursion_limit prefix A (cp, name))).
  destruct (transplant_loop_spec prefix post Hnd2
              (transplant_step recursion_limit prefix A (cp, name)))
    as (ws2 & Hw2 & _ & Hin2 & _).
  unfold transplant_step in *.
  destruct (copy_glyph recursion_limit (fonts A) name
              (glyph_name_for_codepoint cp prefix)) as [st1 [e|]];
    cbn [warnings] in Hw2; rewrite Hw2.
  - apply elem_of_app. left. apply elem_of_app. right. left.
  - rewrite Hw1. unfold failed_codepoints. rewrite fmap_app. intros H.
    apply elem_of_app in H as [H | H].
    + apply Hc1. exact (warning_of_items pre ws1 cp Hin1 H).
    + apply Hc2. exact (warning_of_items post ws2 cp Hin2 H).
Qed.

(** The count is the number of items whose copy returned. *)
Lemma transplant_loop_count prefix (items : list (Z * string)) st k :
  (k <= length items)%nat ->
  count (transplant_loop recursion_limit prefix (take k items) (mkTransplant st 0 [])) =
  length (filter (fun j => copy_returns recursion_limit prefix items st j = true)
                 (seq 0 k)).
Proof.
  induction k as [|k IH]; intros Hk; [reflexivity |].
  destruct (lookup_lt_is_Some_2 items k) as [[cp name] Hitem]; [lia |].
  rewrite (take_S_r _ _ _ Hitem), transplant_loop_app, seq_S, filter_app, length_app.
  rewrite <- IH by lia. change (0 + k)%nat with k.
  pose proof (state_before_run prefix items st k) as Hst.
  set (A := transplant_loop recursion_limit prefix (take k items)
              (mkTransplant st 0 [])) in *.
  change (transplant_loop recursion_limit prefix [(cp, name)] A)
    with (transplant_step recursion_limit prefix A (cp, name)).
  assert (Hret : copy_returns recursion_limit prefix items st k =
                 match (copy_glyph recursion_limit (fonts A) name
                          (glyph_name_for_codepoint cp prefix)).2 with
                 | None => true
                 | Some _ => false
                 end).
  { unfold copy_returns. rewrite Hitem, Hst. reflexivity. }
  unfold transplant_step.
  destruct (copy_glyph recursion_limit (fonts A) name
              (glyph_name_for_codepoint cp prefix)) as [st1 [e|]];
    cbn [snd] in Hret; cbn [count].
  - rewrite filter_cons_False by (rewrite Hret; discriminate).
    rewrite filter_nil. cbn [length]. lia.
  - rewrite filter_cons_True by exact Hret.
    rewrite filter_nil. cbn [length]. lia.
Qed.

Lemma NoDup_fmap_elem {A B} (f : A -> B) (l : list A) x y :
  NoDup (f <$> l) -> x ∈ l -> y ∈ l -> f x = f y -> x = y.
Proof.
  induction l as [|a l IH]; intros Hnd Hx Hy E; [inversion Hx |].
  rewrite fmap_cons in Hnd. apply NoDup_cons in Hnd as [Ha Hnd].
  apply elem_of_cons in Hx as [-> | Hx]; apply elem_of_cons in Hy as [-> | Hy].
  - reflexivity.
  - exfalso. apply Ha. rewrite E. apply list_elem_of_fmap. eauto.
  - exfalso. apply Ha. rewrite <- E. apply list_elem_of_fmap. eauto.
  - apply IH; assumption.
Qed.

(** The whole loop, from the donor's resolved cmap. *)
Lemma transplant_glyphs_inv st prefix R :
  transplant_glyphs dict_items recursion_limit st prefix = inr R ->
  exists src_cmap,
    get_best_cmap (src_font st) = inr src_cmap /\
    R = transplant_loop recursion_limit prefix (dict_items src_cmap)
          (mkTransplant st 0 []).
Proof.
  unfold transplant_glyphs.
  destruct (get_best_cmap (src_font st)) as [e|src_cmap]; [discriminate |].
  intros [= <-]. eauto.
Qed.

(** C1, amended: a codepoint the donor's resolved cmap does not map keeps
    its glyph name in every subtable of the base, and in the base's
    resolved cmap; a codepoint the donor maps is remapped to the
    transplanted glyph, in every subtable [update_cmap] writes it into,
    whenever its copy, made on the fonts as the loop has left them when it
    comes to the codepoint, does not raise. *)
Theorem transplant_keeps_unshared_codepoints st prefix R :
  transplant_glyphs dict_items recursion_limit st prefix = inr R ->
  exists src_cmap,
    get_best_cmap (src_font st) = inr src_cmap /\
    let items := dict_items src_cmap in
    fonts R = state_before recursion_limit prefix items st (length items) /\
    (forall cp name, src_cmap !! cp = Some name <->
                     exists k, items !! k = Some (cp, name)) /\
    Forall2 (fun t t' =>
               same_ids t t' /\
               (forall cp, src_cmap !! cp = None -> cmap t' !! cp = cmap t !! cp))
            (cmap_tables (dst_font st)) (cmap_tables (dst_font (fonts R))) /\
    (forall k cp name,
       items !! k = Some (cp, name) ->
       (copy_glyph recursion_limit (state_before recursion_limit prefix items st k)
          name (glyph_name_for_codepoint cp prefix)).2 = None ->
       Forall2 (fun t t' =>
                  accepts t cp = true ->
                  cmap t' !! cp = Some (glyph_name_for_codepoint cp prefix))
               (cmap_tables (dst_font st)) (cmap_tables (dst_font (fonts R)))) /\
    (forall m, get_best_cmap (dst_font st) = inr m ->
               exists m', get_best_cmap (dst_font (fonts R)) = inr m' /\
                          forall cp, src_cmap !! cp = None -> m' !! cp = m !! cp).
Proof.
  intros (src_cmap & Hsrc & ->)%transplant_glyphs_inv.
  exists src_cmap. split; [exact Hsrc |]. cbv zeta.
  destruct (transplant_loop_spec prefix (dict_items src_cmap)
              (dict_items_NoDup src_cmap) (mkTransplant st 0 []))
    as (ws & Hw & _ & _ & _ & _ & _ & _ & Hmap).
  cbn [warnings fonts app] in Hw, Hmap.
  pose proof (fun k cp name =>
                transplant_loop_ledger prefix (dict_items src_cmap) st k cp name
                  (dict_items_NoDup src_cmap)) as Hledger.
  pose proof (state_before_run prefix (dict_items src_cmap) st
                (length (dict_items src_cmap))) as Hend.
  rewrite firstn_all in Hend.
  set (R := transplant_loop recursion_limit prefix (dict_items src_cmap)
              (mkTransplant st 0 [])) in *. clearbody R.
  split; [symmetry; exact Hend |].
  assert (Hkeep : Forall2 (fun t t' =>
            same_ids t t' /\
            forall cp, src_cmap !! cp = None -> cmap t' !! cp = cmap t !! cp)
            (cmap_tables (dst_font st)) (cmap_tables (dst_font (fonts R)))).
  { eapply Forall2_impl; [exact Hmap |]. intros t t' [Hids Hlk].
    split; [exact Hids |]. intros cp Hcp. rewrite Hlk.
    destruct (decide _) as [[H _] | _]; [| reflexivity].
    apply dict_items_keys in H as [v Hv]. congruence. }
  split.
  { intros cp name. rewrite <- dict_items_elem. apply list_elem_of_lookup. }
  split; [exact Hkeep |]. split.
  - intros k cp name Hk Hret. specialize (Hledger k cp name Hk).
    destruct (copy_glyph recursion_limit
                (state_before recursion_limit prefix (dict_items src_cmap) st k)
                name (glyph_name_for_codepoint cp prefix)) as [st1 [e|]];
      [discriminate Hret |].
    rewrite Hw in Hledger.
    eapply Forall2_impl; [exact Hmap |]. intros t t' [_ Hlk] Hacc.
    rewrite Hlk, Hacc.
    destruct (decide _) as [_ | Hn]; [reflexivity |].
    exfalso. apply Hn. split; [| exact Hledger].
    apply list_elem_of_fmap. exists (cp, name).
    split; [reflexivity | apply list_elem_of_lookup; eauto].
  - intros m Hm.
    pose proof (fun Hq => get_best_cmap_related _ (dst_font st) (dst_font (fonts R))
                            Hq Hkeep) as Hbest.
    specialize (Hbest (fun t t' H => proj1 H)).
    rewrite Hm in Hbest. destruct Hbest as (t & t' & [_ Hlk] & -> & Hbest).
    exists (cmap t'). split; [exact Hbest | exact Hlk].
Qed.

(** C3: [update_cmap] leaves every narrow subtable as it is when the
    codepoint is supplementary; the subtables [ensure_cmap_subtables]
    appends are BMP-only when narrow (the format-4 one is filtered); hence
    a base whose narrow subtables are BMP-only, as the format makes them,
    is still so after the synthesis and the transplant. *)
Theorem narrow_subtables_stay_bmp :
  (forall font cp name,
     0xFFFF < cp ->
     Forall2 (fun t t' => same_ids t t' /\ (is_narrow t -> t' = t))
             (cmap_tables font) (cmap_tables (update_cmap font cp name))) /\
  (forall font font',
     ensure_cmap_subtables font = inr font' ->
     exists added,
       cmap_tables font' = cmap_tables font ++ added /\
       Forall (fun t => is_narrow t -> bmp_only t) added) /\
  (forall base donor prefix base1 R,
     narrow_safe base ->
     ensure_cmap_subtables base = inr base1 ->
     transplant_glyphs dict_items recursion_limit (mkFonts donor base1) prefix = inr R ->
     narrow_safe (dst_font (fonts R))).
Proof.
  split; [| split].
  - intros font cp name Hcp. unfold update_cmap. cbn [cmap_tables set_cmap_tables].
    apply Forall2_fmap_r, Forall_Forall2_diag, Forall_forall. intros t _.
    split; [apply update_subtable_ids |]. intros Hn.
    rewrite update_subtable_accepts, accepts_supplementary by assumption.
    reflexivity.
  - intros font font' (added & H1 & H2 & _)%ensure_cmap_subtables_adds. eauto.
  - intros base donor prefix base1 R Hsafe
      (added & Htab & Hadded & _)%ensure_cmap_subtables_adds
      (src_cmap & Hsrc & ->)%transplant_glyphs_inv.
    destruct (transplant_loop_spec prefix (dict_items src_cmap)
                (dict_items_NoDup src_cmap) (mkTransplant (mkFonts donor base1) 0 []))
      as (ws & _ & _ & _ & _ & _ & _ & _ & Hmap).
    cbn [fonts dst_font] in Hmap.
    assert (Hsafe1 : Forall (fun t => is_narrow t -> bmp_only t) (cmap_tables base1)).
    { rewrite Htab. apply Forall_app. split; assumption. }
    unfold narrow_safe.
    eapply Forall2_Forall_r; [exact Hmap |].
    eapply Forall_impl; [exact Hsafe1 |].
    intros t Ht t' [Hids Hlk] Hn' cp [v Hv].
    assert (Hn : is_narrow t).
    { destruct Hids as (_ & _ & Hf & _). unfold is_narrow in *. rewrite <- Hf. exact Hn'. }
    destruct (Z.le_gt_cases cp 0xFFFF) as [Hle | Hgt]; [exact Hle |].
    rewrite Hlk, (accepts_supplementary t cp Hgt Hn) in Hv.
    apply (Ht Hn cp).
    destruct (decide _); rewrite Hv; eauto.
Qed.

(** C7, amended: the transplant deals with the items of the donor's
    resolved cmap in order, each on the fonts as the items before have left
    them.  An item whose copy raises is logged with the error caught, its
    codepoint keeps what every subtable of the base's cmap mapped it to,
    and the loop goes on from the fonts as the failed copy left them
    (nothing is rolled back); an item whose copy returns is not logged, its
    glyph is in the outline table and every subtable that accepts the
    codepoint maps it to that glyph.  Every warning is the failure of one
    item, each item is counted or logged, once, and the returned count is
    the number of items whose copy returned. *)
Theorem transplant_failure_contained st prefix R :
  transplant_glyphs dict_items recursion_limit st prefix = inr R ->
  exists src_cmap,
    get_best_cmap (src_font st) = inr src_cmap /\
    let items := dict_items src_cmap in
    let before := state_before recursion_limit prefix items st in
    fonts R = before (length items) /\
    (count R + length (warnings R))%nat = size src_cmap /\
    count R = length (filter (fun k => copy_returns recursion_limit prefix items st k = true)
                             (seq 0 (length items))) /\
    count R = length (filter (fun kv => kv.1 ∉ failed_codepoints (warnings R)) items) /\
    NoDup (failed_codepoints (warnings R)) /\
    (forall k cp name,
       items !! k = Some (cp, name) ->
       match copy_glyph recursion_limit (before k) name
               (glyph_name_for_codepoint cp prefix) with
       | (st1, Some e) =>
           mkWarning cp name e ∈ warnings R /\
           before (S k) = st1 /\
           Forall2 (fun t t' => same_ids t t' /\ cmap t' !! cp = cmap t !! cp)
                   (cmap_tables (dst_font st)) (cmap_tables (dst_font (fonts R)))
       | (st1, None) =>
           (cp ∉ failed_codepoints (warnings R)) /\
           before (S k) =
             set_dst st1 (update_cmap (dst_font st1) cp
                            (glyph_name_for_codepoint cp prefix)) /\
           is_Some (glyf (dst_font (fonts R)) !! glyph_name_for_codepoint cp prefix) /\
           Forall2 (fun t t' => accepts t cp = true ->
                                cmap t' !! cp = Some (glyph_name_for_codepoint cp prefix))
                   (cmap_tables (dst_font st)) (cmap_tables (dst_font (fonts R)))
       end) /\
    (forall w, w ∈ warnings R ->
       exists k,
         items !! k = Some (warn_cp w, warn_glyph w) /\
         (copy_glyph recursion_limit (before k) (warn_glyph w)
            (glyph_name_for_codepoint (warn_cp w) prefix)).2 = Some (warn_exn w)).
Proof.
  intros (src_cmap & Hsrc & ->)%transplant_glyphs_inv.
  exists src_cmap. split; [exact Hsrc |]. cbv zeta.
  destruct (transplant_loop_spec prefix (dict_items src_cmap)
              (dict_items_NoDup src_cmap) (mkTransplant st 0 []))
    as (ws & Hw & Hc & Hin & Hnd & _ & _ & Hpres & Hmap).
  cbn [warnings fonts count app] in Hw, Hc, Hmap.
  pose proof (fun k cp name =>
                transplant_loop_ledger prefix (dict_items src_cmap) st k cp name
                  (dict_items_NoDup src_cmap)) as Hledger.
  pose proof (transplant_loop_count prefix (dict_items src_cmap) st
                (length (dict_items src_cmap)) (le_n _)) as Hcount.
  rewrite firstn_all in Hcount.
  pose proof (state_before_run prefix (dict_items src_cmap) st
                (length (dict_items src_cmap))) as Hend.
  rewrite firstn_all in Hend.
  set (items := dict_items src_cmap) in *.
  assert (Hkeys : forall k cp name, items !! k = Some (cp, name) -> cp ∈ items.*1).
  { intros k cp name Hk. apply list_elem_of_fmap. exists (cp, name).
    split; [reflexivity | apply list_elem_of_lookup; eauto]. }
  assert (Hstep : forall k cp name, items !! k = Some (cp, name) ->
            state_before recursion_limit prefix items st (S k) =
            transplant_item recursion_limit prefix
              (state_before recursion_limit prefix items st k) (cp, name)).
  { intros k cp name Hk. apply state_before_S, Hk. }
  set (R := transplant_loop recursion_limit prefix items (mkTransplant st 0 [])) in *.
  clearbody R. rewrite Hw in Hledger. rewrite Hw. clear Hw.
  assert (Hnotlogged : count R =
            length (filter (fun kv => kv.1 ∉ failed_codepoints ws) items)).
  { rewrite Hcount.
    assert (Hgen : forall n, (n <= length items)%nat ->
              length (filter (fun k => copy_returns recursion_limit prefix items st k = true)
                             (seq 0 n)) =
              length (filter (fun kv => kv.1 ∉ failed_codepoints ws) (take n items))).
    { induction n as [|n IHn]; intros Hn; [reflexivity |].
      destruct (lookup_lt_is_Some_2 items n) as [[cp name] Hitem]; [lia |].
      rewrite seq_S, (take_S_r _ _ _ Hitem), !filter_app, !length_app, IHn by lia.
      f_equal. change (0 + n)%nat with n.
      specialize (Hledger n cp name Hitem).
      assert (Hret : copy_returns recursion_limit prefix items st n =
                match (copy_glyph recursion_limit
                         (state_before recursion_limit prefix items st n) name
                         (glyph_name_for_codepoint cp prefix)).2 with
                | None => true
                | Some _ => false
                end).
      { unfold copy_returns. rewrite Hitem. reflexivity. }
      destruct (copy_glyph recursion_limit
                  (state_before recursion_limit prefix items st n) name
                  (glyph_name_for_codepoint cp prefix)) as [st1 [e|]];
        cbn [snd] in Hret.
      - rewrite filter_cons_False by (rewrite Hret; discriminate).
        rewrite filter_cons_False; [reflexivity |].
        cbn [fst]. intros Hn'. apply Hn'. apply list_elem_of_fmap.
        exists (mkWarning cp name e). split; [reflexivity | exact Hledger].
      - rewrite filter_cons_True by exact Hret.
        rewrite filter_cons_True by exact Hledger. reflexivity. }
    rewrite (Hgen (length items) (le_n _)), firstn_all. reflexivity. }
  split; [symmetry; exact Hend |].
  split; [unfold items in Hc; rewrite dict_items_length in Hc; lia |].
  split; [exact Hcount |].
  split; [exact Hnotlogged |].
  split; [exact Hnd |].
  split.
  - intros k cp name Hk. specialize (Hledger k cp name Hk).
    specialize (Hstep k cp name Hk). unfold transplant_item in Hstep.
    cbn [fst snd] in Hstep.
    destruct (copy_glyph recursion_limit
                (state_before recursion_limit prefix items st k) name
                (glyph_name_for_codepoint cp prefix)) as [st1 [e|]].
    + split; [exact Hledger |]. split; [exact Hstep |].
      eapply Forall2_impl; [exact Hmap |]. intros t t' [Hids Hlk].
      split; [exact Hids |]. rewrite Hlk.
      destruct (decide _) as [[_ H] | _]; [| reflexivity].
      exfalso. apply H. apply list_elem_of_fmap.
      exists (mkWarning cp name e). split; [reflexivity | exact Hledger].
    + split; [exact Hledger |]. split; [exact Hstep |]. split.
      * apply Hpres; [exact (Hkeys k cp name Hk) | exact Hledger].
      * eapply Forall2_impl; [exact Hmap |]. intros t t' [_ Hlk] Hacc.
        rewrite Hlk, Hacc.
        destruct (decide _) as [_ | Hn]; [reflexivity |].
        exfalso. apply Hn. split; [exact (Hkeys k cp name Hk) | exact Hledger].
  - intros w Hwin. pose proof (Hin w Hwin) as Hitem.
    apply list_elem_of_lookup in Hitem as [k Hk]. exists k. split; [exact Hk |].
    specialize (Hledger k _ _ Hk).
    destruct (copy_glyph recursion_limit
                (state_before recursion_limit prefix items st k) (warn_glyph w)
                (glyph_name_for_codepoint (warn_cp w) prefix)) as [st1 [e|]];
      cbn [snd].
    + f_equal.
      assert (E : mkWarning (warn_cp w) (warn_glyph w) e = w).
      { apply (NoDup_fmap_elem warn_cp ws); [exact Hnd | exact Hledger | exact Hwin |].
        reflexivity. }
      rewrite <- E. reflexivity.
    + exfalso. apply Hledger. apply list_elem_of_fmap. eauto.
Qed.
End TransplantFacts.

(** *** The transplant on the scenario fonts *)

(** C1, as the claim states it, fails: the base maps U+0041 to "A_base"
    before the transplant and to "mes_uni0041" after it, the donor mapping
    U+0041 too. *)
Lemma transplant_overwrites_shared_codepoint :
  ~ (forall (dict_items : gmap Z string -> list (Z * string)),
       (forall m, dict_items m ≡ₚ map_to_list m) ->
       forall recursion_limit st prefix R cp name m,
         transplant_glyphs dict_items recursion_limit st prefix = inr R ->
         get_best_cmap (dst_font st) = inr m ->
         m !! cp = Some name ->
         exists m', get_best_cmap (dst_font (fonts R)) = inr m' /\
                    m' !! cp = Some name).
Proof.
  intros H.
  destruct (H map_to_list (fun m => reflexivity (map_to_list m)) 100%nat
              (mkFonts latin_donor latin_base) "mes_"%string _ 0x41 "A_base"%string _
              eq_refl eq_refl eq_refl) as (m' & Hbest & Hlk).
  vm_compute in Hbest. injection Hbest as <-.
  vm_compute in Hlk. discriminate Hlk.
Qed.

Lemma transplant_keeps_unshared_codepoints_witness :
  exists R src_cmap,
    transplant_glyphs map_to_list 100 (mkFonts latin_donor latin_base) "mes_" = inr R /\
    get_best_cmap latin_donor = inr src_cmap /\
    (forall m, get_best_cmap latin_base = inr m ->
               exists m', get_best_cmap (dst_font (fonts R)) = inr m' /\
                          forall cp, src_cmap !! cp = None -> m' !! cp = m !! cp) /\
    Forall2 (fun t t' => accepts t 0x41 = true ->
                         cmap t' !! 0x41 = Some "mes_uni0041"%string)
            (cmap_tables latin_base) (cmap_tables (dst_font (fonts R))).
Proof.
  eexists.
  destruct (transplant_keeps_unshared_codepoints map_to_list
              (fun m => reflexivity (map_to_list m)) 100%nat
              (mkFonts latin_donor latin_base) "mes_"%string _ eq_refl)
    as (src_cmap & Hsrc & _ & _ & _ & Hover & Hbest).
  exists src_cmap. split; [reflexivity |]. split; [exact Hsrc |].
  split; [exact Hbest |].
  vm_compute in Hsrc. injection Hsrc as <-.
  apply (Hover 0%nat 0x41 "A"%string); reflexivity.
Defined.

Lemma narrow_safe_plain_base : narrow_safe plain_base.
Proof.
  unfold narrow_safe, plain_base, sample_font. cbn [cmap_tables].
  constructor; [| constructor]. intros [H | H]; discriminate H.
Defined.

Lemma narrow_subtables_stay_bmp_witness :
  exists base1 R,
    ensure_cmap_subtables plain_base = inr base1 /\
    transplant_glyphs map_to_list 100 (mkFonts icon_donor base1) "mes_" = inr R /\
    narrow_safe (dst_font (fonts R)).
Proof.
  eexists. eexists. split; [reflexivity |]. split; [reflexivity |].
  refine (proj2 (proj2 (narrow_subtables_stay_bmp map_to_list
            (fun m => reflexivity (map_to_list m)) 100%nat))
            plain_base icon_donor "mes_"%string _ _ narrow_safe_plain_base eq_refl eq_refl).
Defined.

(** C7, as the claim states it, fails: the only codepoint of the donor,
    U+00C1, fails (its composite names a component the donor lacks), and
    yet the base's outline table has gained the first component, copied
    before the second one raised. *)
Lemma failed_codepoint_leaves_outlines :
  ~ (forall (dict_items : gmap Z string -> list (Z * string)),
       (forall m, dict_items m ≡ₚ map_to_list m) ->
       forall recursion_limit st prefix R,
         transplant_glyphs dict_items recursion_limit st prefix = inr R ->
         count R = 0%nat ->
         glyf (dst_font (fonts R)) = glyf (dst_font st)).
Proof.
  intros H.
  pose proof (H map_to_list (fun m => reflexivity (map_to_list m)) 100%nat
                (mkFonts broken_donor plain_base) "mes_"%string _ eq_refl eq_refl) as E.
  apply (f_equal (fun g => g !! "_ens_A"%string)) in E.
  vm_compute in E. discriminate E.
Qed.

Lemma transplant_failure_contained_witness :
  exists R src_cmap,
    transplant_glyphs map_to_list 100 (mkFonts broken_donor plain_base) "mes_" = inr R /\
    get_best_cmap broken_donor = inr src_cmap /\
    (count R + length (warnings R))%nat = size src_cmap /\
    mkWarning 0xC1 "Aacute" (KeyError "acutecomb") ∈ warnings R /\
    Forall2 (fun t t' => same_ids t t' /\ cmap t' !! 0xC1 = cmap t !! 0xC1)
            (cmap_tables plain_base) (cmap_tables (dst_font (fonts R))).
Proof.
  eexists.
  destruct (transplant_failure_contained map_to_list
              (fun m => reflexivity (map_to_list m)) 100%nat
              (mkFonts broken_donor plain_base) "mes_"%string _ eq_refl)
    as (src_cmap & Hsrc & _ & Hc & _ & _ & _ & Hitem & _).
  exists src_cmap. split; [reflexivity |]. split; [exact Hsrc |].
  split; [exact Hc |].
  vm_compute in Hsrc. injection Hsrc as <-.
  specialize (Hitem 0%nat 0xC1 "Aacute"%string eq_refl).
  destruct (copy_glyph 100 _ "Aacute" (glyph_name_for_codepoint 0xC1 "mes_"))
    as [st1 [e|]] eqn:Hcopy.
  - apply (f_equal snd) in Hcopy. vm_compute in Hcopy. injection Hcopy as <-.
    destruct Hitem as (Hlog & _ & Hkeep). split; [exact Hlog | exact Hkeep].
  - apply (f_equal snd) in Hcopy. vm_compute in Hcopy. discriminate Hcopy.
Defined.

(** ** The recursive glyph copy: what it inserts *)

Lemma length_append (a b : string) :
  String.length (a +:+ b) = (String.length a + String.length b)%nat.
Proof. induction a as [|c a IH]; simpl; [reflexivity | rewrite IH; reflexivity]. Qed.

Lemma ens_name_inj a b : ens_name a = ens_name b -> a = b.
Proof. unfold ens_name. apply append_cancel_l. Qed.

(** A component's new name is never its original name. *)
Lemma ens_name_fresh n : ens_name n <> n.
Proof.
  intros H. apply (f_equal String.length) in H.
  unfold ens_name in H. rewrite length_append in H. simpl in H. lia.
Qed.

Lemma copy_glyph_src depth st s d :
  src_font (copy_glyph depth st s d).1 = src_font st.
Proof. apply copy_glyph_frame. Qed.

Lemma copy_components_src (copy_rec : Fonts -> string -> string -> Fonts * option Exn) :
  (forall st s d, src_font (copy_rec st s d).1 = src_font st) ->
  forall comps st, src_font (copy_components copy_rec comps st).1 = src_font st.
Proof.
  intros Hrec. induction comps as [|c comps IH]; intros st; simpl; [reflexivity |].
  pose proof (Hrec st (glyphName c) (ens_name (glyphName c))) as H1.
  destruct (copy_rec st (glyphName c) (ens_name (glyphName c))) as [st1 [e|]];
    simpl in *; [exact H1 |].
  pose proof (IH st1) as H2.
  destruct (copy_components copy_rec comps st1) as [st2 [e|comps']]; simpl in *;
    congruence.
Qed.

(** A guarded destination: the call returns at once. *)
Lemma copy_glyph_present depth st s d :
  is_Some (glyf (dst_font st) !! d) -> copy_glyph (S depth) st s d = (st, None).
Proof. intros [g Hg]. rewrite copy_glyph_S, Hg. reflexivity. Qed.

Lemma copy_glyph_raises_unchanged st s d st' e :
  copy_glyph 0 st s d = (st', Some e) -> st' = st /\ e = RecursionError.
Proof. intros [= <- <-]. tauto. Qed.

(** A call that returns has some depth left. *)
Lemma copy_glyph_ok_depth depth st s d st' :
  copy_glyph depth st s d = (st', None) -> exists depth', depth = S depth'.
Proof. destruct depth; [discriminate | eauto]. Qed.

(** The loop, when it completes: the copy's references are the renamed
    ones and every component is in the base under its new name. *)
Lemma copy_components_ok depth : forall comps st st' comps',
  copy_components (copy_glyph depth) comps st = (st', inr comps') ->
  comps' = rename_component <$> comps /\
  forall c, c ∈ comps -> is_Some (glyf (dst_font st') !! ens_name (glyphName c)).
Proof.
  induction comps as [|c comps IH]; intros st st' comps'; simpl.
  - intros [= <- <-]. split; [reflexivity |]. intros c Hc. inversion Hc.
  - destruct (copy_glyph depth st (glyphName c) (ens_name (glyphName c)))
      as [st1 [e|]] eqn:H1; [discriminate |].
    pose proof (copy_components_preorder outlines_grow (copy_glyph depth)
                  (copy_glyph_grow depth) comps st1) as Hgrow.
    destruct (copy_components (copy_glyph depth) comps st1) as [st2 [e|rest']] eqn:H2;
      [discriminate |].
    intros [= <- <-]. destruct (IH _ _ _ H2) as [-> Hin].
    split; [reflexivity |]. intros c' Hc'.
    apply elem_of_cons in Hc' as [-> | Hc']; [| auto].
    apply copy_glyph_ok_present in H1. apply elem_of_dom. apply Hgrow.
    apply elem_of_dom. exact H1.
Qed.

Lemma copy_composite_ok depth g st st' g' :
  copy_composite (copy_glyph depth) g st = (st', inr g') ->
  g' = renamed g /\
  forall c, c ∈ comps_of g -> is_Some (glyf (dst_font st') !! ens_name (glyphName c)).
Proof.
  destruct g as [cs | comps].
  - intros [= <- <-]. split; [reflexivity |]. intros c Hc. inversion Hc.
  - rewrite copy_composite_eq.
    destruct (copy_components (copy_glyph depth) comps st) as [st1 [e|comps']] eqn:H;
      [discriminate |].
    intros [= <- <-]. destruct (copy_components_ok _ _ _ _ _ H) as [-> Hin].
    split; [reflexivity | exact Hin].
Qed.

(** An outline the loop has added is a donor glyph, renamed, under the new
    name of that glyph. *)
Lemma copy_components_new_entries depth :
  (forall st s d n g,
     glyf (dst_font (copy_glyph depth st s d).1) !! n = Some g ->
     glyf (dst_font st) !! n = None ->
     (n = d /\ exists gs, glyf (src_font st) !! s = Some gs /\ g = renamed gs) \/
     (exists x gx, n = ens_name x /\ glyf (src_font st) !! x = Some gx /\ g = renamed gx)) ->
  forall comps st n g,
    glyf (dst_font (copy_components (copy_glyph depth) comps st).1) !! n = Some g ->
    glyf (dst_font st) !! n = None ->
    exists x gx, n = ens_name x /\ glyf (src_font st) !! x = Some gx /\ g = renamed gx.
Proof.
  intros Hrec. induction comps as [|c comps IH]; intros st n g; simpl.
  - congruence.
  - pose proof (Hrec st (glyphName c) (ens_name (glyphName c)) n) as H1.
    pose proof (copy_glyph_src depth st (glyphName c) (ens_name (glyphName c))) as Hs1.
    destruct (copy_glyph depth st (glyphName c) (ens_name (glyphName c)))
      as [st1 [e|]]; simpl in H1, Hs1.
    + simpl. intros Hn Hnew.
      destruct (H1 g Hn Hnew) as [[-> (gs & Hgs & ->)] | H]; eauto.
    + pose proof (IH st1 n g) as H2.
      pose proof (copy_components_preorder outlines_kept (copy_glyph depth)
                    (copy_glyph_kept depth) comps st1) as Hkept.
      assert (Hgoal : glyf (dst_font (copy_components (copy_glyph depth) comps st1).1)
                        !! n = Some g ->
                      glyf (dst_font st) !! n = None ->
                      exists x gx, n = ens_name x /\
                                   glyf (src_font st) !! x = Some gx /\ g = renamed gx).
      { intros Hn Hnew. destruct (glyf (dst_font st1) !! n) as [g1|] eqn:E1.
        - assert (g = g1) as ->.
          { pose proof (lookup_weaken _ _ _ _ E1 Hkept). congruence. }
          destruct (H1 g1 eq_refl Hnew) as [[-> (gs & Hgs & ->)] | H]; eauto.
        - rewrite Hs1 in H2. apply H2; [exact Hn | reflexivity]. }
      destruct (copy_components (copy_glyph depth) comps st1) as [st2 [e|rest']];
        exact Hgoal.
Qed.

(** An outline [copy_glyph] has added is the donor glyph it was asked to
    copy, renamed, under the destination name, or a donor glyph, renamed,
    under the new name of that glyph. *)
Lemma copy_glyph_new_entries depth : forall st s d n g,
  glyf (dst_font (copy_glyph depth st s d).1) !! n = Some g ->
  glyf (dst_font st) !! n = None ->
  (n = d /\ exists gs, glyf (src_font st) !! s = Some gs /\ g = renamed gs) \/
  (exists x gx, n = ens_name x /\ glyf (src_font st) !! x = Some gx /\ g = renamed gx).
Proof.
  induction depth as [|depth IH]; intros st s d n g.
  - simpl. congruence.
  - rewrite copy_glyph_S.
    destruct (glyf (dst_font st) !! d) eqn:Hd; [simpl; congruence |].
    destruct (glyf (src_font st) !! s) as [gs|] eqn:Hs; [| simpl; congruence].
    pose proof (copy_composite_ok depth gs st) as Hok.
    assert (Hloop : forall n g,
              glyf (dst_font (copy_composite (copy_glyph depth) gs st).1) !! n = Some g ->
              glyf (dst_font st) !! n = None ->
              exists x gx, n = ens_name x /\ glyf (src_font st) !! x = Some gx /\
                           g = renamed gx).
    { destruct gs as [cs | comps]; [simpl; congruence |].
      rewrite copy_composite_eq. intros n' g'.
      pose proof (copy_components_new_entries depth IH comps st n' g') as H.
      destruct (copy_components (copy_glyph depth) comps st) as [st1 [e|comps']];
        exact H. }
    destruct (copy_composite (copy_glyph depth) gs st) as [st1 [e|g']]; simpl in Hloop.
    + simpl. intros Hn Hnew. right. eauto.
    + rewrite store_glyph_glyf. destruct (Hok st1 g' eq_refl) as [-> _].
      destruct (decide (n = d)) as [-> | Hne].
      * rewrite lookup_insert_eq. intros [= <-] _. left. eauto.
      * rewrite lookup_insert_ne by congruence. intros Hn Hnew. right. eauto.
Qed.

(** ** The recursive glyph copy: inserted composites are complete *)

Lemma components_present_mono st st' x :
  src_font st' = src_font st -> outlines_grow st st' ->
  components_present st x -> components_present st' x.
Proof.
  intros Hsrc Hgrow (g & Hg & Hall). exists g. rewrite Hsrc. split; [exact Hg |].
  intros c Hc. apply elem_of_dom, Hgrow, elem_of_dom, Hall, Hc.
Qed.

Lemma copy_components_closed depth :
  (forall st s d x,
     is_Some (glyf (dst_font (copy_glyph depth st s d).1) !! ens_name x) ->
     glyf (dst_font st) !! ens_name x = None ->
     components_present (copy_glyph depth st s d).1 x \/ (ens_name x = d /\ x <> s)) ->
  forall comps st x,
    is_Some (glyf (dst_font (copy_components (copy_glyph depth) comps st).1) !! ens_name x) ->
    glyf (dst_font st) !! ens_name x = None ->
    components_present (copy_components (copy_glyph depth) comps st).1 x.
Proof.
  intros Hrec. induction comps as [|c comps IH]; intros st x; simpl.
  - intros [g Hg] Hnew. congruence.
  - pose proof (Hrec st (glyphName c) (ens_name (glyphName c)) x) as H1.
    destruct (copy_glyph depth st (glyphName c) (ens_name (glyphName c)))
      as [st1 [e|]]; simpl in H1.
    + simpl. intros Hin Hnew.
      destruct (H1 Hin Hnew) as [H | [Heq Hne]]; [exact H |].
      apply ens_name_inj in Heq. contradiction.
    + pose proof (IH st1 x) as H2.
      pose proof (copy_components_preorder outlines_grow (copy_glyph depth)
                    (copy_glyph_grow depth) comps st1) as Hgrow.
      pose proof (copy_components_src (copy_glyph depth) (copy_glyph_src depth)
                    comps st1) as Hsrc.
      assert (Hgoal :
        is_Some (glyf (dst_font (copy_components (copy_glyph depth) comps st1).1)
                   !! ens_name x) ->
        glyf (dst_font st) !! ens_name x = None ->
        components_present (copy_components (copy_glyph depth) comps st1).1 x).
      { intros Hin Hnew. destruct (glyf (dst_font st1) !! ens_name x) as [g1|] eqn:E1.
        - destruct (H1 ltac:(eauto) Hnew) as [H | [Heq Hne]].
          + eapply components_present_mono; eassumption.
          + apply ens_name_inj in Heq. contradiction.
        - apply H2; [exact Hin | reflexivity]. }
      destruct (copy_components (copy_glyph depth) comps st1) as [st2 [e|rest']];
        exact Hgoal.
Qed.

(** A new outline under a component's new name comes with all the
    components of that donor glyph, unless it is the destination of the
    call itself, asked for another glyph. *)
Lemma copy_glyph_closed depth : forall st s d x,
  is_Some (glyf (dst_font (copy_glyph depth st s d).1) !! ens_name x) ->
  glyf (dst_font st) !! ens_name x = None ->
  components_present (copy_glyph depth st s d).1 x \/ (ens_name x = d /\ x <> s).
Proof.
  induction depth as [|depth IH]; intros st s d x.
  - simpl. intros [g0 Hg] Hnew. congruence.
  - rewrite copy_glyph_S.
    destruct (glyf (dst_font st) !! d) eqn:Hd; [simpl; intros [g0 Hg]; congruence |].
    destruct (glyf (src_font st) !! s) as [gs|] eqn:Hs;
      [| simpl; intros [g0 Hg]; congruence].
    pose proof (copy_composite_ok depth gs st) as Hok.
    pose proof (copy_composite_preorder same_but_outlines (copy_glyph depth)
                  (copy_glyph_frame depth) gs st) as [Hsrc _].
    assert (Hloop :
      is_Some (glyf (dst_font (copy_composite (copy_glyph depth) gs st).1) !! ens_name x) ->
      glyf (dst_font st) !! ens_name x = None ->
      components_present (copy_composite (copy_glyph depth) gs st).1 x).
    { destruct gs as [cs | comps]; [simpl; intros [g0 Hg]; congruence |].
      rewrite copy_composite_eq.
      pose proof (copy_components_closed depth IH comps st x) as H.
      destruct (copy_components (copy_glyph depth) comps st) as [st1 [e|comps']];
        exact H. }
    destruct (copy_composite (copy_glyph depth) gs st) as [st1 [e|g']];
      simpl in Hloop, Hsrc.
    + simpl. intros Hin Hnew. left. auto.
    + destruct (Hok st1 g' eq_refl) as [-> Hall].
      pose proof (store_glyph_frame st1 s d (renamed gs)) as [Hsrc2 _].
      pose proof (store_glyph_grow st1 s d (renamed gs)) as Hgrow.
      rewrite store_glyph_glyf. intros Hin Hnew.
      destruct (decide (ens_name x = d)) as [Heq | Hne].
      * destruct (decide (x = s)) as [-> | Hxs]; [| right; tauto].
        left. exists gs. rewrite Hsrc2, Hsrc. split; [exact Hs |].
        intros c Hc. apply elem_of_dom, Hgrow, elem_of_dom, Hall, Hc.
      * rewrite lookup_insert_ne in Hin by congruence. left.
        eapply components_present_mono; [exact Hsrc2 | exact Hgrow | auto].
Qed.

(** ** The recursive glyph copy: calling it again *)

(** With no depth left the loop stops at its first component. *)
Lemma copy_components_no_depth comps st :
  (copy_components (copy_glyph 0) comps st).1 = st.
Proof. destruct comps; reflexivity. Qed.

Lemma store_glyph_returns st s d g :
  is_Some (hmtx (src_font st) !! s) -> (store_glyph st s d g).2 = None.
Proof. intros [m Hm]. unfold store_glyph. simpl. rewrite Hm. reflexivity. Qed.

Lemma copy_components_cons copy_rec c comps st :
  copy_components copy_rec (c :: comps) st =
  match copy_rec st (glyphName c) (ens_name (glyphName c)) with
  | (st1, Some e) => (st1, inl e)
  | (st1, None) =>
      match copy_components copy_rec comps st1 with
      | (st2, inl e) => (st2, inl e)
      | (st2, inr rest') => (st2, inr (rename_component c :: rest'))
      end
  end.
Proof. reflexivity. Qed.

Section CopyAgain.
Variable donor : TTFont.
Hypothesis donor_metrics : has_all_metrics donor.

(** When the loop raises, the component it raised on is not in the base. *)
Lemma copy_components_raise_fresh depth :
  (forall st c st1 e,
     src_font st = donor ->
     copy_glyph (S depth) st c (ens_name c) = (st1, Some e) ->
     glyf (dst_font st) !! ens_name c = None ->
     glyf (dst_font st1) !! ens_name c = None) ->
  forall comps st st' e,
    src_font st = donor ->
    copy_components (copy_glyph (S depth)) comps st = (st', inl e) ->
    exists c, c ∈ comps /\ glyf (dst_font st') !! ens_name (glyphName c) = None.
Proof.
  intros Hrec. induction comps as [|c comps IH]; intros st st' e Hdonor;
    [discriminate |].
  rewrite copy_components_cons.
  pose proof (copy_glyph_src (S depth) st (glyphName c) (ens_name (glyphName c))) as Hs1.
  destruct (copy_glyph (S depth) st (glyphName c) (ens_name (glyphName c)))
    as [st1 [e1|]] eqn:H1; cbn [fst] in Hs1.
  - intros [= <- <-]. exists c. split; [left |].
    destruct (glyf (dst_font st) !! ens_name (glyphName c)) as [g|] eqn:E.
    + rewrite copy_glyph_present in H1 by eauto. discriminate.
    + eapply Hrec; eassumption.
  - destruct (copy_components (copy_glyph (S depth)) comps st1) as [st2 [e2|rest]] eqn:H2;
      [| discriminate].
    intros [= <- <-].
    destruct (IH st1 st2 e2 (eq_trans Hs1 Hdonor) H2) as (c' & Hc' & Hfresh).
    exists c'. split; [right; exact Hc' | exact Hfresh].
Qed.

(** A call for a component that raises has not inserted that component. *)
Lemma copy_glyph_raise_fresh depth : forall st c st1 e,
  src_font st = donor ->
  copy_glyph depth st c (ens_name c) = (st1, Some e) ->
  glyf (dst_font st) !! ens_name c = None ->
  glyf (dst_font st1) !! ens_name c = None.
Proof.
  induction depth as [|depth IH]; intros st c st1 e Hdonor.
  - intros [= <- <-]. tauto.
  - rewrite copy_glyph_S. intros H Hd. rewrite Hd in H.
    destruct (glyf (src_font st) !! c) as [gs|] eqn:Hs;
      [| injection H as <- <-; exact Hd].
    pose proof (copy_composite_preorder same_but_outlines (copy_glyph depth)
                  (copy_glyph_frame depth) gs st) as [Hsrc _].
    destruct (copy_composite (copy_glyph depth) gs st) as [st' [e'|g']] eqn:Hloop;
      cbn [fst] in Hsrc.
    + injection H as <- <-.
      destruct (glyf (dst_font st') !! ens_name c) as [g|] eqn:E; [| reflexivity].
      exfalso.
      destruct gs as [cs | comps]; [discriminate |].
      rewrite copy_composite_eq in Hloop.
      pose proof (copy_components_closed depth (copy_glyph_closed depth) comps st c) as Hcl.
      destruct (copy_components (copy_glyph depth) comps st) as [st2 [e2|comps']] eqn:Hrun;
        [| discriminate].
      injection Hloop as <- <-. cbn [fst] in Hcl.
      destruct (Hcl ltac:(eauto) Hd) as (g0 & Hg0 & Hall).
      rewrite Hsrc, Hs in Hg0. injection Hg0 as <-. cbn [comps_of] in Hall.
      destruct depth as [|depth].
      * pose proof (copy_components_no_depth comps st) as E0.
        rewrite Hrun in E0. cbn [fst] in E0. subst st2. congruence.
      * destruct (copy_components_raise_fresh depth IH comps st st2 e2 Hdonor Hrun)
          as (c' & Hc' & Hf).
        destruct (Hall c' Hc') as [g' Hg']. congruence.
    + exfalso.
      assert (Hret : (store_glyph st' c (ens_name c) g').2 = None).
      { apply store_glyph_returns. rewrite Hsrc, Hdonor. apply donor_metrics.
        rewrite <- Hdonor, Hs. eauto. }
      rewrite H in Hret. discriminate Hret.
Qed.

(** The loop raises again, in the same way, from the state it raised in. *)
Lemma copy_components_raise_again depth :
  (forall st c st1 e,
     src_font st = donor ->
     copy_glyph depth st c (ens_name c) = (st1, Some e) ->
     copy_glyph depth st1 c (ens_name c) = (st1, Some e)) ->
  forall comps st st' e,
    src_font st = donor ->
    copy_components (copy_glyph depth) comps st = (st', inl e) ->
    copy_components (copy_glyph depth) comps st' = (st', inl e).
Proof.
  intros Hrec. induction comps as [|c comps IH]; intros st st' e Hdonor;
    [discriminate |].
  rewrite !copy_components_cons.
  pose proof (copy_glyph_src depth st (glyphName c) (ens_name (glyphName c))) as Hs1.
  destruct (copy_glyph depth st (glyphName c) (ens_name (glyphName c)))
    as [st1 [e1|]] eqn:H1; cbn [fst] in Hs1.
  - intros [= <- <-]. rewrite (Hrec _ _ _ _ Hdonor H1). reflexivity.
  - pose proof (copy_components_preorder outlines_grow (copy_glyph depth)
                  (copy_glyph_grow depth) comps st1) as Hgrow.
    destruct (copy_components (copy_glyph depth) comps st1) as [st2 [e2|rest]] eqn:H2;
      [| discriminate].
    intros [= <- <-]. cbn [fst] in Hgrow.
    destruct (copy_glyph_ok_depth _ _ _ _ _ H1) as [depth' ->].
    rewrite copy_glyph_present.
    + rewrite (IH st1 st2 e2 (eq_trans Hs1 Hdonor) H2). reflexivity.
    + apply elem_of_dom, Hgrow, elem_of_dom. eapply copy_glyph_ok_present. exact H1.
Qed.

(** A call for a component that raises raises again, in the same way and
    with no further effect. *)
Lemma copy_glyph_raise_again depth : forall st c st1 e,
  src_font st = donor ->
  copy_glyph depth st c (ens_name c) = (st1, Some e) ->
  copy_glyph depth st1 c (ens_name c) = (st1, Some e).
Proof.
  induction depth as [|depth IH]; intros st c st1 e Hdonor H.
  - injection H as <- <-. reflexivity.
  - pose proof (copy_glyph_src (S depth) st c (ens_name c)) as Hsrc1.
    rewrite H in Hsrc1. cbn [fst] in Hsrc1.
    destruct (glyf (dst_font st) !! ens_name c) as [g|] eqn:Hd.
    { rewrite copy_glyph_present in H by eauto. discriminate. }
    pose proof (copy_glyph_raise_fresh (S depth) st c st1 e Hdonor H Hd) as Hfresh.
    rewrite copy_glyph_S in H. rewrite Hd in H.
    rewrite copy_glyph_S, Hfresh, Hsrc1.
    destruct (glyf (src_font st) !! c) as [gs|] eqn:Hs;
      [| injection H as <- <-; reflexivity].
    pose proof (copy_composite_preorder same_but_outlines (copy_glyph depth)
                  (copy_glyph_frame depth) gs st) as [Hsrc _].
    destruct (copy_composite (copy_glyph depth) gs st) as [st' [e'|g']] eqn:Hloop;
      cbn [fst] in Hsrc.
    + injection H as <- <-.
      destruct gs as [cs | comps]; [discriminate |].
      rewrite copy_composite_eq in Hloop. rewrite copy_composite_eq.
      destruct (copy_components (copy_glyph depth) comps st) as [st2 [e2|comps']] eqn:Hrun;
        [| discriminate].
      injection Hloop as <- <-.
      rewrite (copy_components_raise_again depth IH comps st st2 e2 Hdonor Hrun).
      reflexivity.
    + exfalso.
      assert (Hret : (store_glyph st' c (ens_name c) g').2 = None).
      { apply store_glyph_returns. rewrite Hsrc, Hdonor. apply donor_metrics.
        rewrite <- Hdonor, Hs. eauto. }
      rewrite H in Hret. discriminate Hret.
Qed.

(** Calling [copy_glyph] again, with the same names, changes nothing more. *)
Lemma copy_glyph_twice depth st s d :
  src_font st = donor ->
  (copy_glyph depth (copy_glyph depth st s d).1 s d).1 = (copy_glyph depth st s d).1.
Proof.
  intros Hdonor. destruct depth as [|depth]; [reflexivity |].
  destruct (copy_glyph (S depth) st s d) as [st1 r] eqn:H. cbn [fst].
  destruct (glyf (dst_font st1) !! d) as [g1|] eqn:Hd1.
  { rewrite copy_glyph_present by eauto. reflexivity. }
  pose proof (copy_glyph_src (S depth) st s d) as Hsrc1.
  rewrite H in Hsrc1. cbn [fst] in Hsrc1.
  destruct r as [e|].
  2:{ apply copy_glyph_ok_present in H. rewrite Hd1 in H. destruct H; discriminate. }
  rewrite copy_glyph_S in H. rewrite copy_glyph_S, Hd1, Hsrc1.
  destruct (glyf (dst_font st) !! d) as [g|] eqn:Hd; [congruence |].
  destruct (glyf (src_font st) !! s) as [gs|] eqn:Hs;
    [| injection H as <- <-; reflexivity].
  destruct (copy_composite (copy_glyph depth) gs st) as [st' [e'|g']] eqn:Hloop.
  - injection H as <- <-.
    destruct gs as [cs | comps]; [discriminate |].
    rewrite copy_composite_eq in Hloop. rewrite copy_composite_eq.
    destruct (copy_components (copy_glyph depth) comps st) as [st2 [e2|comps']] eqn:Hrun;
      [| discriminate].
    injection Hloop as <- <-.
    rewrite (copy_components_raise_again depth (copy_glyph_raise_again depth)
               comps st st2 e2 Hdonor Hrun).
    reflexivity.
  - exfalso. pose proof (store_glyph_glyf st' s d g') as E. rewrite H in E.
    cbn [fst] in E. rewrite E, lookup_insert_eq in Hd1. discriminate.
Qed.
End CopyAgain.

(** ** The recursive glyph copy: deduplication and composites *)

Lemma copy_glyph_guard depth st s d :
  is_Some (glyf (dst_font st) !! d) -> (copy_glyph depth st s d).1 = st.
Proof.
  intros H. destruct depth; [reflexivity |].
  rewrite copy_glyph_present by exact H. reflexivity.
Qed.

(** C4: when the destination name is in the base's outline table,
    [copy_glyph] returns the fonts as they are (outlines and horizontal
    metrics included); the second of two components with the same name is
    therefore not copied again, and the outline table after copying the
    composite is the table after the one copy of the component plus the
    composite; a call that returned is followed by a call, for the same
    destination, that changes nothing; and, for a donor whose glyphs all
    have horizontal metrics, a second call with the same names changes
    nothing after a first call that raised either. *)
Theorem copy_glyph_dedup (depth : nat) (st : Fonts) (s d : string) :
  (is_Some (glyf (dst_font st) !! d) ->
   (copy_glyph depth st s d).1 = st /\ copy_glyph (S depth) st s d = (st, None)) /\
  (forall c1 c2 st1,
     glyphName c1 = glyphName c2 ->
     glyf (dst_font st) !! d = None ->
     glyf (src_font st) !! s = Some (CompositeGlyph [c1; c2]) ->
     copy_glyph depth st (glyphName c1) (ens_name (glyphName c1)) = (st1, None) ->
     copy_glyph depth st1 (glyphName c2) (ens_name (glyphName c2)) = (st1, None) /\
     glyf (dst_font (copy_glyph (S depth) st s d).1) =
     <[d := CompositeGlyph [rename_component c1; rename_component c2]]>
       (glyf (dst_font st1))) /\
  (forall st1 s',
     copy_glyph depth st s d = (st1, None) ->
     copy_glyph depth st1 s' d = (st1, None)) /\
  (has_all_metrics (src_font st) ->
   (copy_glyph depth (copy_glyph depth st s d).1 s d).1 = (copy_glyph depth st s d).1).
Proof.
  split; [| split; [| split]].
  - intros H. split; [apply copy_glyph_guard, H | apply copy_glyph_present, H].
  - intros c1 c2 st1 Hname Hd Hs H1.
    assert (H2 : copy_glyph depth st1 (glyphName c2) (ens_name (glyphName c2))
                 = (st1, None)).
    { destruct (copy_glyph_ok_depth _ _ _ _ _ H1) as [depth' ->].
      apply copy_glyph_present. rewrite <- Hname.
      eapply copy_glyph_ok_present. exact H1. }
    split; [exact H2 |].
    rewrite copy_glyph_S, Hd, Hs. unfold copy_composite.
    rewrite copy_components_cons, H1, copy_components_cons, H2.
    cbn [copy_components].
    apply store_glyph_glyf.
  - intros st1 s' H. destruct (copy_glyph_ok_depth _ _ _ _ _ H) as [depth' ->].
    apply copy_glyph_present. eapply copy_glyph_ok_present. exact H.
  - intros Hm. apply (copy_glyph_twice (src_font st) Hm). reflexivity.
Qed.

Lemma has_all_metrics_colon_donor : has_all_metrics colon_donor.
Proof.
  intros n [g Hg]. unfold colon_donor, sample_font in *. cbn [glyf hmtx] in *.
  apply lookup_insert_Some in Hg as [[<- _] | [_ Hg]]; [vm_compute; eauto |].
  apply lookup_singleton_Some in Hg as [<- _]. vm_compute. eauto.
Defined.

Lemma copy_glyph_dedup_witness :
  let st := mkFonts colon_donor plain_base in
  let once := (copy_glyph 5 st "colon" "mes_uni003A").1 in
  (copy_glyph 5 once "colon" "mes_uni003A").1 = once.
Proof.
  exact (proj2 (proj2 (proj2 (copy_glyph_dedup 5 (mkFonts colon_donor plain_base)
                                "colon" "mes_uni003A")))
           has_all_metrics_colon_donor).
Defined.

(** The shared component on the scenario font: the base gains the
    composite and one "_ens_period", nothing else. *)
Example copy_colon_once :
  let g := glyf (dst_font (copy_glyph 5 (mkFonts colon_donor plain_base)
                             "colon" "mes_uni003A").1) in
  size (glyf plain_base) = 1%nat /\ size g = 3%nat /\
  g !! "_ens_period"%string = Some (SimpleGlyph [[(0, 0); (100, 100)]]) /\
  g !! "mes_uni003A"%string =
    Some (CompositeGlyph [mkComponent "_ens_period" 0 0 0;
                          mkComponent "_ens_period" 0 400 0]).
Proof. vm_compute. repeat split. Qed.

(** What a donor glyph without horizontal metrics does to a repeated call:
    the first call below raises after it has written "_ens_A", and a second
    call, finding "_ens_A", goes on to copy "B" and the composite.  The
    data model rules such a donor out ([has_all_metrics]). *)
Example copy_twice_without_metrics :
  let donor :=
    sample_font []
      (<[ "X"%string := CompositeGlyph [mkComponent "A" 0 0 0; mkComponent "B" 0 0 0] ]>
         (<[ "A"%string := SimpleGlyph [] ]> {[ "B"%string := SimpleGlyph [] ]}))
      (<[ "X"%string := (600, 0) ]> {[ "B"%string := (600, 0) ]}) in
  let once := copy_glyph 5 (mkFonts donor plain_base) "X" "d" in
  let twice := copy_glyph 5 once.1 "X" "d" in
  once.2 = Some (KeyError "A") /\ twice.2 = None /\
  glyf (dst_font once.1) !! "d"%string = None /\
  is_Some (glyf (dst_font twice.1) !! "d"%string).
Proof. vm_compute. repeat split. eauto. Qed.

Lemma store_glyph_ok st s d g st' :
  store_glyph st s d g = (st', None) ->
  glyf (dst_font st') = <[d := g]> (glyf (dst_font st)) /\
  exists m, hmtx (src_font st) !! s = Some m /\
            hmtx (dst_font st') = <[d := m]> (hmtx (dst_font st)).
Proof.
  destruct (glyf_setitem_fields (dst_font st) d g) as (_ & Hg & Hh & _).
  unfold store_glyph. cbn [src_font set_dst].
  destruct (hmtx (src_font st) !! s) as [m|]; [| discriminate].
  intros [= <-]. split; [exact Hg |]. exists m. split; [reflexivity |].
  change (<[d := m]> (hmtx (glyf_setitem (dst_font st) d g)) =
          <[d := m]> (hmtx (dst_font st))).
  rewrite Hh. reflexivity.
Qed.

(** C5: when [copy_glyph] copies a donor composite (its destination is not
    in the base yet and the call returns), the base holds under the
    destination name the composite with every reference renamed to
    "_ens_" + the component's original name, placement unchanged; that new
    name differs from the original one and is in the base's outline table;
    where it was not there before, it holds the donor's component glyph,
    renamed in turn, and every outline added under such a name has all its
    own components in the base; the composite's horizontal metrics are the
    donor's; and the donor is as it was. *)
Theorem copy_glyph_composite (depth : nat) (st st' : Fonts) (s d : string)
    (comps : list Component) :
  glyf (dst_font st) !! d = None ->
  glyf (src_font st) !! s = Some (CompositeGlyph comps) ->
  copy_glyph depth st s d = (st', None) ->
  glyf (dst_font st') !! d = Some (CompositeGlyph (rename_component <$> comps)) /\
  (forall c, c ∈ comps ->
     glyphName (rename_component c) = ens_name (glyphName c) /\
     ens_name (glyphName c) = ("_ens_" +:+ glyphName c)%string /\
     ens_name (glyphName c) <> glyphName c /\
     (comp_x (rename_component c), comp_y (rename_component c),
      comp_flags (rename_component c)) = (comp_x c, comp_y c, comp_flags c) /\
     is_Some (glyf (dst_font st') !! ens_name (glyphName c)) /\
     (glyf (dst_font st) !! ens_name (glyphName c) = None ->
      ens_name (glyphName c) <> d ->
      exists gc, glyf (src_font st) !! glyphName c = Some gc /\
                 glyf (dst_font st') !! ens_name (glyphName c) = Some (renamed gc))) /\
  (forall x, is_Some (glyf (dst_font st') !! ens_name x) ->
             glyf (dst_font st) !! ens_name x = None -> ens_name x <> d ->
             components_present st' x) /\
  hmtx (dst_font st') !! d = hmtx (src_font st) !! s /\
  src_font st' = src_font st /\
  glyf (src_font st') !! s = Some (CompositeGlyph comps).
Proof.
  intros Hd Hs H.
  pose proof (copy_glyph_src depth st s d) as Hsrc. rewrite H in Hsrc. cbn [fst] in Hsrc.
  pose proof (copy_glyph_new_entries depth st s d) as Hnew. rewrite H in Hnew.
  cbn [fst] in Hnew.
  pose proof (copy_glyph_closed depth st s d) as Hclosed. rewrite H in Hclosed.
  cbn [fst] in Hclosed.
  destruct (copy_glyph_ok_depth _ _ _ _ _ H) as [depth' ->].
  rewrite copy_glyph_S, Hd, Hs in H.
  pose proof (copy_composite_ok depth' (CompositeGlyph comps) st) as Hok.
  pose proof (copy_composite_preorder same_but_outlines (copy_glyph depth')
                (copy_glyph_frame depth') (CompositeGlyph comps) st) as [Hsrc1 _].
  destruct (copy_composite (copy_glyph depth') (CompositeGlyph comps) st)
    as [st1 [e|g']]; [discriminate |].
  cbn [fst] in Hsrc1.
  destruct (Hok st1 g' eq_refl) as [-> Hall]. cbn [comps_of renamed] in *.
  pose proof (store_glyph_grow st1 s d (CompositeGlyph (rename_component <$> comps)))
    as Hgrow. rewrite H in Hgrow. cbn [fst] in Hgrow.
  apply store_glyph_ok in H as [Hglyf (m & Hm & Hhmtx)].
  split; [rewrite Hglyf; apply lookup_insert_eq |].
  split.
  { intros c Hc. split; [reflexivity |]. split; [reflexivity |].
    split; [apply ens_name_fresh |]. split; [reflexivity |].
    assert (Hin : is_Some (glyf (dst_font st') !! ens_name (glyphName c))).
    { apply elem_of_dom, Hgrow, elem_of_dom, Hall, Hc. }
    split; [exact Hin |]. intros Hfresh Hne. destruct Hin as [g Hg].
    destruct (Hnew _ _ Hg Hfresh) as [[Heq _] | (x & gx & Hx & Hgx & ->)];
      [contradiction |].
    apply ens_name_inj in Hx as <-. eauto. }
  split.
  { intros x Hin Hfresh Hne.
    destruct (Hclosed x Hin Hfresh) as [Hp | [Heq _]]; [exact Hp | contradiction]. }
  split; [rewrite Hhmtx, lookup_insert_eq, <- Hsrc1; symmetry; exact Hm |].
  split; [exact Hsrc | rewrite Hsrc; exact Hs].
Qed.

Lemma copy_glyph_composite_witness :
  exists st',
    copy_glyph 5 (mkFonts accented_donor plain_base) "Aacute" "mes_uni00C1" = (st', None) /\
    glyf (dst_font st') !! "mes_uni00C1"%string =
      Some (CompositeGlyph [mkComponent "_ens_A" 0 0 0;
                            mkComponent "_ens_acutecomb" 120 700 0]) /\
    src_font st' = accented_donor.
Proof.
  eexists. split; [reflexivity |].
  destruct (copy_glyph_composite 5 (mkFonts accented_donor plain_base) _
              "Aacute" "mes_uni00C1"
              [mkComponent "A" 0 0 0; mkComponent "acutecomb" 120 700 0]
              eq_refl eq_refl eq_refl) as (Hd & _ & _ & _ & Hsrc & _).
  split; [exact Hd | exact Hsrc].
Defined.

(** ** Two scenarios, run *)

(** A base mapping U+4E2D and a donor mapping U+0041: both codepoints are
    mapped afterwards, U+4E2D as before, and both glyphs are outlines. *)
Example scenario_gap_fill :
  match transplant_glyphs map_to_list 100 (mkFonts latin_donor plain_base) "mes_" with
  | inr R =>
      count R = 1%nat /\ warnings R = [] /\
      (cmap <$> cmap_tables (dst_font (fonts R))) !! 0%nat ≫= (.!! 0x4E2D)
        = Some "cjk_zhong"%string /\
      (cmap <$> cmap_tables (dst_font (fonts R))) !! 0%nat ≫= (.!! 0x41)
        = Some "mes_uni0041"%string /\
      size (glyf (dst_font (fonts R))) = 2%nat
  | inl _ => False
  end.
Proof. vm_compute. repeat split. Qed.

(** A donor composite "Aacute" of "A" and "acutecomb": three new outlines,
    the composite pointing at the renamed components. *)
Example scenario_composite :
  match transplant_glyphs map_to_list 100 (mkFonts accented_donor plain_base) "mes_" with
  | inr R =>
      count R = 1%nat /\
      size (glyf (dst_font (fonts R))) = 4%nat /\
      glyf (dst_font (fonts R)) !! "mes_uni00C1"%string =
        Some (CompositeGlyph [mkComponent "_ens_A" 0 0 0;
                              mkComponent "_ens_acutecomb" 120 700 0]) /\
      is_Some (glyf (dst_font (fonts R)) !! "_ens_A"%string) /\
      is_Some (glyf (dst_font (fonts R)) !! "_ens_acutecomb"%string)
  | inl _ => False
  end.
Proof. vm_compute. repeat split; eauto. Qed.

(** * Further properties of the merge engine *)

(** ** set_os2_metrics: flags and coverage bits *)

Lemma testbit_use_typo_metrics i : Z.testbit 0x80 i = (i =? 7).
Proof.
  change 0x80 with (2 ^ 7). rewrite Z.pow2_bits_eqb by lia. apply Z.eqb_sym.
Qed.

(** X1: [set_os2_metrics] sets bit 7 of [fsSelection] and keeps its other
    bits, sets [fsType] to 0, makes each Unicode-range word the bitwise OR
    of the base's and the donor's (no declared bit of either is lost, none
    is invented), takes the line gaps and the height hints from the donor,
    and touches no table but OS/2 and hhea. *)
Theorem set_os2_metrics_flags (font meslo_ref : TTFont) :
  let font' := set_os2_metrics font meslo_ref in
  fsType (os2 font') = 0 /\
  Z.testbit (fsSelection (os2 font')) 7 = true /\
  (forall i, i <> 7 ->
     Z.testbit (fsSelection (os2 font')) i = Z.testbit (fsSelection (os2 font)) i) /\
  (forall i,
     Z.testbit (ulUnicodeRange1 (os2 font')) i =
       Z.testbit (ulUnicodeRange1 (os2 meslo_ref)) i
       || Z.testbit (ulUnicodeRange1 (os2 font)) i /\
     Z.testbit (ulUnicodeRange2 (os2 font')) i =
       Z.testbit (ulUnicodeRange2 (os2 meslo_ref)) i
       || Z.testbit (ulUnicodeRange2 (os2 font)) i /\
     Z.testbit (ulUnicodeRange3 (os2 font')) i =
       Z.testbit (ulUnicodeRange3 (os2 meslo_ref)) i
       || Z.testbit (ulUnicodeRange3 (os2 font)) i /\
     Z.testbit (ulUnicodeRange4 (os2 font')) i =
       Z.testbit (ulUnicodeRange4 (os2 meslo_ref)) i
       || Z.testbit (ulUnicodeRange4 (os2 font)) i) /\
  (sTypoLineGap (os2 font'), lineGap (hhea font'), sxHeight (os2 font'),
   sCapHeight (os2 font')) =
  (sTypoLineGap (os2 meslo_ref), lineGap (hhea meslo_ref), sxHeight (os2 meslo_ref),
   sCapHeight (os2 meslo_ref)) /\
  (cmap_tables font', glyf font', hmtx font', vmtx font', glyphOrder font', vhea font') =
  (cmap_tables font, glyf font, hmtx font, vmtx font, glyphOrder font, vhea font).
Proof.
  cbv zeta. unfold set_os2_metrics.
  cbn [os2 hhea set_os2 set_hhea fsType fsSelection ulUnicodeRange1 ulUnicodeRange2
       ulUnicodeRange3 ulUnicodeRange4 sTypoLineGap lineGap sxHeight sCapHeight
       cmap_tables glyf hmtx vmtx glyphOrder vhea].
  split; [reflexivity |]. split.
  { rewrite Z.lor_spec, testbit_use_typo_metrics. apply orb_true_r. }
  split.
  { intros i Hi. rewrite Z.lor_spec, testbit_use_typo_metrics.
    destruct (Z.eqb_spec i 7); [contradiction | apply orb_false_r]. }
  split.
  { intros i. rewrite !Z.lor_spec. repeat split. }
  split; reflexivity.
Qed.

(** X2: running [set_os2_metrics] again with the same donor changes
    nothing. *)
Theorem set_os2_metrics_idempotent (font meslo_ref : TTFont) :
  set_os2_metrics (set_os2_metrics font meslo_ref) meslo_ref =
  set_os2_metrics font meslo_ref.
Proof.
  unfold set_os2_metrics.
  cbn [os2 hhea set_os2 set_hhea fsType fsSelection ulUnicodeRange1 ulUnicodeRange2
       ulUnicodeRange3 ulUnicodeRange4 cmap_tables glyf hmtx vmtx glyphOrder vhea].
  rewrite <- (Z.lor_assoc (fsSelection (os2 font))), Z.lor_diag.
  rewrite !Z.lor_assoc, !Z.lor_diag. reflexivity.
Qed.

(** ** ensure_cmap_subtables *)

Lemma find_app_cmap (p : CmapSubtable -> bool) (l k : list CmapSubtable) :
  find p (l ++ k) = match find p l with Some t => Some t | None => find p k end.
Proof.
  induction l as [|t l IH]; simpl; [reflexivity |].
  destruct (p t); [reflexivity | exact IH].
Qed.

(** What [ensure_cmap_subtables] appends, case by case. *)
Lemma ensure_cmap_subtables_cases font font' :
  ensure_cmap_subtables font = inr font' ->
  exists best,
    get_best_cmap font = inr best /\
    cmap_tables font' =
      (cmap_tables font ++
       (if existsb (fun t => format t =? 4) (cmap_tables font) then []
        else [mkSubtable 3 1 4 0 (bmp_part best)])) ++
      (if existsb (fun t => format t =? 12) (cmap_tables font) then []
       else [mkSubtable 3 10 12 0 best]) /\
    font' = set_cmap_tables font (cmap_tables font').
Proof.
  unfold ensure_cmap_subtables.
  destruct (get_best_cmap font) as [e|best]; [discriminate |].
  intros [= <-]. exists best. split; [reflexivity |].
  cbn [cmap_tables set_cmap_tables].
  destruct (existsb (fun t => format t =? 4) (cmap_tables font)),
    (existsb (fun t => format t =? 12) (cmap_tables font));
    rewrite ?app_nil_r; split; reflexivity.
Qed.

Lemma existsb_format (n : Z) (ts : list CmapSubtable) :
  existsb (fun t => format t =? n) ts = true <-> exists t, t ∈ ts /\ format t = n.
Proof.
  rewrite existsb_exists. split.
  - intros (t & Hin & Ht). exists t. split; [apply list_elem_of_In, Hin | lia].
  - intros (t & Hin & Ht). exists t. split; [apply list_elem_of_In, Hin | lia].
Qed.

(** X3: [ensure_cmap_subtables] fails exactly when the resolver does, with
    the resolver's error; otherwise the font keeps its subtables in place
    and has, afterwards, a format-4 and a format-12 subtable: a missing
    format-4 one is appended as the Windows BMP subtable holding exactly
    the BMP part of the resolved mapping, a missing format-12 one as the
    Windows full-Unicode subtable holding all of it, and nothing else is
    appended or changed. *)
Theorem ensure_cmap_subtables_coverage (font : TTFont) :
  match ensure_cmap_subtables font with
  | inl e => get_best_cmap font = inl e
  | inr font' =>
      exists best added,
        get_best_cmap font = inr best /\
        cmap_tables font' = cmap_tables font ++ added /\
        font' = set_cmap_tables font (cmap_tables font') /\
        (exists t, t ∈ cmap_tables font' /\ format t = 4) /\
        (exists t, t ∈ cmap_tables font' /\ format t = 12) /\
        (forall t, t ∈ added ->
           (t = mkSubtable 3 1 4 0 (bmp_part best) /\
            (forall cp, cmap t !! cp =
                        if decide (cp <= 0xFFFF) then best !! cp else None) /\
            ~ exists t0, t0 ∈ cmap_tables font /\ format t0 = 4) \/
           (t = mkSubtable 3 10 12 0 best /\
            ~ exists t0, t0 ∈ cmap_tables font /\ format t0 = 12)) /\
        (length added <= 2)%nat
  end.
Proof.
  destruct (ensure_cmap_subtables font) as [e|font'] eqn:He.
  - unfold ensure_cmap_subtables in He.
    destruct (get_best_cmap font) as [e'|best]; [congruence | discriminate].
  - destruct (ensure_cmap_subtables_cases _ _ He) as (best & Hbest & Htab & Hfont).
    assert (Hbmp : forall cp, bmp_part best !! cp =
                              if decide (cp <= 0xFFFF) then best !! cp else None).
    { intros cp. unfold bmp_part. destruct (decide (cp <= 0xFFFF)) as [Hle | Hgt].
      - destruct (best !! cp) as [v|] eqn:E.
        + apply map_lookup_filter_Some. split; [exact E | exact Hle].
        + apply map_lookup_filter_None. left. exact E.
      - apply map_lookup_filter_None. right. intros v _. exact Hgt. }
    exists best.
    destruct (existsb (fun t => format t =? 4) (cmap_tables font)) eqn:H4;
      destruct (existsb (fun t => format t =? 12) (cmap_tables font)) eqn:H12;
      rewrite <- app_assoc in Htab; cbn [app] in Htab.
    + exists []. apply existsb_format in H4 as (t4 & Hin4 & Hf4).
      apply existsb_format in H12 as (t12 & Hin12 & Hf12).
      rewrite Htab, app_nil_r.
      split; [exact Hbest |]. split; [reflexivity |].
      split; [rewrite Hfont, Htab, app_nil_r; reflexivity |].
      split; [eauto |]. split; [eauto |].
      split; [intros t Ht; inversion Ht | simpl; lia].
    + exists [mkSubtable 3 10 12 0 best].
      apply existsb_format in H4 as (t4 & Hin4 & Hf4).
      split; [exact Hbest |]. split; [exact Htab |]. split; [exact Hfont |].
      rewrite Htab.
      split; [exists t4; split; [apply elem_of_app; left; exact Hin4 | exact Hf4] |].
      split.
      { exists (mkSubtable 3 10 12 0 best).
        split; [apply elem_of_app; right; left | reflexivity]. }
      split; [| simpl; lia].
      intros t Ht. apply list_elem_of_singleton in Ht as ->. right.
      split; [reflexivity |]. intros H. apply existsb_format in H. congruence.
    + exists [mkSubtable 3 1 4 0 (bmp_part best)].
      apply existsb_format in H12 as (t12 & Hin12 & Hf12).
      split; [exact Hbest |]. split; [exact Htab |]. split; [exact Hfont |].
      rewrite Htab.
      split.
      { exists (mkSubtable 3 1 4 0 (bmp_part best)).
        split; [apply elem_of_app; right; left | reflexivity]. }
      split; [exists t12; split; [apply elem_of_app; left; exact Hin12 | exact Hf12] |].
      split; [| simpl; lia].
      intros t Ht. apply list_elem_of_singleton in Ht as ->. left.
      split; [reflexivity |]. split; [exact Hbmp |].
      intros H. apply existsb_format in H. congruence.
    + exists [mkSubtable 3 1 4 0 (bmp_part best); mkSubtable 3 10 12 0 best].
      split; [exact Hbest |]. split; [exact Htab |]. split; [exact Hfont |].
      rewrite Htab.
      split.
      { exists (mkSubtable 3 1 4 0 (bmp_part best)).
        split; [apply elem_of_app; right; left | reflexivity]. }
      split.
      { exists (mkSubtable 3 10 12 0 best).
        split; [apply elem_of_app; right; right; left | reflexivity]. }
      split; [| simpl; lia].
      intros t Ht. apply elem_of_cons in Ht as [-> | Ht].
      * left. split; [reflexivity |]. split; [exact Hbmp |].
        intros H. apply existsb_format in H. congruence.
      * apply list_elem_of_singleton in Ht as ->. right.
        split; [reflexivity |]. intros H. apply existsb_format in H. congruence.
Qed.

Lemma set_cmap_tables_same font : set_cmap_tables font (cmap_tables font) = font.
Proof. destruct font. reflexivity. Qed.

Lemma get_best_cmap_app_some font font' extra m :
  get_best_cmap font = inr m ->
  cmap_tables font' = cmap_tables font ++ extra ->
  exists m', get_best_cmap font' = inr m'.
Proof.
  unfold get_best_cmap. intros H ->. rewrite !find_app_cmap.
  destruct (find is_win_full (cmap_tables font)); [eauto |].
  destruct (find is_win_full extra); [eauto |].
  destruct (find is_win_bmp (cmap_tables font)); [eauto |].
  destruct (find is_win_bmp extra); [eauto |].
  destruct (find is_unicode_platform (cmap_tables font)); [eauto | discriminate].
Qed.

(** X4: [ensure_cmap_subtables] is idempotent: a font it has returned is
    returned as it is by a second call. *)
Theorem ensure_cmap_subtables_idempotent (font font' : TTFont) :
  ensure_cmap_subtables font = inr font' ->
  ensure_cmap_subtables font' = inr font'.
Proof.
  intros He.
  destruct (ensure_cmap_subtables_cases _ _ He) as (best & Hbest & Htab & _).
  rewrite <- app_assoc in Htab.
  destruct (get_best_cmap_app_some _ font' _ _ Hbest Htab) as [m' Hm'].
  assert (H4 : existsb (fun t => format t =? 4) (cmap_tables font') = true).
  { rewrite Htab, !existsb_app.
    destruct (existsb (fun t => format t =? 4) (cmap_tables font)); [reflexivity |].
    reflexivity. }
  assert (H12 : existsb (fun t => format t =? 12) (cmap_tables font') = true).
  { rewrite Htab, !existsb_app.
    destruct (existsb (fun t => format t =? 12) (cmap_tables font));
      [reflexivity |].
    destruct (existsb (fun t => format t =? 4) (cmap_tables font)); reflexivity. }
  unfold ensure_cmap_subtables. rewrite Hm', H4, H12, set_cmap_tables_same.
  reflexivity.
Qed.

Lemma ensure_cmap_subtables_idempotent_witness :
  exists font', ensure_cmap_subtables plain_base = inr font' /\
                ensure_cmap_subtables font' = inr font'.
Proof.
  eexists. split; [reflexivity |].
  apply (ensure_cmap_subtables_idempotent plain_base). reflexivity.
Defined.

Lemma bmp_part_lookup (m : gmap Z string) (cp : Z) :
  bmp_part m !! cp = if decide (cp <= 0xFFFF) then m !! cp else None.
Proof.
  unfold bmp_part. destruct (decide (cp <= 0xFFFF)) as [Hle | Hgt].
  - destruct (m !! cp) as [v|] eqn:E.
    + apply map_lookup_filter_Some. split; [exact E | exact Hle].
    + apply map_lookup_filter_None. left. exact E.
  - apply map_lookup_filter_None. right. intros v _. exact Hgt.
Qed.

Lemma first_matching_elem (P : CmapSubtable -> Prop) ts t :
  first_matching P ts t -> t ∈ ts /\ P t.
Proof.
  intros (before & after & -> & Ht & _). split; [| exact Ht].
  apply elem_of_app. right. left.
Qed.

(** X5: the resolved mapping after [ensure_cmap_subtables].  For a font
    with no Windows-Unicode subtable ((3, 10) or (3, 1)), some format-12
    subtable and no format-4 one, the appended (3, 1) subtable becomes the
    preferred one and the resolved mapping is cut down to its codepoints up
    to 0xFFFF; for every other font the resolved mapping is the one
    before. *)
Theorem ensure_cmap_subtables_resolved (font font' : TTFont) (best : gmap Z string) :
  ensure_cmap_subtables font = inr font' ->
  get_best_cmap font = inr best ->
  (wide_outside_windows font ->
   exists m', get_best_cmap font' = inr m' /\
              forall cp, m' !! cp = if decide (cp <= 0xFFFF) then best !! cp else None) /\
  (~ wide_outside_windows font -> get_best_cmap font' = inr best).
Proof.
  intros He Hbest.
  destruct (ensure_cmap_subtables_cases _ _ He) as (best' & Hbest' & Htab & _).
  assert (best' = best) as -> by congruence. clear Hbest'.
  assert (Hcases : (get_best_cmap font' = inr best /\ ~ wide_outside_windows font) \/
                   (get_best_cmap font' = inr (bmp_part best) /\
                    wide_outside_windows font)).
  { unfold get_best_cmap in *. rewrite Htab, !find_app_cmap.
    destruct (find is_win_full (cmap_tables font)) as [t|] eqn:F1.
    { left. split; [exact Hbest |]. intros (Hall & _).
      apply find_wide, first_matching_elem in F1 as [Hin Ht].
      rewrite Forall_forall in Hall. destruct (Hall t Hin) as [Hn _]. exact (Hn Ht). }
    destruct (existsb (fun t => format t =? 12) (cmap_tables font)) eqn:H12.
    2:{ left. split.
        - destruct (existsb (fun t => format t =? 4) (cmap_tables font)); reflexivity.
        - intros (_ & H & _). apply existsb_format in H. congruence. }
    simpl (find _ []).
    destruct (find is_win_bmp (cmap_tables font)) as [t|] eqn:F2.
    { left. split.
      - destruct (existsb (fun t => format t =? 4) (cmap_tables font)); exact Hbest.
      - intros (Hall & _).
        apply find_narrow, first_matching_elem in F2 as [Hin Ht].
        rewrite Forall_forall in Hall. destruct (Hall t Hin) as [_ Hn]. exact (Hn Ht). }
    destruct (existsb (fun t => format t =? 4) (cmap_tables font)) eqn:H4.
    { left. split.
      - simpl. destruct (find is_unicode_platform (cmap_tables font)); exact Hbest.
      - intros (_ & _ & H). apply H. apply existsb_format. exact H4. }
    right. split; [reflexivity |]. split.
    { apply find_wide_none in F1. apply find_narrow_none in F2.
      rewrite Forall_forall in *. auto. }
    split; [apply existsb_format; exact H12 |].
    intros H. apply existsb_format in H. congruence. }
  split.
  - intros Hw. destruct Hcases as [[_ Hn] | [H _]]; [contradiction |].
    exists (bmp_part best). split; [exact H | apply bmp_part_lookup].
  - intros Hn. destruct Hcases as [[H _] | [_ Hw]]; [exact H | contradiction].
Qed.

Lemma ensure_cmap_subtables_resolved_witness :
  exists font' best,
    ensure_cmap_subtables unicode_only_font = inr font' /\
    get_best_cmap unicode_only_font = inr best /\
    best !! 0x1F600 = Some "smile"%string /\
    wide_outside_windows unicode_only_font /\
    exists m', get_best_cmap font' = inr m' /\ m' !! 0x1F600 = None.
Proof.
  assert (Hw : wide_outside_windows unicode_only_font).
  { split; [| split].
    - constructor; [| constructor]. split; intros [H _]; discriminate H.
    - eexists. split; [left | reflexivity].
    - intros (t & Hin & Ht). apply list_elem_of_singleton in Hin as ->.
      discriminate Ht. }
  eexists. eexists. split; [reflexivity |]. split; [reflexivity |].
  split; [reflexivity |]. split; [exact Hw |].
  destruct (ensure_cmap_subtables_resolved unicode_only_font _ _ eq_refl eq_refl)
    as [H _].
  destruct (H Hw) as (m' & Hm' & Hcut).
  exists m'. split; [exact Hm' |]. rewrite Hcut. reflexivity.
Defined.

(** ** update_cmap *)

(** When [update_cmap] writes a codepoint into a subtable, in terms of the
    subtable's platform and format. *)
Lemma accepts_true_iff t cp :
  accepts t cp = true <->
  (platformID t = 0 \/ platformID t = 3) /\
  ((cp <= 0xFFFF /\ (format t = 4 \/ format t = 6)) \/
   (format t = 12 \/ format t = 13) \/
   (platformID t = 0 /\ format t = 3 /\ cp <= 0xFFFF)).
Proof.
  unfold accepts.
  rewrite !andb_true_iff, !orb_true_iff, !andb_true_iff, !orb_true_iff,
    !Z.eqb_eq, Z.leb_le.
  intuition lia.
Qed.

Lemma find_update_subtable (p : CmapSubtable -> bool) cp name ts :
  (forall t, p (update_subtable cp name t) = p t) ->
  find p (update_subtable cp name <$> ts) = update_subtable cp name <$> find p ts.
Proof.
  intros Hp. induction ts as [|t ts IH]; [reflexivity |].
  rewrite fmap_cons. simpl. rewrite Hp. destruct (p t); [reflexivity | exact IH].
Qed.

Lemma best_subtable_find ts t :
  best_subtable ts t ->
  find is_win_full ts = Some t \/
  (find is_win_full ts = None /\ find is_win_bmp ts = Some t) \/
  (find is_win_full ts = None /\ find is_win_bmp ts = None /\
   find is_unicode_platform ts = Some t).
Proof.
  intros [M | N M | N1 N2 M].
  - left. apply find_wide, M.
  - right. left. split; [apply find_wide_none, N | apply find_narrow, M].
  - right. right. split; [apply find_wide_none, N1 |].
    split; [apply find_narrow_none, N2 | apply find_generic, M].
Qed.

Lemma best_subtable_platform ts t :
  best_subtable ts t -> platformID t = 0 \/ platformID t = 3.
Proof.
  intros [M | _ M | _ _ M]; destruct M as (_ & _ & _ & Hp & _).
  - destruct Hp as [Hp _]. right. exact Hp.
  - destruct Hp as [Hp _]. right. exact Hp.
  - left. exact Hp.
Qed.

(** The resolver picks, after [update_cmap], the update of the subtable it
    picked before. *)
Lemma get_best_cmap_update font cp name t :
  best_subtable (cmap_tables font) t ->
  get_best_cmap (update_cmap font cp name) = inr (cmap (update_subtable cp name t)).
Proof.
  intros Hbest. unfold get_best_cmap, update_cmap. cbn [cmap_tables set_cmap_tables].
  rewrite !find_update_subtable.
  - destruct (best_subtable_find _ _ Hbest) as [-> | [[-> ->] | (-> & -> & ->)]];
      reflexivity.
  - intros u. pose proof (update_subtable_ids cp name u) as (H1 & _).
    unfold is_unicode_platform. rewrite H1. reflexivity.
  - intros u. pose proof (update_subtable_ids cp name u) as (H1 & H2 & _).
    unfold is_win_bmp. rewrite H1, H2. reflexivity.
  - intros u. pose proof (update_subtable_ids cp name u) as (H1 & H2 & _).
    unfold is_win_full. rewrite H1, H2. reflexivity.
Qed.

(** X6: what the resolver returns after [update_cmap].  When the subtable
    the resolver picks is a full-Unicode one (format 12 or 13), or the
    codepoint is in the BMP and the subtable is of format 4 or 6, the
    resolved mapping is the previous one with the codepoint mapped to the
    new glyph name; when the codepoint is supplementary and the picked
    subtable is not of format 12 or 13, the resolved mapping is unchanged:
    the codepoint stays unresolved. *)
Theorem update_cmap_resolved (font : TTFont) (cp : Z) (name : string)
    (t : CmapSubtable) :
  best_subtable (cmap_tables font) t ->
  get_best_cmap font = inr (cmap t) /\
  (format t = 12 \/ format t = 13 \/ (cp <= 0xFFFF /\ (format t = 4 \/ format t = 6)) ->
   get_best_cmap (update_cmap font cp name) = inr (<[cp := name]> (cmap t))) /\
  (0xFFFF < cp -> format t <> 12 -> format t <> 13 ->
   get_best_cmap (update_cmap font cp name) = inr (cmap t)).
Proof.
  intros Hbest. pose proof (best_subtable_platform _ _ Hbest) as Hplat.
  split; [| split].
  - unfold get_best_cmap.
    destruct (best_subtable_find _ _ Hbest) as [-> | [[-> ->] | (-> & -> & ->)]];
      reflexivity.
  - intros Hfmt. rewrite (get_best_cmap_update _ _ _ _ Hbest), update_subtable_accepts.
    assert (accepts t cp = true) as -> by (apply accepts_true_iff; intuition lia).
    reflexivity.
  - intros Hcp H12 H13.
    rewrite (get_best_cmap_update _ _ _ _ Hbest), update_subtable_accepts.
    assert (accepts t cp = false) as ->; [| reflexivity].
    apply not_true_is_false. rewrite accepts_true_iff. intuition lia.
Qed.

Lemma update_cmap_resolved_witness :
  exists m, get_best_cmap (update_cmap plain_base 0x41 "A") = inr m /\
            m !! 0x41 = Some "A"%string /\ m !! 0x4E2D = Some "cjk_zhong"%string.
Proof.
  assert (Hbest : best_subtable (cmap_tables plain_base)
                    (mkSubtable 3 10 12 0 {[ 0x4E2D := "cjk_zhong"%string ]})).
  { apply best_wide. exists [], []. split; [reflexivity |].
    split; [split; reflexivity | constructor]. }
  destruct (update_cmap_resolved plain_base 0x41 "A" _ Hbest) as (_ & Hw & _).
  eexists. split; [apply Hw; left; reflexivity |].
  split; [apply lookup_insert_eq | reflexivity].
Defined.

(** X7: the frame of [update_cmap].  Subtables keep their number, order and
    identity; no other codepoint changes in any subtable; a subtable either
    maps the codepoint to the new name afterwards or is left as it is; a
    subtable of platform 0 or 3 that one of the three conditions of the
    loop selects maps the codepoint to the new name; a subtable of a format
    other than 3, 4, 6, 12 and 13 is left as it is, and so is, for a
    codepoint above 0xFFFF, any subtable of a format other than 12 and 13;
    no other table of the font changes; and the same update applied twice
    is the update applied once. *)
Theorem update_cmap_frame (font : TTFont) (cp : Z) (name : string) :
  Forall2 (fun t t' =>
             same_ids t t' /\
             (forall cp', cp' <> cp -> cmap t' !! cp' = cmap t !! cp') /\
             (cmap t' !! cp = Some name \/ t' = t) /\
             (platformID t = 0 \/ platformID t = 3 ->
              format t = 12 \/ format t = 13 \/
              (cp <= 0xFFFF /\
               (format t = 4 \/ format t = 6 \/ (platformID t = 0 /\ format t = 3))) ->
              cmap t' !! cp = Some name) /\
             (format t <> 3 -> format t <> 4 -> format t <> 6 ->
              format t <> 12 -> format t <> 13 -> t' = t) /\
             (0xFFFF < cp -> format t <> 12 -> format t <> 13 -> t' = t))
          (cmap_tables font) (cmap_tables (update_cmap font cp name)) /\
  update_cmap font cp name = set_cmap_tables font (cmap_tables (update_cmap font cp name)) /\
  update_cmap (update_cmap font cp name) cp name = update_cmap font cp name.
Proof.
  split; [| split].
  - unfold update_cmap. cbn [cmap_tables set_cmap_tables].
    apply Forall2_fmap_r, Forall_Forall2_diag, Forall_forall. intros t _.
    split; [apply update_subtable_ids |]. split.
    { intros cp' Hne. rewrite update_subtable_lookup.
      destruct (decide (cp' = cp)); [contradiction | reflexivity]. }
    rewrite update_subtable_accepts.
    destruct (accepts t cp) eqn:Hacc.
    + apply accepts_true_iff in Hacc.
      split; [left; apply lookup_insert_eq |].
      split; [intros _ _; apply lookup_insert_eq |].
      split; intros; exfalso; intuition lia.
    + split; [right; reflexivity |].
      split; [| split; reflexivity].
      intros Hplat Hfmt. exfalso.
      apply not_true_iff_false in Hacc. apply Hacc, accepts_true_iff.
      intuition lia.
  - reflexivity.
  - unfold update_cmap. cbn [cmap_tables set_cmap_tables]. f_equal.
    rewrite <- list_fmap_compose. apply list_fmap_ext. intros _ t _. cbn.
    rewrite (update_subtable_accepts cp name (update_subtable cp name t)).
    rewrite (accepts_ids t _ cp (update_subtable_ids cp name t)).
    rewrite update_subtable_accepts.
    destruct (accepts t cp); [| reflexivity].
    unfold write_cmap. cbn. rewrite insert_insert_eq. reflexivity.
Qed.

(** ** fix_glyph_order and rebuild_vmtx, run again and run in sequence *)

Section OrderAndVmtx.
Variable set_iter : gset string -> list string.
Hypothesis set_iter_perm : forall s, set_iter s ≡ₚ elements s.
Variable recalc_yMax : gmap string Glyph -> Glyph -> option Z.

Lemma fix_glyph_order_listed font g :
  g ∈ dom (glyf font) -> g ∈ glyphOrder (fix_glyph_order set_iter font).
Proof.
  intros Hg. rewrite fix_glyph_order_split. apply elem_of_app.
  destruct (decide (g ∈ glyphOrder font)) as [Hin | Hout]; [left; exact Hin |].
  right. apply list_elem_of_filter. split.
  - rewrite elem_of_list_to_set. exact Hout.
  - apply (set_iter_elem set_iter set_iter_perm). exact Hg.
Qed.

Lemma fix_glyph_order_glyf font : glyf (fix_glyph_order set_iter font) = glyf font.
Proof.
  unfold fix_glyph_order.
  destruct (filter _ (set_iter (dom (glyf font)))); reflexivity.
Qed.

(** X8: [fix_glyph_order] leaves a font alone exactly when every outline
    name is already listed, and so it is idempotent. *)
Theorem fix_glyph_order_idempotent (font : TTFont) :
  ((forall g, g ∈ dom (glyf font) -> g ∈ glyphOrder font) <->
   glyphOrder (fix_glyph_order set_iter font) = glyphOrder font) /\
  ((forall g, g ∈ dom (glyf font) -> g ∈ glyphOrder font) ->
   fix_glyph_order set_iter font = font) /\
  fix_glyph_order set_iter (fix_glyph_order set_iter font) =
  fix_glyph_order set_iter font.
Proof.
  assert (Hnoop : forall f, (forall g, g ∈ dom (glyf f) -> g ∈ glyphOrder f) ->
                            fix_glyph_order set_iter f = f).
  { intros f Hall. unfold fix_glyph_order.
    destruct (filter _ (set_iter (dom (glyf f)))) as [|g gs] eqn:E; [reflexivity |].
    exfalso. assert (Hg : g ∈ g :: gs) by left. rewrite <- E in Hg.
    apply list_elem_of_filter in Hg as [Hout Hin].
    apply (set_iter_elem set_iter set_iter_perm) in Hin.
    apply Hout, elem_of_list_to_set, Hall, Hin. }
  split; [| split].
  - split.
    + intros Hall. rewrite (Hnoop font Hall). reflexivity.
    + intros Heq g Hg. rewrite <- Heq. apply fix_glyph_order_listed, Hg.
  - apply Hnoop.
  - apply Hnoop. intros g Hg. rewrite fix_glyph_order_glyf in Hg.
    apply fix_glyph_order_listed, Hg.
Qed.

Lemma rebuild_vmtx_fields font :
  rebuild_vmtx recalc_yMax font =
  set_vhea (set_vmtx font (vmtx (rebuild_vmtx recalc_yMax font)))
           (mkVhea (vhea_ascent (vhea font)) (advanceHeightMax (vhea font))
                   (Z.of_nat (length (glyphOrder font)))).
Proof.
  unfold rebuild_vmtx.
  destruct (fold_left _ (glyphOrder font) (vmtx font, O)). reflexivity.
Qed.

(** X9: [rebuild_vmtx] is idempotent: once every listed name has its
    entry, a second run adds nothing and writes the same entry count. *)
Theorem rebuild_vmtx_idempotent (font : TTFont) :
  rebuild_vmtx recalc_yMax (rebuild_vmtx recalc_yMax font) =
  rebuild_vmtx recalc_yMax font.
Proof.
  set (font1 := rebuild_vmtx recalc_yMax font).
  assert (H1 : font1 = set_vhea (set_vmtx font (vmtx font1))
                 (mkVhea (vhea_ascent (vhea font)) (advanceHeightMax (vhea font))
                         (Z.of_nat (length (glyphOrder font)))))
    by apply rebuild_vmtx_fields.
  assert (Hv : vmtx (rebuild_vmtx recalc_yMax font1) = vmtx font1).
  { apply map_eq. intros name. rewrite rebuild_vmtx_lookup.
    destruct (vmtx font1 !! name) as [m|] eqn:E; [reflexivity |].
    destruct (decide (name ∈ glyphOrder font1)) as [Hin | _]; [| reflexivity].
    exfalso. unfold font1 in E. rewrite rebuild_vmtx_lookup in E.
    rewrite H1 in Hin. cbn [glyphOrder set_vhea set_vmtx] in Hin.
    destruct (vmtx font !! name); [discriminate |].
    destruct (decide (name ∈ glyphOrder font)); [discriminate | contradiction]. }
  assert (Hva : vhea font1 = mkVhea (vhea_ascent (vhea font)) (advanceHeightMax (vhea font))
                                   (Z.of_nat (length (glyphOrder font))))
    by (rewrite H1; reflexivity).
  assert (Hgo : glyphOrder font1 = glyphOrder font) by (rewrite H1; reflexivity).
  rewrite (rebuild_vmtx_fields font1), Hv, Hgo, Hva.
  cbn [vhea_ascent advanceHeightMax]. rewrite <- Hva.
  clearbody font1. destruct font1. reflexivity.
Qed.
End OrderAndVmtx.

Lemma fix_glyph_order_idempotent_witness :
  (forall s : gset string, elements s ≡ₚ elements s) /\
  fix_glyph_order elements (fix_glyph_order elements one_glyph_font) =
  fix_glyph_order elements one_glyph_font.
Proof.
  split; [intros s; reflexivity |].
  apply (fix_glyph_order_idempotent elements (fun s => reflexivity (elements s))
           one_glyph_font).
Defined.

(** ** copy_glyph: metrics, success and cycles *)

#[local] Instance metrics_kept_preorder : PreOrder metrics_kept.
Proof.
  split.
  - intros st. split; [reflexivity | reflexivity].
  - intros a b c [G1 K1] [G2 K2]. split; [etransitivity; eassumption |].
    intros n Hn. rewrite K2, K1; [reflexivity | exact Hn |].
    apply elem_of_dom, G1, elem_of_dom, Hn.
Qed.

Lemma store_glyph_hmtx st s d g n :
  n <> d -> hmtx (dst_font (store_glyph st s d g).1) !! n = hmtx (dst_font st) !! n.
Proof.
  intros Hne.
  destruct (glyf_setitem_fields (dst_font st) d g) as (_ & _ & Hh & _).
  unfold store_glyph. cbn [src_font dst_font set_dst].
  destruct (hmtx (src_font st) !! s); cbn; rewrite Hh; [| reflexivity].
  apply lookup_insert_ne. congruence.
Qed.

(** The horizontal metrics of a name that has an outline are never
    rewritten by [copy_glyph]. *)
Lemma copy_glyph_metrics_kept depth : forall st s d,
  metrics_kept st (copy_glyph depth st s d).1.
Proof.
  induction depth as [|depth IH]; intros st s d.
  - reflexivity.
  - rewrite copy_glyph_S.
    destruct (glyf (dst_font st) !! d) eqn:Hd; [reflexivity |].
    destruct (glyf (src_font st) !! s) as [g|]; [| reflexivity].
    pose proof (copy_composite_preorder metrics_kept (copy_glyph depth) IH g st) as H1.
    destruct (copy_composite (copy_glyph depth) g st) as [st1 [e|g']];
      cbn [fst] in *; [exact H1 |].
    destruct H1 as [G1 K1]. split.
    + etransitivity; [exact G1 | apply store_glyph_grow].
    + intros n Hn. rewrite store_glyph_hmtx; [apply K1, Hn |].
      intros ->. rewrite Hd in Hn. destruct Hn; discriminate.
Qed.

(** An invariant that every recursive call keeps is kept by the loop. *)
Lemma copy_components_invariant (I : Fonts -> Prop)
    (copy_rec : Fonts -> string -> string -> Fonts * option Exn) :
  (forall st s d, I st -> I (copy_rec st s d).1) ->
  forall comps st, I st -> I (copy_components copy_rec comps st).1.
Proof.
  intros Hrec. induction comps as [|c comps IH]; intros st Hst; [exact Hst |].
  rewrite copy_components_cons.
  pose proof (Hrec st (glyphName c) (ens_name (glyphName c)) Hst) as H1.
  destruct (copy_rec st (glyphName c) (ens_name (glyphName c))) as [st1 [e|]];
    cbn [fst] in *; [exact H1 |].
  pose proof (IH st1 H1) as H2.
  destruct (copy_components copy_rec comps st1) as [st2 [e|rest]]; exact H2.
Qed.

Lemma copy_composite_invariant (I : Fonts -> Prop)
    (copy_rec : Fonts -> string -> string -> Fonts * option Exn) :
  (forall st s d, I st -> I (copy_rec st s d).1) ->
  forall g st, I st -> I (copy_composite copy_rec g st).1.
Proof.
  intros Hrec [cs | comps] st Hst; [exact Hst |].
  rewrite copy_composite_eq.
  pose proof (copy_components_invariant I copy_rec Hrec comps st Hst) as H.
  destruct (copy_components copy_rec comps st) as [st1 [e|comps']]; exact H.
Qed.

Lemma store_glyph_complete st s d g :
  is_Some (hmtx (src_font st) !! s) ->
  base_metrics_complete st -> base_metrics_complete (store_glyph st s d g).1.
Proof.
  intros [m Hm] Hinv n.
  destruct (glyf_setitem_fields (dst_font st) d g) as (_ & Hg & Hh & _).
  unfold store_glyph. cbn [src_font dst_font set_dst].
  rewrite Hm. cbn. rewrite Hg, Hh. destruct (decide (n = d)) as [-> | Hne].
  - rewrite !lookup_insert_eq. eauto.
  - rewrite !lookup_insert_ne by congruence. apply Hinv.
Qed.

(** X10: horizontal metrics completeness is an invariant of [copy_glyph]:
    when every donor outline has its metrics and every outline of the base
    has its metrics, every outline of the base has its metrics after the
    call, whether it returned or raised; and no metrics entry of a name
    that had an outline is rewritten. *)
Theorem copy_glyph_metrics_complete (depth : nat) (st : Fonts) (s d : string) :
  has_all_metrics (src_font st) ->
  base_metrics_complete st ->
  base_metrics_complete (copy_glyph depth st s d).1 /\
  metrics_kept st (copy_glyph depth st s d).1.
Proof.
  intros Hm Hinv. split; [| apply copy_glyph_metrics_kept].
  set (I := fun st' => src_font st' = src_font st /\ base_metrics_complete st').
  assert (HI : forall depth st' s d, I st' -> I (copy_glyph depth st' s d).1).
  { clear depth s d. induction depth as [|depth IH]; intros st' s d Hst';
      [exact Hst' |].
    rewrite copy_glyph_S.
    destruct (glyf (dst_font st') !! d) eqn:Hd; [exact Hst' |].
    destruct (glyf (src_font st') !! s) as [g|] eqn:Hs; [| exact Hst'].
    pose proof (copy_composite_invariant I (copy_glyph depth) (IH) g st' Hst') as H1.
    destruct (copy_composite (copy_glyph depth) g st') as [st1 [e|g']];
      cbn [fst] in *; [exact H1 |].
    destruct H1 as [Hsrc1 Hinv1]. split.
    - rewrite <- Hsrc1. apply store_glyph_frame.
    - apply store_glyph_complete; [| exact Hinv1].
      rewrite Hsrc1. apply Hm. destruct Hst' as [<- _]. rewrite Hs. eauto. }
  apply (HI depth st s d). split; [reflexivity | exact Hinv].
Qed.

Lemma base_metrics_complete_plain : base_metrics_complete (mkFonts colon_donor plain_base).
Proof.
  intros n [g Hg]. cbn [dst_font] in *. unfold plain_base, sample_font in *.
  cbn [glyf hmtx] in *. apply lookup_singleton_Some in Hg as [<- _].
  rewrite lookup_singleton_eq. eauto.
Defined.

Lemma copy_glyph_metrics_complete_witness :
  base_metrics_complete
    (copy_glyph 5 (mkFonts colon_donor plain_base) "colon" "mes_uni003A").1.
Proof.
  apply (copy_glyph_metrics_complete 5 (mkFonts colon_donor plain_base)
           "colon" "mes_uni003A" has_all_metrics_colon_donor
           base_metrics_complete_plain).
Defined.

(** The loop completes when each call for a component returns. *)
Lemma copy_components_returns (I : Fonts -> Prop)
    (copy_rec : Fonts -> string -> string -> Fonts * option Exn) comps :
  (forall st s d, I st -> I (copy_rec st s d).1) ->
  (forall c st, c ∈ comps -> I st ->
                (copy_rec st (glyphName c) (ens_name (glyphName c))).2 = None) ->
  forall st, I st -> exists comps', (copy_components copy_rec comps st).2 = inr comps'.
Proof.
  intros Hinv. induction comps as [|c comps IH]; intros Hret st Hst.
  - exists []. reflexivity.
  - rewrite copy_components_cons.
    pose proof (Hret c st ltac:(left) Hst) as H1.
    pose proof (Hinv st (glyphName c) (ens_name (glyphName c)) Hst) as Hst1.
    destruct (copy_rec st (glyphName c) (ens_name (glyphName c))) as [st1 [e|]];
      cbn [fst snd] in *; [discriminate |].
    destruct (IH (fun c' st' Hc' => Hret c' st' ltac:(right; exact Hc')) st1 Hst1)
      as [rest Hrest].
    destruct (copy_components copy_rec comps st1) as [st2 [e|rest']];
      cbn [snd] in *; [discriminate | eauto].
Qed.

(** X11: [copy_glyph] returns, without raising, for a donor glyph of a
    well-formed donor (every component reference resolves, no glyph is a
    component of itself however indirectly, every glyph has horizontal
    metrics), as soon as the call depth left exceeds the glyph's rank in
    the component graph. *)
Theorem copy_glyph_returns (rank : string -> nat) (depth : nat) (st : Fonts)
    (s d : string) :
  well_founded_donor (src_font st) rank ->
  has_all_metrics (src_font st) ->
  is_Some (glyf (src_font st) !! s) ->
  (rank s < depth)%nat ->
  (copy_glyph depth st s d).2 = None /\
  is_Some (glyf (dst_font (copy_glyph depth st s d).1) !! d).
Proof.
  intros Hwf Hm Hs Hrank.
  assert (Hret : forall depth st' s d,
            src_font st' = src_font st ->
            is_Some (glyf (src_font st) !! s) -> (rank s < depth)%nat ->
            (copy_glyph depth st' s d).2 = None).
  { clear depth s d Hs Hrank.
    induction depth as [|depth IH]; intros st' s d Hsrc [g Hg] Hrank; [lia |].
    rewrite copy_glyph_S.
    destruct (glyf (dst_font st') !! d) eqn:Hd; [reflexivity |].
    rewrite Hsrc, Hg.
    pose proof (copy_composite_invariant (fun st1 => src_font st1 = src_font st)
                  (copy_glyph depth)
                  (fun st1 s1 d1 H1 => eq_trans (copy_glyph_src depth st1 s1 d1) H1)
                  g st' Hsrc) as Hsrc1.
    assert (Hloop : exists g', (copy_composite (copy_glyph depth) g st').2 = inr g').
    { destruct g as [cs | comps]; [eexists; reflexivity |].
      rewrite copy_composite_eq.
      destruct (copy_components_returns (fun st1 => src_font st1 = src_font st)
                  (copy_glyph depth) comps
                  (fun st1 s1 d1 H1 => eq_trans (copy_glyph_src depth st1 s1 d1) H1))
        with (st := st') as [comps' Hc]; [| exact Hsrc |].
      - intros c st1 Hc Hst1.
        destruct (Hwf s (CompositeGlyph comps) c Hg Hc) as [Hres Hlt].
        apply IH; [exact Hst1 | exact Hres | lia].
      - destruct (copy_components (copy_glyph depth) comps st') as [st1 [e|comps'']];
          cbn [snd] in *; [discriminate | eexists; reflexivity]. }
    destruct (copy_composite (copy_glyph depth) g st') as [st1 [e|g']];
      cbn [fst snd] in *; [destruct Hloop; discriminate |].
    apply store_glyph_returns. rewrite Hsrc1. apply Hm. eauto. }
  pose proof (Hret depth st s d eq_refl Hs Hrank) as H.
  split; [exact H |].
  destruct (copy_glyph depth st s d) as [st' r] eqn:E. cbn [fst snd] in *. subst r.
  eapply copy_glyph_ok_present. exact E.
Qed.

Lemma has_all_metrics_accented_donor : has_all_metrics accented_donor.
Proof.
  intros n [g Hg]. unfold accented_donor, sample_font in *. cbn [glyf hmtx] in *.
  apply lookup_insert_Some in Hg as [[<- _] | [_ Hg]]; [vm_compute; eauto |].
  apply lookup_insert_Some in Hg as [[<- _] | [_ Hg]]; [vm_compute; eauto |].
  apply lookup_singleton_Some in Hg as [<- _]. vm_compute. eauto.
Defined.

Lemma well_founded_accented_donor : well_founded_donor accented_donor accented_rank.
Proof.
  intros n g c Hg Hc. unfold accented_donor, sample_font in Hg. cbn [glyf] in Hg.
  apply lookup_insert_Some in Hg as [[<- <-] | [_ Hg]].
  - cbn [comps_of] in Hc.
    apply elem_of_cons in Hc as [-> | Hc];
      [| apply list_elem_of_singleton in Hc as ->];
      split; vm_compute; eauto.
  - apply lookup_insert_Some in Hg as [[_ <-] | [_ Hg]]; [inversion Hc |].
    apply lookup_singleton_Some in Hg as [_ <-]. inversion Hc.
Defined.

Lemma copy_glyph_returns_witness :
  (copy_glyph 2 (mkFonts accented_donor plain_base) "Aacute" "mes_uni00C1").2 = None.
Proof.
  refine (proj1 (copy_glyph_returns accented_rank 2 (mkFonts accented_donor plain_base)
                   "Aacute" "mes_uni00C1" well_founded_accented_donor
                   has_all_metrics_accented_donor _ _)).
  - vm_compute. eauto.
  - vm_compute. lia.
Defined.

(** X12: the already-copied test does not stop a reference cycle.  For a
    set of donor composites closed under "first component", none of whose
    new names is in the base, [copy_glyph] raises [RecursionError] whatever
    call depth it is given, and leaves both fonts as they were. *)
Theorem copy_glyph_cycle (cyc : string -> Prop) (depth : nat) (st : Fonts)
    (x d : string) :
  (forall y, cyc y ->
     exists c cs,
       glyf (src_font st) !! y = Some (CompositeGlyph (c :: cs)) /\
       cyc (glyphName c) /\
       glyf (dst_font st) !! ens_name (glyphName c) = None) ->
  cyc x ->
  glyf (dst_font st) !! d = None ->
  copy_glyph depth st x d = (st, Some RecursionError).
Proof.
  intros Hcyc. revert x d. induction depth as [|depth IH]; intros x d Hx Hd.
  - reflexivity.
  - destruct (Hcyc x Hx) as (c & cs & Hg & Hc & Hfresh).
    rewrite copy_glyph_S, Hd, Hg. unfold copy_composite.
    rewrite copy_components_cons, (IH (glyphName c) _ Hc Hfresh). reflexivity.
Qed.

Lemma copy_glyph_cycle_witness :
  copy_glyph 1000 (mkFonts looping_donor plain_base) "loop" "mes_uni0041" =
  (mkFonts looping_donor plain_base, Some RecursionError).
Proof.
  apply (copy_glyph_cycle (fun y => y = "loop"%string)); [| reflexivity | reflexivity].
  intros y ->. exists (mkComponent "loop" 0 0 0), []. repeat split.
Defined.

(** ** transplant_glyphs: what it keeps and what it adds *)

#[local] Instance order_extended_preorder : PreOrder order_extended.
Proof.
  split.
  - intros st. split; [reflexivity |]. split.
    + intros n Hn [g Hg]. congruence.
    + exists []. split; [symmetry; apply app_nil_r |].
      split; [apply NoDup_nil_2 |]. intros n Hn. inversion Hn.
  - intros a b c (Hd1 & Hl1 & added1 & Ho1 & Hn1 & Ha1)
                 (Hd2 & Hl2 & added2 & Ho2 & Hn2 & Ha2).
    split; [etransitivity; eassumption |]. split.
    + intros n Hna Hnc. destruct (glyf (dst_font b) !! n) as [g|] eqn:Hnb.
      * rewrite Ho2. apply elem_of_app. left. apply Hl1; [exact Hna | eauto].
      * apply Hl2; [exact Hnb | exact Hnc].
    + exists (added1 ++ added2). split; [rewrite Ho2, Ho1, app_assoc; reflexivity |].
      split.
      * apply NoDup_app. split; [exact Hn1 |]. split; [| exact Hn2].
        intros n Hin1 Hin2. apply Ha2 in Hin2 as [Hout _]. apply Hout.
        rewrite Ho1. apply elem_of_app. right. exact Hin1.
      * intros n Hn. apply elem_of_app in Hn as [Hn | Hn].
        -- destruct (Ha1 n Hn) as [Hout Hsome]. split; [exact Hout |].
           apply elem_of_dom. apply Hd2. apply elem_of_dom. exact Hsome.
        -- destruct (Ha2 n Hn) as [Hout Hsome]. split; [| exact Hsome].
           intros Hin. apply Hout. rewrite Ho1. apply elem_of_app. left. exact Hin.
Qed.

Lemma order_extended_same st st' :
  glyf (dst_font st') = glyf (dst_font st) ->
  glyphOrder (dst_font st') = glyphOrder (dst_font st) ->
  order_extended st st'.
Proof.
  intros Hg Ho. unfold order_extended. rewrite Hg, Ho.
  apply (reflexivity (R := order_extended) st).
Qed.

#[local] Instance same_but_cmap_and_outlines_preorder :
  PreOrder same_but_cmap_and_outlines.
Proof.
  split.
  - intros st. unfold same_but_cmap_and_outlines.
    split; [reflexivity |]. split; [reflexivity |]. split; [reflexivity |]. tauto.
  - intros a b c Hab Hbc. unfold same_but_cmap_and_outlines in *.
    destruct Hab as (? & ? & Ho1 & ? & ? & ? & ?), Hbc as (? & ? & Ho2 & ? & ? & ? & ?).
    split; [congruence |]. split; [congruence |].
    split; [exact (transitivity Ho1 Ho2) |].
    split; [congruence |]. split; [congruence |]. split; congruence.
Qed.

Lemma store_glyph_order st s d g : order_extended st (store_glyph st s d g).1.
Proof.
  destruct (store_glyph_dst st s d g) as (_ & _ & Hg & _ & _ & _ & _ & Hgo).
  destruct (glyf_setitem_fields (dst_font st) d g) as (_ & _ & _ & _ & _ & _ & _ & Ho).
  rewrite Ho in Hgo. clear Ho.
  assert (Hd : is_Some (glyf (dst_font (store_glyph st s d g).1) !! d)).
  { rewrite Hg, lookup_insert_eq. eauto. }
  split; [apply (store_glyph_grow st s d g) |]. split.
  - intros n Hn Hsome. rewrite Hg in Hsome.
    destruct (decide (n = d)) as [-> | Hne].
    + rewrite Hgo. destruct (decide (d ∈ glyphOrder (dst_font st))); [assumption |].
      apply elem_of_app. right. left.
    + rewrite lookup_insert_ne in Hsome by congruence.
      destruct Hsome as [g0 Hg0]. congruence.
  - rewrite Hgo. destruct (decide (d ∈ glyphOrder (dst_font st))) as [Hin | Hout].
    + exists []. split; [symmetry; apply app_nil_r |].
      split; [apply NoDup_nil_2 |]. intros n Hn. inversion Hn.
    + exists [d]. split; [reflexivity |]. split; [apply NoDup_singleton |].
      intros n Hn. apply list_elem_of_singleton in Hn as ->. split; assumption.
Qed.

Lemma copy_glyph_order depth st s d :
  order_extended st (copy_glyph depth st s d).1.
Proof. apply copy_glyph_preorder; [apply _ | apply store_glyph_order]. Qed.

(** A relation that the glyph copy and the cmap update respect is
    respected by the whole loop. *)
Lemma transplant_loop_preorder (P : relation Fonts) `{!PreOrder P}
    (limit : nat) (prefix : string) :
  (forall st s d, P st (copy_glyph limit st s d).1) ->
  (forall st cp n, P st (set_dst st (update_cmap (dst_font st) cp n))) ->
  forall items acc, P (fonts acc) (fonts (transplant_loop limit prefix items acc)).
Proof.
  intros Hcopy Hupd. induction items as [|[cp name] items IH]; intros acc.
  - reflexivity.
  - change (transplant_loop limit prefix ((cp, name) :: items) acc)
      with (transplant_loop limit prefix items
              (transplant_step limit prefix acc (cp, name))).
    etransitivity; [| apply IH]. unfold transplant_step.
    pose proof (Hcopy (fonts acc) name (glyph_name_for_codepoint cp prefix)) as H1.
    destruct (copy_glyph limit (fonts acc) name (glyph_name_for_codepoint cp prefix))
      as [st1 [e|]]; cbn [fst fonts] in *; [exact H1 |].
    etransitivity; [exact H1 | apply Hupd].
Qed.

Lemma transplant_loop_kept limit prefix items acc :
  outlines_kept (fonts acc) (fonts (transplant_loop limit prefix items acc)) /\
  metrics_kept (fonts acc) (fonts (transplant_loop limit prefix items acc)) /\
  same_but_cmap_and_outlines (fonts acc)
    (fonts (transplant_loop limit prefix items acc)).
Proof.
  split; [| split].
  - apply transplant_loop_preorder; [apply _ | intros; apply copy_glyph_kept |].
    intros st cp n. unfold outlines_kept. reflexivity.
  - apply transplant_loop_preorder; [apply _ | intros; apply copy_glyph_metrics_kept |].
    intros st cp n. split; [unfold outlines_grow; reflexivity | reflexivity].
  - apply transplant_loop_preorder; [apply _ | |].
    + intros st s d. destruct (copy_glyph_frame limit st s d) as (? & Ht & ? & _ & ? & ? & ?).
      pose proof (copy_glyph_order limit st s d) as Ho.
      unfold same_but_cmap_and_outlines. rewrite Ht. tauto.
    + intros st cp n. unfold same_but_cmap_and_outlines, update_cmap.
      split; [reflexivity |]. split; [reflexivity |].
      split; [apply order_extended_same; reflexivity |].
      cbn [src_font dst_font set_dst cmap_tables set_cmap_tables vmtx glyphOrder os2
           hhea vhea]. rewrite length_fmap. tauto.
Qed.

Lemma order_extended_listed st st' :
  order_extended st st' ->
  (forall n, is_Some (glyf (dst_font st) !! n) -> n ∈ glyphOrder (dst_font st)) ->
  forall n, is_Some (glyf (dst_font st') !! n) -> n ∈ glyphOrder (dst_font st').
Proof.
  intros (_ & Hnew & added & Ho & _) Hlisted n Hn.
  destruct (glyf (dst_font st) !! n) as [g|] eqn:Hg.
  - rewrite Ho. apply elem_of_app. left. apply Hlisted. eauto.
  - apply Hnew; assumption.
Qed.

(** X13: [transplant_glyphs] only adds to the base's glyph data.  Every
    outline the base had is there unchanged afterwards, and so are the
    horizontal metrics of every name that had an outline; the glyph order
    is only appended to, by distinct names that were not listed and have an
    outline, and every name that gained an outline is listed, so a base
    whose outlines were all listed still has them all listed; the donor,
    the vertical metrics, OS/2, hhea and vhea are untouched, and the cmap
    keeps its number of subtables. *)
Theorem transplant_glyphs_keeps_base
    (dict_items : gmap Z string -> list (Z * string)) (recursion_limit : nat)
    (st : Fonts) (prefix : string) (R : Transplant) :
  transplant_glyphs dict_items recursion_limit st prefix = inr R ->
  (forall n g, glyf (dst_font st) !! n = Some g ->
               glyf (dst_font (fonts R)) !! n = Some g /\
               hmtx (dst_font (fonts R)) !! n = hmtx (dst_font st) !! n) /\
  same_but_cmap_and_outlines st (fonts R) /\
  ((forall n, is_Some (glyf (dst_font st) !! n) -> n ∈ glyphOrder (dst_font st)) ->
   forall n, is_Some (glyf (dst_font (fonts R)) !! n) ->
             n ∈ glyphOrder (dst_font (fonts R))).
Proof.
  unfold transplant_glyphs.
  destruct (get_best_cmap (src_font st)) as [e|src_cmap]; [discriminate |].
  intros [= <-].
  destruct (transplant_loop_kept recursion_limit prefix (dict_items src_cmap)
              (mkTransplant st 0 [])) as (Hk & [_ Hm] & Hf).
  cbn [fonts] in *. split; [| split; [exact Hf |]].
  - intros n g Hg. split; [eapply lookup_weaken; eassumption |].
    apply Hm. eauto.
  - destruct Hf as (_ & _ & Ho & _). apply order_extended_listed, Ho.
Qed.

Lemma transplant_glyphs_keeps_base_witness :
  exists R,
    transplant_glyphs map_to_list 100 (mkFonts latin_donor latin_base) "mes_" = inr R /\
    glyf (dst_font (fonts R)) !! "A_base"%string =
      Some (SimpleGlyph [[(0, 0); (400, 700)]]) /\
    glyphOrder (dst_font (fonts R)) = glyphOrder latin_base ++ ["mes_uni0041"%string].
Proof.
  eexists. split; [reflexivity |]. split; [| reflexivity].
  apply (transplant_glyphs_keeps_base map_to_list 100
           (mkFonts latin_donor latin_base) "mes_" _ eq_refl).
  reflexivity.
Defined.

(** Codepoints that are not negative get distinct names. *)
Lemma glyph_name_nonneg_inj prefix cp1 cp2 :
  0 <= cp1 -> 0 <= cp2 ->
  glyph_name_for_codepoint cp1 prefix = glyph_name_for_codepoint cp2 prefix ->
  cp1 = cp2.
Proof.
  intros H1 H2. unfold glyph_name_for_codepoint.
  destruct (cp1 <=? 0xFFFF), (cp2 <=? 0xFFFF); intros E;
    apply append_cancel_l in E.
  - change (String "u" (String "n" (String "i" (PyFormat.format_hex 4 cp1))) =
            String "u" (String "n" (String "i" (PyFormat.format_hex 4 cp2)))) in E.
    injection E as E.
    rewrite <- (PyFormatFacts.parse_format_hex 4 cp1), E by lia.
    apply PyFormatFacts.parse_format_hex. lia.
  - exfalso.
    change (String "u" (String "n" (String "i" (PyFormat.format_hex 4 cp1))) =
            String "u" (PyFormat.format_hex 6 cp2)) in E.
    injection E as E.
    destruct (PyFormatFacts.format_hex_head 6 cp2 H2) as (x & s & Hx & Hs).
    rewrite Hs in E. injection E as E _.
    apply (PyFormatFacts.hex_digit_not_n x Hx). congruence.
  - exfalso.
    change (String "u" (PyFormat.format_hex 6 cp1) =
            String "u" (String "n" (String "i" (PyFormat.format_hex 4 cp2)))) in E.
    injection E as E.
    destruct (PyFormatFacts.format_hex_head 6 cp1 H1) as (x & s & Hx & Hs).
    rewrite Hs in E. injection E as E _.
    apply (PyFormatFacts.hex_digit_not_n x Hx). congruence.
  - change (String "u" (PyFormat.format_hex 6 cp1) =
            String "u" (PyFormat.format_hex 6 cp2)) in E.
    injection E as E.
    rewrite <- (PyFormatFacts.parse_format_hex 6 cp1), E by lia.
    apply PyFormatFacts.parse_format_hex. lia.
Qed.

(** A generated top-level name is not a component's new name, for a prefix
    that does not start with an underscore. *)
Lemma glyph_name_not_ens prefix cp x :
  plain_prefix prefix -> glyph_name_for_codepoint cp prefix <> ens_name x.
Proof.
  intros Hp E. unfold glyph_name_for_codepoint, ens_name in E.
  destruct prefix as [|a p].
  - destruct (cp <=? 0xFFFF); discriminate E.
  - assert (a = "_"%char) as ->.
    { destruct (cp <=? 0xFFFF); injection E as E _; exact E. }
    apply (Hp p). reflexivity.
Qed.

(** A call that copies and returns: the destination holds the donor glyph,
    renamed, and the donor's horizontal metrics. *)
Lemma copy_glyph_ok_new depth st s d st' :
  copy_glyph depth st s d = (st', None) ->
  glyf (dst_font st) !! d = None ->
  exists g, glyf (src_font st) !! s = Some g /\
            glyf (dst_font st') !! d = Some (renamed g) /\
            hmtx (dst_font st') !! d = hmtx (src_font st) !! s.
Proof.
  intros H Hd. destruct (copy_glyph_ok_depth _ _ _ _ _ H) as [depth' ->].
  rewrite copy_glyph_S, Hd in H.
  destruct (glyf (src_font st) !! s) as [g|] eqn:Hs; [| discriminate].
  pose proof (copy_composite_ok depth' g st) as Hok.
  pose proof (copy_composite_preorder same_but_outlines (copy_glyph depth')
                (copy_glyph_frame depth') g st) as [Hsrc1 _].
  destruct (copy_composite (copy_glyph depth') g st) as [st1 [e|g']];
    [discriminate |].
  cbn [fst] in Hsrc1. destruct (Hok st1 g' eq_refl) as [-> _].
  apply store_glyph_ok in H as [Hglyf (m & Hm & Hhmtx)].
  exists g. split; [reflexivity |].
  split; [rewrite Hglyf; apply lookup_insert_eq |].
  rewrite Hhmtx, lookup_insert_eq, <- Hsrc1. symmetry. exact Hm.
Qed.

Lemma copy_glyph_new_names depth st s d n :
  is_Some (glyf (dst_font (copy_glyph depth st s d).1) !! n) ->
  glyf (dst_font st) !! n = None ->
  n = d \/ exists x, n = ens_name x.
Proof.
  intros [g Hg] Hnew.
  destruct (copy_glyph_new_entries depth st s d n g Hg Hnew)
    as [[-> _] | (x & _ & -> & _)]; eauto.
Qed.

Section TransplantAdds.
Variable dict_items : gmap Z string -> list (Z * string).
Hypothesis dict_items_perm : forall m, dict_items m ≡ₚ map_to_list m.
Variable recursion_limit : nat.

Lemma transplant_loop_additive prefix :
  plain_prefix prefix ->
  forall items,
    NoDup items.*1 -> (forall cp', cp' ∈ items.*1 -> 0 <= cp') ->
    forall acc cp name,
      (cp, name) ∈ items ->
      cp ∉ failed_codepoints
             (warnings (transplant_loop recursion_limit prefix items acc)) ->
      glyf (dst_font (fonts acc)) !! glyph_name_for_codepoint cp prefix = None ->
      exists g,
        glyf (src_font (fonts acc)) !! name = Some g /\
        glyf (dst_font (fonts (transplant_loop recursion_limit prefix items acc)))
          !! glyph_name_for_codepoint cp prefix = Some (renamed g) /\
        hmtx (dst_font (fonts (transplant_loop recursion_limit prefix items acc)))
          !! glyph_name_for_codepoint cp prefix = hmtx (src_font (fonts acc)) !! name.
Proof.
  intros Hp. induction items as [|[cp0 name0] items IH];
    intros Hnd Hpos acc cp name Hin Hok Hfresh; [inversion Hin |].
  rewrite fmap_cons in Hnd, Hpos. cbn [fst] in Hnd, Hpos.
  apply NoDup_cons in Hnd as [Hcp0 Hnd].
  change (transplant_loop recursion_limit prefix ((cp0, name0) :: items) acc)
    with (transplant_loop recursion_limit prefix items
            (transplant_step recursion_limit prefix acc (cp0, name0))) in *.
  set (acc1 := transplant_step recursion_limit prefix acc (cp0, name0)) in *.
  destruct (transplant_loop_spec recursion_limit prefix items Hnd acc1)
    as (ws & Hw & _).
  destruct (transplant_loop_kept recursion_limit prefix items acc1)
    as (Hk & [_ Hm] & _).
  assert (Hsrc1 : src_font (fonts acc1) = src_font (fonts acc)).
  { unfold acc1, transplant_step.
    pose proof (copy_glyph_src recursion_limit (fonts acc) name0
                  (glyph_name_for_codepoint cp0 prefix)) as H.
    destruct (copy_glyph recursion_limit (fonts acc) name0
                (glyph_name_for_codepoint cp0 prefix)) as [st1 [e|]]; exact H. }
  apply elem_of_cons in Hin as [[= -> ->] | Hin].
  - (* the item at hand *)
    destruct (copy_glyph recursion_limit (fonts acc) name0
                (glyph_name_for_codepoint cp0 prefix)) as [st1 [e|]] eqn:Hcg.
    + exfalso. apply Hok. rewrite Hw. unfold acc1, transplant_step. rewrite Hcg.
      cbn [warnings]. unfold failed_codepoints. rewrite !fmap_app.
      apply elem_of_app. left. apply elem_of_app. right. left.
    + destruct (copy_glyph_ok_new _ _ _ _ _ Hcg Hfresh) as (g & Hg & Hglyf & Hhmtx).
      assert (Hfonts : fonts acc1 =
                set_dst st1 (update_cmap (dst_font st1) cp0
                               (glyph_name_for_codepoint cp0 prefix))).
      { unfold acc1, transplant_step. rewrite Hcg. reflexivity. }
      exists g. split; [exact Hg |]. split.
      * eapply lookup_weaken; [| exact Hk]. rewrite Hfonts. exact Hglyf.
      * rewrite Hm; [rewrite Hfonts; exact Hhmtx |].
        rewrite Hfonts. cbn. rewrite Hglyf. eauto.
  - (* a later item *)
    assert (Hne : cp <> cp0).
    { intros ->. apply Hcp0. apply list_elem_of_fmap. exists (cp0, name). auto. }
    assert (Hcp : cp ∈ items.*1).
    { apply list_elem_of_fmap. exists (cp, name). auto. }
    rewrite <- Hsrc1. apply IH; try assumption.
    + intros cp' Hcp'. apply Hpos. right. exact Hcp'.
    + destruct (glyf (dst_font (fonts acc1)) !! glyph_name_for_codepoint cp prefix)
        as [g1|] eqn:E1; [| reflexivity].
      exfalso.
      assert (Hnew : is_Some (glyf (dst_font (copy_glyph recursion_limit (fonts acc) name0
                                   (glyph_name_for_codepoint cp0 prefix)).1)
                                !! glyph_name_for_codepoint cp prefix)).
      { unfold acc1, transplant_step in E1.
        destruct (copy_glyph recursion_limit (fonts acc) name0
                    (glyph_name_for_codepoint cp0 prefix)) as [st1 [e|]];
          cbn in E1 |- *; rewrite E1; eauto. }
      destruct (copy_glyph_new_names _ _ _ _ _ Hnew Hfresh) as [Heq | [x Heq]].
      * apply Hne. eapply glyph_name_nonneg_inj; [| | exact Heq]; apply Hpos;
          [right; exact Hcp | left].
      * exact (glyph_name_not_ens _ _ _ Hp Heq).
Qed.

(** X14: the transplant is additive.  For a prefix that does not start
    with an underscore and a donor cmap without negative codepoints, every
    codepoint of the donor's resolved cmap that was not logged and whose
    generated name was not an outline of the base ends with that name
    holding the donor's glyph (component references renamed, the rest as in
    the donor) and the donor's horizontal metrics. *)
Theorem transplant_glyphs_additive (st : Fonts) (prefix : string) (R : Transplant) :
  transplant_glyphs dict_items recursion_limit st prefix = inr R ->
  plain_prefix prefix ->
  exists src_cmap,
    get_best_cmap (src_font st) = inr src_cmap /\
    ((forall cp, is_Some (src_cmap !! cp) -> 0 <= cp) ->
     forall cp name,
       src_cmap !! cp = Some name ->
       cp ∉ failed_codepoints (warnings R) ->
       glyf (dst_font st) !! glyph_name_for_codepoint cp prefix = None ->
       exists g,
         glyf (src_font st) !! name = Some g /\
         glyf (dst_font (fonts R)) !! glyph_name_for_codepoint cp prefix
           = Some (renamed g) /\
         hmtx (dst_font (fonts R)) !! glyph_name_for_codepoint cp prefix
           = hmtx (src_font st) !! name).
Proof.
  intros (src_cmap & Hsrc & ->)%transplant_glyphs_inv Hp.
  exists src_cmap. split; [exact Hsrc |].
  intros Hpos cp name Hcp Hok Hfresh.
  apply (transplant_loop_additive prefix Hp (dict_items src_cmap)
           (dict_items_NoDup dict_items dict_items_perm src_cmap)
           (fun cp' H => Hpos cp' (proj1 (dict_items_keys dict_items dict_items_perm
                                            src_cmap cp') H))
           (mkTransplant st 0 []) cp name
           (proj2 (dict_items_elem dict_items dict_items_perm src_cmap cp name) Hcp)
           Hok Hfresh).
Qed.
End TransplantAdds.

Lemma plain_prefix_mes : plain_prefix "mes_".
Proof. intros p H. discriminate H. Defined.

Lemma transplant_glyphs_additive_witness :
  exists R,
    transplant_glyphs map_to_list 100 (mkFonts accented_donor plain_base) "mes_" = inr R /\
    glyf (dst_font (fonts R)) !! "mes_uni00C1"%string =
      Some (CompositeGlyph [mkComponent "_ens_A" 0 0 0;
                            mkComponent "_ens_acutecomb" 120 700 0]) /\
    hmtx (dst_font (fonts R)) !! "mes_uni00C1"%string = Some (600, 50).
Proof.
  eexists. split; [reflexivity |].
  destruct (transplant_glyphs_additive map_to_list
              (fun m => reflexivity (map_to_list m)) 100
              (mkFonts accented_donor plain_base) "mes_" _ eq_refl plain_prefix_mes)
    as (src_cmap & Hsrc & Hadd).
  injection Hsrc as <-.
  destruct (Hadd ltac:(intros cp [v Hv]; apply lookup_singleton_Some in Hv as [<- _]; lia)
              0xC1 "Aacute"%string eq_refl
              ltac:(vm_compute; intros H; inversion H) eq_refl)
    as (g & Hg & Hglyf & Hhmtx).
  vm_compute in Hg. injection Hg as <-.
  split; [exact Hglyf | exact Hhmtx].
Defined.

(** ** The steps of merge_fonts in sequence *)

Section MergeSteps.
Variable dict_items : gmap Z string -> list (Z * string).
Variable recursion_limit : nat.
Variable set_iter : gset string -> list string.
Hypothesis set_iter_perm : forall s, set_iter s ≡ₚ elements s.
Variable recalc_yMax : gmap string Glyph -> Glyph -> option Z.

(** X15: the table steps of [merge_fonts] after the cmap synthesis, run in
    its order (transplant, glyph order, OS/2 metrics from the donor,
    vertical metrics), leave a base in which every outline is listed in the
    glyph order and has a vertical metrics entry, every listed name has
    one, the entry count is the length of the glyph order, the embedding
    flag is 0, the previous glyph order is a prefix of the new one (without
    repetition if it had none), and every outline and every vertical
    metrics entry the base had is unchanged. *)
Theorem merge_steps_complete (st : Fonts) (prefix : string) (R : Transplant) :
  transplant_glyphs dict_items recursion_limit st prefix = inr R ->
  let base2 := fix_glyph_order set_iter (dst_font (fonts R)) in
  let base3 := set_os2_metrics base2 (src_font (fonts R)) in
  let base4 := rebuild_vmtx recalc_yMax base3 in
  (forall n, is_Some (glyf base4 !! n) ->
             n ∈ glyphOrder base4 /\ is_Some (vmtx base4 !! n)) /\
  (forall n, n ∈ glyphOrder base4 -> is_Some (vmtx base4 !! n)) /\
  numberOfVMetrics (vhea base4) = Z.of_nat (length (glyphOrder base4)) /\
  fsType (os2 base4) = 0 /\
  (exists new_glyphs, glyphOrder base4 = glyphOrder (dst_font st) ++ new_glyphs) /\
  (NoDup (glyphOrder (dst_font st)) -> NoDup (glyphOrder base4)) /\
  (forall n g, glyf (dst_font st) !! n = Some g -> glyf base4 !! n = Some g) /\
  (forall n m, vmtx (dst_font st) !! n = Some m -> vmtx base4 !! n = Some m) /\
  (cmap_tables base4, glyf base4, hmtx base4) =
  (cmap_tables (dst_font (fonts R)), glyf (dst_font (fonts R)),
   hmtx (dst_font (fonts R))).
Proof.
  unfold transplant_glyphs.
  destruct (get_best_cmap (src_font st)) as [e|src_cmap]; [discriminate |].
  intros [= <-].
  destruct (transplant_loop_kept recursion_limit prefix (dict_items src_cmap)
              (mkTransplant st 0 [])) as (Hk & _ & Hf).
  cbn [fonts] in Hk, Hf.
  set (R := transplant_loop recursion_limit prefix (dict_items src_cmap)
              (mkTransplant st 0 [])) in *. clearbody R.
  destruct Hf as (_ & Hvm & (_ & _ & added & Hgo & Hadded & Hfresh) & _).
  set (base2 := fix_glyph_order set_iter (dst_font (fonts R))).
  set (base3 := set_os2_metrics base2 (src_font (fonts R))).
  set (base4 := rebuild_vmtx recalc_yMax base3).
  assert (H3c : cmap_tables base3 = cmap_tables base2) by reflexivity.
  assert (H3g : glyf base3 = glyf base2) by reflexivity.
  assert (H3h : hmtx base3 = hmtx base2) by reflexivity.
  assert (H3v : vmtx base3 = vmtx base2) by reflexivity.
  assert (H3o : glyphOrder base3 = glyphOrder base2) by reflexivity.
  assert (H2 : cmap_tables base2 = cmap_tables (dst_font (fonts R)) /\
               glyf base2 = glyf (dst_font (fonts R)) /\
               hmtx base2 = hmtx (dst_font (fonts R)) /\
               vmtx base2 = vmtx (dst_font (fonts R))).
  { unfold base2, fix_glyph_order.
    destruct (filter _ (set_iter (dom (glyf (dst_font (fonts R))))));
      repeat split; reflexivity. }
  destruct H2 as (H2c & H2g & H2h & H2v).
  pose proof (rebuild_vmtx_fields recalc_yMax base3) as H4. fold base4 in H4.
  assert (H4o : glyphOrder base4 = glyphOrder base3) by (rewrite H4; reflexivity).
  assert (H4g : glyf base4 = glyf base3) by (rewrite H4; reflexivity).
  assert (Hlisted : forall n, n ∈ glyphOrder base4 -> is_Some (vmtx base4 !! n)).
  { intros n Hn. unfold base4. rewrite rebuild_vmtx_lookup.
    destruct (vmtx base3 !! n); [eauto |].
    rewrite H4o in Hn. destruct (decide (n ∈ glyphOrder base3)); [eauto | contradiction]. }
  split.
  { intros n Hn. rewrite H4g, H3g, H2g in Hn.
    assert (Hin : n ∈ glyphOrder base4).
    { rewrite H4o, H3o. apply (fix_glyph_order_listed set_iter set_iter_perm).
      apply elem_of_dom. exact Hn. }
    split; [exact Hin | apply Hlisted, Hin]. }
  split; [exact Hlisted |].
  split; [rewrite H4o, H4; reflexivity |].
  split; [rewrite H4; reflexivity |].
  split.
  { eexists. rewrite H4o, H3o. unfold base2. rewrite fix_glyph_order_split, Hgo.
    rewrite <- app_assoc. reflexivity. }
  split.
  { intros Hnd. rewrite H4o, H3o. unfold base2. rewrite fix_glyph_order_split.
    assert (HndR : NoDup (glyphOrder (dst_font (fonts R)))).
    { rewrite Hgo. apply NoDup_app. split; [exact Hnd |]. split; [| exact Hadded].
      intros n Hn Hn'. apply Hfresh in Hn' as [Hout _]. exact (Hout Hn). }
    apply NoDup_app. split; [exact HndR |]. split.
    - intros n Hn Hn'. apply list_elem_of_filter in Hn' as [Hout _].
      apply Hout, elem_of_list_to_set, Hn.
    - apply NoDup_filter, (set_iter_NoDup set_iter set_iter_perm). }
  split.
  { intros n g Hg. rewrite H4g, H3g, H2g. eapply lookup_weaken; eassumption. }
  split.
  { intros n m Hm. unfold base4. rewrite rebuild_vmtx_lookup, H3v, H2v, Hvm, Hm.
    reflexivity. }
  rewrite H4. cbn [cmap_tables glyf hmtx set_vhea set_vmtx].
  rewrite H3c, H3g, H3h, H2c, H2g, H2h. reflexivity.
Qed.
End MergeSteps.

Section IdleReconciler.
Variable dict_items : gmap Z string -> list (Z * string).
Variable recursion_limit : nat.
Variable set_iter : gset string -> list string.
Hypothesis set_iter_perm : forall s, set_iter s ≡ₚ elements s.

(** X20: after the transplant the glyph order needs no repair.  For a base
    whose outlines are all in its glyph order, as those of a font read from
    a file are, every outline is listed when [transplant_glyphs] returns
    (the item assignment of the outline table lists each new name), and
    [fix_glyph_order] then returns the font as it is. *)
Theorem fix_glyph_order_after_transplant (st : Fonts) (prefix : string)
    (R : Transplant) :
  transplant_glyphs dict_items recursion_limit st prefix = inr R ->
  outlines_listed (dst_font st) ->
  outlines_listed (dst_font (fonts R)) /\
  fix_glyph_order set_iter (dst_font (fonts R)) = dst_font (fonts R).
Proof.
  unfold transplant_glyphs.
  destruct (get_best_cmap (src_font st)) as [e|src_cmap]; [discriminate |].
  intros [= <-] Hlisted.
  destruct (transplant_loop_kept recursion_limit prefix (dict_items src_cmap)
              (mkTransplant st 0 [])) as (_ & _ & _ & _ & Ho & _).
  cbn [fonts] in Ho.
  pose proof (order_extended_listed _ _ Ho Hlisted) as Hall.
  split; [exact Hall |].
  set (font := dst_font (fonts (transplant_loop recursion_limit prefix
                                  (dict_items src_cmap) (mkTransplant st 0 [])))) in *.
  clearbody font. unfold fix_glyph_order.
  destruct (filter _ (set_iter (dom (glyf font)))) as [|g gs] eqn:E; [reflexivity |].
  exfalso. assert (Hg : g ∈ g :: gs) by left. rewrite <- E in Hg.
  apply list_elem_of_filter in Hg as [Hout Hin].
  apply (set_iter_elem set_iter set_iter_perm) in Hin.
  apply Hout, elem_of_list_to_set, Hall, elem_of_dom, Hin.
Qed.
End IdleReconciler.

Lemma outlines_listed_listed_base : outlines_listed listed_base.
Proof.
  intros n [g Hg]. unfold listed_base, latin_base, sample_font in *.
  cbn [glyf glyphOrder setGlyphOrder] in *.
  apply lookup_insert_Some in Hg as [[<- _] | [_ Hg]].
  - right. left.
  - apply lookup_singleton_Some in Hg as [<- _]. left.
Defined.

Lemma fix_glyph_order_after_transplant_witness :
  exists R,
    transplant_glyphs map_to_list 100 (mkFonts latin_donor listed_base) "mes_" = inr R /\
    outlines_listed listed_base /\
    glyphOrder (dst_font (fonts R)) =
      ["cjk_zhong"%string; "A_base"%string; "mes_uni0041"%string] /\
    fix_glyph_order elements (dst_font (fonts R)) = dst_font (fonts R).
Proof.
  eexists. split; [reflexivity |]. split; [exact outlines_listed_listed_base |].
  split; [reflexivity |].
  apply (fix_glyph_order_after_transplant map_to_list 100 elements
           (fun s => reflexivity (elements s))
           (mkFonts latin_donor listed_base) "mes_" _ eq_refl
           outlines_listed_listed_base).
Defined.

Lemma merge_steps_complete_witness :
  exists R,
    transplant_glyphs map_to_list 100 (mkFonts accented_donor plain_base) "mes_" = inr R /\
    let base4 :=
      rebuild_vmtx (fun _ _ => None)
        (set_os2_metrics (fix_glyph_order elements (dst_font (fonts R)))
           (src_font (fonts R))) in
    numberOfVMetrics (vhea base4) = Z.of_nat (length (glyphOrder base4)) /\
    is_Some (vmtx base4 !! "mes_uni00C1"%string).
Proof.
  eexists. split; [reflexivity |].
  destruct (merge_steps_complete map_to_list 100 elements
              (fun s => reflexivity (elements s)) (fun _ _ => None)
              (mkFonts accented_donor plain_base) "mes_" _ eq_refl)
    as (Hall & _ & Hn & _).
  split; [exact Hn |]. apply Hall. vm_compute. eauto.
Defined.

(** ** validate_monospace_integrity *)

Lemma widths_loop_elem font cmap (w : Z) (l : list Z) : forall acc : gset Z,
  w ∈ fold_left (widths_step font cmap) l acc <->
  w ∈ acc \/
  exists cp gname lsb,
    cp ∈ l /\ cmap !! cp = Some gname /\ hmtx font !! gname = Some (w, lsb).
Proof.
  induction l as [|cp l IH]; intros acc; simpl.
  - split; [tauto |]. intros [H | (cp & _ & _ & H & _)]; [exact H | inversion H].
  - rewrite IH. unfold widths_step. split.
    + intros [H | (cp' & gname & lsb & Hin & Hc & Hm)].
      * destruct (cmap !! cp) as [gname|] eqn:Hc; [| tauto].
        destruct (hmtx font !! gname) as [[w0 lsb]|] eqn:Hm; [| tauto].
        apply elem_of_union in H as [H | H]; [| tauto].
        apply elem_of_singleton in H as ->. right.
        exists cp, gname, lsb. split; [left | tauto].
      * right. exists cp', gname, lsb. split; [right; exact Hin | tauto].
    + intros [H | (cp' & gname & lsb & Hin & Hc & Hm)].
      * left. destruct (cmap !! cp) as [gname|]; [| exact H].
        destruct (hmtx font !! gname); [| exact H].
        apply elem_of_union. right. exact H.
      * apply elem_of_cons in Hin as [-> | Hin].
        -- left. rewrite Hc, Hm. apply elem_of_union. left.
           apply elem_of_singleton. reflexivity.
        -- right. exists cp', gname, lsb. tauto.
Qed.

Lemma elem_of_ascii_widths font cmap w :
  w ∈ ascii_widths font cmap <-> ascii_width font cmap w.
Proof.
  unfold ascii_widths, ascii_width. rewrite widths_loop_elem. split.
  - intros [H | (cp & gname & lsb & Hin & H)]; [set_solver |].
    apply elem_of_seqZ in Hin. exists cp, gname, lsb. split; [lia | exact H].
  - intros (cp & gname & lsb & Hcp & H). right. exists cp, gname, lsb.
    split; [apply elem_of_seqZ; lia | exact H].
Qed.

(** X16: what [validate_monospace_integrity] reports.  It raises only the
    resolver's error.  Over the advance widths of the printable ASCII
    codepoints (U+0020 to U+007E, bounds included) that the resolved cmap
    maps to a glyph with metrics: it reports a violation exactly when there
    are two different widths, with their number and the widths in
    increasing order without repetition; the one width when there is
    exactly one; and "no ASCII glyphs" when there is none. *)
Theorem validate_monospace_integrity_report (font : TTFont) :
  match validate_monospace_integrity font with
  | inl e => get_best_cmap font = inl e
  | inr report =>
      exists cmap,
        get_best_cmap font = inr cmap /\
        match report with
        | NoAsciiGlyphs => forall w, ~ ascii_width font cmap w
        | IntegrityOK w =>
            ascii_width font cmap w /\
            forall w', ascii_width font cmap w' -> w' = w
        | IntegrityViolation n ws =>
            (2 <= n)%nat /\ n = length ws /\
            Sorted Z.le ws /\ NoDup ws /\
            (forall w, w ∈ ws <-> ascii_width font cmap w) /\
            exists w1 w2, w1 <> w2 /\ ascii_width font cmap w1 /\
                          ascii_width font cmap w2
        end
  end.
Proof.
  unfold validate_monospace_integrity.
  destruct (get_best_cmap font) as [e|cmap]; [reflexivity |].
  set (X := ascii_widths font cmap).
  assert (Hel : forall w, w ∈ elements X <-> ascii_width font cmap w).
  { intros w. rewrite elem_of_elements. apply elem_of_ascii_widths. }
  pose proof (NoDup_elements X) as Hnd.
  change (size X) with (length (elements X)).
  destruct (elements X) as [|w1 [|w2 l]] eqn:E; cbn [length Nat.ltb Nat.leb Nat.eqb hd].
  - exists cmap. split; [reflexivity |]. intros w Hw. apply Hel in Hw. inversion Hw.
  - exists cmap. split; [reflexivity |]. split.
    + apply Hel. left.
    + intros w' Hw'. apply Hel in Hw'. apply list_elem_of_singleton in Hw'. exact Hw'.
  - exists cmap. split; [reflexivity |].
    pose proof (merge_sort_Permutation Z.le (w1 :: w2 :: l)) as Hperm.
    split; [lia |]. split; [rewrite Hperm; reflexivity |].
    split; [apply Sorted_merge_sort; apply _ |].
    split; [rewrite Hperm; exact Hnd |].
    split; [intros w; rewrite Hperm; apply Hel |].
    exists w1, w2. split.
    + intros ->. apply NoDup_cons in Hnd as [Hnd _]. apply Hnd. left.
    + split; apply Hel; [left | right; left].
Qed.

Example validate_uneven_ascii :
  validate_monospace_integrity uneven_ascii_font = inr (IntegrityViolation 2 [600; 601]).
Proof. vm_compute. reflexivity. Qed.

Example validate_no_cmap :
  validate_monospace_integrity (sample_font [] ∅ ∅) = inl ValueError.
Proof. reflexivity. Qed.

(** ** set_font_metadata *)

Lemma filter_all {A} (P : A -> Prop) `{forall x, Decision (P x)} (l : list A) :
  Forall P l -> filter P l = l.
Proof.
  induction 1 as [|x l Hx _ IH]; [reflexivity |].
  rewrite filter_cons_True by exact Hx. rewrite IH. reflexivity.
Qed.

Lemma filter_none {A} (P : A -> Prop) `{forall x, Decision (P x)} (l : list A) :
  Forall (fun x => ~ P x) l -> filter P l = [].
Proof.
  induction 1 as [|x l Hx _ IH]; [reflexivity |].
  rewrite filter_cons_False by exact Hx. exact IH.
Qed.

Lemma metadata_entries_ids style version lxgw_ver nerd_ver :
  (metadata_entries style version lxgw_ver nerd_ver).*1 = own_name_ids.
Proof. reflexivity. Qed.

Lemma metadata_entries_NoDup : NoDup own_name_ids.
Proof. apply (bool_decide_unpack _). vm_compute. exact I. Qed.

Section SetFontMetadataFacts.
Variable utf_16_be : string -> list Byte.byte.
Variable mac_roman : string -> list Byte.byte.

Lemma append_entry_eq names entry :
  append_entry utf_16_be mac_roman names entry =
  names ++ records_of utf_16_be mac_roman entry.
Proof.
  unfold append_entry, records_of, name_locales. cbn [fold_left new_record].
  rewrite <- !app_assoc. reflexivity.
Qed.

Lemma append_entries_eq entries : forall names,
  fold_left (append_entry utf_16_be mac_roman) entries names =
  names ++ (entries ≫= records_of utf_16_be mac_roman).
Proof.
  induction entries as [|e entries IH]; intros names; cbn [fold_left].
  - symmetry. apply app_nil_r.
  - rewrite IH, append_entry_eq, <- app_assoc. reflexivity.
Qed.

Lemma set_font_metadata_eq names style version lxgw_ver nerd_ver :
  set_font_metadata utf_16_be mac_roman names style version lxgw_ver nerd_ver =
  filter (fun n => nameID n ∉ own_name_ids) names ++
  (metadata_entries style version lxgw_ver nerd_ver ≫=
     records_of utf_16_be mac_roman).
Proof.
  unfold set_font_metadata. cbv zeta. rewrite append_entries_eq. f_equal.
  rewrite metadata_entries_ids. apply list_filter_iff. intros n.
  rewrite elem_of_list_to_set. reflexivity.
Qed.

Lemma records_of_id entry r :
  r ∈ records_of utf_16_be mac_roman entry -> nameID r = entry.1.
Proof.
  unfold records_of. intros H.
  repeat (apply elem_of_cons in H as [-> | H]; [reflexivity |]).
  inversion H.
Qed.

Lemma new_records_own entries r :
  r ∈ entries ≫= records_of utf_16_be mac_roman -> nameID r ∈ entries.*1.
Proof.
  intros H. apply list_elem_of_bind in H as (e & Hr & He).
  rewrite (records_of_id _ _ Hr). apply list_elem_of_fmap. exists e. tauto.
Qed.

Lemma filter_id_records (entries : list (Z * string)) : forall id v,
  NoDup entries.*1 -> (id, v) ∈ entries ->
  filter (fun n => nameID n = id) (entries ≫= records_of utf_16_be mac_roman) =
  records_of utf_16_be mac_roman (id, v).
Proof.
  induction entries as [|e entries IH]; intros id v Hnd Hin; [inversion Hin |].
  rewrite fmap_cons in Hnd. apply NoDup_cons in Hnd as [Hfresh Hnd].
  rewrite bind_cons, filter_app.
  apply elem_of_cons in Hin as [<- | Hin].
  - rewrite filter_all, filter_none; [apply app_nil_r | |].
    + apply Forall_forall. intros r Hr Hid. apply new_records_own in Hr.
      rewrite Hid in Hr. exact (Hfresh Hr).
    + apply Forall_forall. intros r Hr. exact (records_of_id _ _ Hr).
  - rewrite filter_none, (IH id v Hnd Hin); [reflexivity |].
    apply Forall_forall. intros r Hr Hid. apply records_of_id in Hr.
    apply Hfresh. apply list_elem_of_fmap. exists (id, v).
    split; [simpl; congruence | exact Hin].
Qed.

(** X17: what [set_font_metadata] leaves in the name table.  The records
    of other name IDs are kept, in their order, in front.  For each of the
    twelve entries, every earlier record of its name ID is gone and exactly
    three records carry it: zh-TW and en-US on Windows with the value in
    UTF-16BE, then Traditional Chinese on Mac with the value in Mac Roman.
    The table ends up with 36 records more than the kept ones. *)
Theorem set_font_metadata_records (names : list NameRecord)
    (style version lxgw_ver nerd_ver : string) :
  let result :=
    set_font_metadata utf_16_be mac_roman names style version lxgw_ver nerd_ver in
  let kept := filter (fun n => nameID n ∉ own_name_ids) names in
  (metadata_entries style version lxgw_ver nerd_ver).*1 = own_name_ids /\
  filter (fun n => nameID n ∉ own_name_ids) result = kept /\
  take (length kept) result = kept /\
  (forall id v,
     (id, v) ∈ metadata_entries style version lxgw_ver nerd_ver ->
     filter (fun n => nameID n = id) result =
     [ mkNameRecord id 3 1 0x0404 (utf_16_be v);
       mkNameRecord id 3 1 0x0409 (utf_16_be v);
       mkNameRecord id 1 0 19 (mac_roman v) ]) /\
  length result = (length kept + 36)%nat.
Proof.
  intros result kept. subst result. rewrite set_font_metadata_eq. fold kept.
  set (new := metadata_entries style version lxgw_ver nerd_ver ≫=
                records_of utf_16_be mac_roman).
  assert (Hnew : Forall (fun n => nameID n ∈ own_name_ids) new).
  { apply Forall_forall. intros r Hr. apply new_records_own in Hr.
    rewrite metadata_entries_ids in Hr. exact Hr. }
  assert (Hkept : Forall (fun n => nameID n ∉ own_name_ids) kept).
  { apply Forall_forall. intros r Hr. apply list_elem_of_filter in Hr. tauto. }
  split; [reflexivity |]. split; [| split; [| split]].
  - rewrite filter_app, (filter_all _ kept Hkept), filter_none; [apply app_nil_r |].
    eapply Forall_impl; [exact Hnew |]. intros r Hr Hn. exact (Hn Hr).
  - apply take_app_length.
  - intros id v Hin. rewrite filter_app, filter_none.
    + apply (filter_id_records _ id v); [| exact Hin].
      rewrite metadata_entries_ids. exact metadata_entries_NoDup.
    + eapply Forall_impl; [exact Hkept |]. intros r Hr Hid. apply Hr.
      rewrite Hid, <- (metadata_entries_ids style version lxgw_ver nerd_ver).
      apply list_elem_of_fmap. exists (id, v). split; [reflexivity | exact Hin].
  - rewrite length_app. reflexivity.
Qed.

(** X18: the last call of [set_font_metadata] wins.  Whatever an earlier
    call wrote is replaced, so the table after two calls is the table after
    the second alone; with the same arguments the function is idempotent. *)
Theorem set_font_metadata_last_wins (names : list NameRecord)
    (style1 version1 lxgw_ver1 nerd_ver1 style2 version2 lxgw_ver2 nerd_ver2 : string) :
  set_font_metadata utf_16_be mac_roman
    (set_font_metadata utf_16_be mac_roman names style1 version1 lxgw_ver1 nerd_ver1)
    style2 version2 lxgw_ver2 nerd_ver2 =
  set_font_metadata utf_16_be mac_roman names style2 version2 lxgw_ver2 nerd_ver2.
Proof.
  rewrite !set_font_metadata_eq. f_equal.
  set (kept := filter (fun n => nameID n ∉ own_name_ids) names).
  rewrite filter_app, (filter_all _ kept), filter_none; [apply app_nil_r | |].
  - apply Forall_forall. intros r Hr Hn. apply new_records_own in Hr.
    rewrite metadata_entries_ids in Hr. exact (Hn Hr).
  - apply Forall_forall. intros r Hr. apply list_elem_of_filter in Hr. tauto.
Qed.

End SetFontMetadataFacts.

Lemma chars_append (a b : string) :
  list_ascii_of_string (a +:+ b) = list_ascii_of_string a ++ list_ascii_of_string b.
Proof.
  induction a as [|c a IH]; [reflexivity |].
  change (String c a +:+ b) with (String c (a +:+ b)).
  cbn [list_ascii_of_string]. rewrite IH. reflexivity.
Qed.

Lemma str_replace_delete (old : ascii) (s : string) :
  list_ascii_of_string (str_replace old EmptyString s) =
  filter (fun c => c <> old) (list_ascii_of_string s).
Proof.
  induction s as [|c s IH]; [reflexivity |].
  cbn [str_replace list_ascii_of_string].
  destruct (Ascii.eqb_spec c old) as [-> | Hne].
  - change (EmptyString +:+ ?x) with x.
    rewrite filter_cons_False by (intros H; exact (H eq_refl)). exact IH.
  - rewrite filter_cons_True by exact Hne.
    cbn [list_ascii_of_string]. rewrite IH. reflexivity.
Qed.

Lemma metadata_entries_ps_name style version lxgw_ver nerd_ver v :
  (6, v) ∈ metadata_entries style version lxgw_ver nerd_ver ->
  v = "ENSFont-" +:+ str_replace " " EmptyString style.
Proof.
  unfold metadata_entries. cbv zeta. intros H.
  repeat (apply elem_of_cons in H as [H | H];
          [first [discriminate H | injection H as ->; reflexivity] |]).
  inversion H.
Qed.

Lemma style_char_postscript (c : ascii) :
  style_char c = true -> c <> " "%char -> postscript_char c = true.
Proof.
  unfold style_char, postscript_char. intros H Hne.
  apply orb_true_iff in H as [H | H]; [rewrite H; reflexivity |].
  apply Ascii.eqb_eq in H. contradiction.
Qed.

Section PostScriptName.
Variable utf_16_be : string -> list Byte.byte.
Variable mac_roman : string -> list Byte.byte.

(** X19: the PostScript name.  Every record of name ID 6 in the table
    [set_font_metadata] returns encodes "ENSFont-" followed by the style
    with its spaces deleted; the name holds no space, and for a style of
    letters, digits and spaces it consists of A-Z, a-z, 0-9 and "-" only. *)
Theorem set_font_metadata_postscript_name (names : list NameRecord)
    (style version lxgw_ver nerd_ver : string) (r : NameRecord) :
  r ∈ set_font_metadata utf_16_be mac_roman names style version lxgw_ver nerd_ver ->
  nameID r = 6 ->
  exists v,
    name_string r =
      (if name_platformID r =? 3 then utf_16_be v else mac_roman v) /\
    list_ascii_of_string v =
      list_ascii_of_string "ENSFont-" ++
      filter (fun c => c <> " "%char) (list_ascii_of_string style) /\
    (" "%char ∉ list_ascii_of_string v) /\
    (plain_style style -> postscript_safe v).
Proof.
  intros Hr Hid. rewrite set_font_metadata_eq in Hr.
  apply elem_of_app in Hr as [Hr | Hr].
  { apply list_elem_of_filter in Hr as [Hn _]. exfalso. apply Hn. rewrite Hid.
    apply (bool_decide_unpack _). vm_compute. exact I. }
  apply list_elem_of_bind in Hr as ([id v] & Hr & He).
  pose proof (records_of_id _ _ _ _ Hr) as Hid'. cbn [fst] in Hid'.
  assert (id = 6) as -> by congruence.
  pose proof (metadata_entries_ps_name _ _ _ _ _ He) as Hv.
  assert (Hchars : list_ascii_of_string v =
                   list_ascii_of_string "ENSFont-" ++
                   filter (fun c => c <> " "%char) (list_ascii_of_string style)).
  { rewrite Hv, chars_append, str_replace_delete. reflexivity. }
  exists v. split; [| split; [exact Hchars |]].
  { unfold records_of in Hr. cbn [fst snd] in Hr.
    repeat (apply elem_of_cons in Hr as [-> | Hr]; [reflexivity |]).
    inversion Hr. }
  split.
  - rewrite Hchars. intros H. apply elem_of_app in H as [H | H].
    + cbn [list_ascii_of_string] in H.
      repeat (apply elem_of_cons in H as [H | H]; [discriminate H |]).
      inversion H.
    + apply list_elem_of_filter in H as [H _]. exact (H eq_refl).
  - intros Hstyle. unfold postscript_safe. rewrite Hchars. apply Forall_app. split.
    + cbn [list_ascii_of_string]. repeat (constructor; [reflexivity |]). constructor.
    + apply Forall_forall. intros c Hc. apply list_elem_of_filter in Hc as [Hne Hc].
      apply style_char_postscript; [| exact Hne].
      unfold plain_style in Hstyle. rewrite Forall_forall in Hstyle.
      exact (Hstyle c Hc).
Qed.

End PostScriptName.

Lemma set_font_metadata_postscript_name_witness :
  mkNameRecord 6 3 1 0x0404 (utf_8 "ENSFont-BoldItalic") ∈
    set_font_metadata utf_8 utf_8 sample_names "Bold Italic" "1.2.0" "1.521" "3.4.0" /\
  nameID (mkNameRecord 6 3 1 0x0404 (utf_8 "ENSFont-BoldItalic")) = 6 /\
  exists v,
    name_string (mkNameRecord 6 3 1 0x0404 (utf_8 "ENSFont-BoldItalic")) =
      (if name_platformID (mkNameRecord 6 3 1 0x0404 (utf_8 "ENSFont-BoldItalic")) =? 3
       then utf_8 v else utf_8 v) /\
    list_ascii_of_string v =
      list_ascii_of_string "ENSFont-" ++
      filter (fun c => c <> " "%char) (list_ascii_of_string "Bold Italic") /\
    (" "%char ∉ list_ascii_of_string v) /\
    (plain_style "Bold Italic" -> postscript_safe v).
Proof.
  assert (Hin : mkNameRecord 6 3 1 0x0404 (utf_8 "ENSFont-BoldItalic") ∈
                set_font_metadata utf_8 utf_8 sample_names
                  "Bold Italic" "1.2.0" "1.521" "3.4.0").
  { apply (list_elem_of_lookup_2 _ 19%nat). vm_compute. reflexivity. }
  split; [exact Hin |]. split; [reflexivity |].
  exact (set_font_metadata_postscript_name utf_8 utf_8 sample_names
           "Bold Italic" "1.2.0" "1.521" "3.4.0" _ Hin eq_refl).
Defined.

Example plain_style_bold_italic : plain_style "Bold Italic".
Proof. unfold plain_style. cbn [list_ascii_of_string]. repeat (constructor; [reflexivity |]). constructor. Qed.

Example set_font_metadata_replaces :
  (fun r => (nameID r, name_platformID r, langID r)) <$>
    set_font_metadata utf_8 utf_8 sample_names "Bold" "1.2.0" "1.521" "3.4.0" =
  (7, 3, 0x0409) ::
  (own_name_ids ≫= fun id => [(id, 3, 0x0404); (id, 3, 0x0409); (id, 1, 19)]).
Proof. vm_compute. reflexivity. Qed.
